(** * pqt: the SQL emitter (pqtsql) and the entity/criteria generators (gogen)

    A shallow embedding of [pqtsql/generator.go] and of the parts of
    [internal/gogen/gen_general.go] that build entity fields and criteria
    trees, with the properties the specification states about them.

    [generator.go] is given in two revisions; the embedding follows the
    first, which knows unique indexes and extends the constraint list of a
    table with the foreign keys of its owned relationships.

    Conventions of the embedding.
    - A Go [string] and the contents of a [bytes.Buffer] are Rocq strings;
      writing to a buffer appends.
    - A function [func(buf *bytes.Buffer, ...) error] is an [emitter]: it
      maps the buffer to the buffer it leaves behind and the error it
      returns ([None] is [nil]).  The buffer is kept on failure, because the
      Go code has written to it by then.
    - A pointer that the generator compares with [nil] is an [option]; the
      elements of slices that the generator dereferences without a test
      (columns, constraints, relationships, arguments) are values, and so
      are the tables a constraint or a relationship points to, except the
      referenced table of a constraint, which the emitter tests.
    - A slice of constraints carries its backing array, spare capacity
      included, since [append] may write into it.
    - [Generator.Version] is a binary64 float, as in Go. *)

From Stdlib Require Import String Ascii List Bool ZArith Lia PrimFloat.
From stdpp Require Import base option list gmap strings.

Local Open Scope Z_scope.
Local Open Scope list_scope.

(** ** Strings and buffers *)

Definition error : Type := string.
Definition Buffer : Type := string.

(** The three characters the generator writes that a Rocq literal cannot
    hold comfortably: line feed, horizontal tab and the double quote. *)
Definition LF : string := String "010"%char EmptyString.
Definition TAB : string := String "009"%char EmptyString.
Definition DQ : string := String "034"%char EmptyString.

(** [s != ""] *)
Definition nonempty (s : string) : bool :=
  match s with
  | EmptyString => false
  | String _ _ => true
  end.

Fixpoint concat_strings (l : list string) : string :=
  match l with
  | [] => EmptyString
  | s :: l' => s +:+ concat_strings l'
  end.

(** [strings.Join]-like concatenation with a separator. *)
Fixpoint join (sep : string) (l : list string) : string :=
  match l with
  | [] => EmptyString
  | [x] => x
  | x :: l' => x +:+ sep +:+ join sep l'
  end.

(** ** Emitters: buffer-passing code with an error result *)

Definition emitter : Type := Buffer -> Buffer * option error.

Definition WriteString (s : string) : emitter := fun buf => (buf +:+ s, None).
Definition WriteRune (c : ascii) : emitter :=
  fun buf => (buf +:+ String c EmptyString, None).
Definition skip : emitter := fun buf => (buf, None).
Definition fail (e : error) : emitter := fun buf => (buf, Some e).

(** Sequencing with Go's [if err != nil { return err }]. *)
Definition seq (a b : emitter) : emitter :=
  fun buf =>
    match a buf with
    | (buf', None) => b buf'
    | (buf', Some e) => (buf', Some e)
    end.

Notation "a >> b" := (seq a b) (at level 62, right associativity).

Definition when (c : bool) (a : emitter) : emitter := if c then a else skip.

(** [for _, x := range l { body }] *)
Fixpoint range {A : Type} (l : list A) (body : A -> emitter) : emitter :=
  match l with
  | [] => skip
  | x :: l' => body x >> range l' body
  end.

(** [for i, x := range l { body }], counting from [i]. *)
Fixpoint range_from {A : Type} (i : Z) (l : list A) (body : Z -> A -> emitter)
  : emitter :=
  match l with
  | [] => skip
  | x :: l' => body i x >> range_from (i + 1) l' body
  end.

(** ** The schema model (package pqt), as far as the generators read it *)

(** [pqt.Type] is an interface; the generators only call [String] on it. *)
Record PqtType : Type := { TypeString : string }.

Inductive EventType : Type := EventInsert | EventUpdate.

Record Column : Type := {
  col_Name : string;
  col_Type : PqtType;
  col_Collate : string;
  col_NotNull : bool;
  col_IsDynamic : bool;
  col_PrimaryKey : bool
}.

(** [pqt.ConstraintType] is a string type with seven declared constants;
    any other value is [ConstraintTypeOther]. *)
Inductive ConstraintType : Type :=
| ConstraintTypePrimaryKey
| ConstraintTypeCheck
| ConstraintTypeUnique
| ConstraintTypeIndex
| ConstraintTypeForeignKey
| ConstraintTypeExclusion
| ConstraintTypeUniqueIndex
| ConstraintTypeOther (tag : string).

(** Referential actions: the four the emitter knows, and [NoAction] for
    every other value of the field (the zero value included). *)
Inductive Action : Type := NoAction | Restrict | Cascade | SetNull | SetDefault.

(** What can be seen of a table through a pointer held by a constraint or
    a relationship: its identity and its names. *)
Record TableRef : Type := {
  ref_addr : positive;
  ref_Name : string;
  ref_SchemaName : option string
}.

Record Constraint : Type := {
  c_Type : ConstraintType;
  c_Where : string;
  c_Check : string;
  c_PrimaryTable : TableRef;
  c_Table : option TableRef;
  c_PrimaryColumns : list Column;
  c_Columns : list Column;
  c_OnDelete : Action;
  c_OnUpdate : Action
}.

Inductive RelationshipType : Type :=
| RelationshipTypeOneToOne
| RelationshipTypeOneToMany
| RelationshipTypeManyToOne
| RelationshipTypeManyToMany
| RelationshipTypeOther.

Record Relationship : Type := {
  r_Type : RelationshipType;
  r_OwnerName : string;
  r_InversedName : string;
  r_OwnerTable : TableRef;
  r_InversedTable : TableRef;
  r_OwnerColumns : list Column;
  r_OwnerForeignKey : option Constraint
}.

(** A Go slice of constraints together with its backing array: [elems] are
    the cells below [len], [spare] the cells between [len] and [cap]. *)
Record Constraints : Type := {
  elems : list Constraint;
  spare : list (option Constraint)
}.

Definition cap (s : Constraints) : nat := length (elems s) + length (spare s).

(** [array[i] = x] on the backing array of [s]. *)
Definition array_store (s : Constraints) (i : nat) (x : Constraint) : Constraints :=
  if (i <? length (elems s))%nat
  then {| elems := <[i := x]> (elems s); spare := spare s |}
  else {| elems := elems s; spare := <[(i - length (elems s))%nat := Some x]> (spare s) |}.

(** A table: [t_addr] is its address, for the comparisons of table
    pointers, and [t_Schema] the name of the schema [t.Schema] points to,
    when that pointer is not nil. *)
Record Table : Type := {
  t_addr : positive;
  t_Name : string;
  t_Schema : option string;
  t_Temporary : bool;
  t_IfNotExists : bool;
  t_Columns : list Column;
  t_Constraints : Constraints;
  t_OwnedRelationships : list Relationship;
  t_InversedRelationships : list Relationship;
  t_ManyToManyRelationships : list Relationship
}.

Definition set_Constraints (t : Table) (cs : Constraints) : Table :=
  {| t_addr := t_addr t; t_Name := t_Name t; t_Schema := t_Schema t;
     t_Temporary := t_Temporary t; t_IfNotExists := t_IfNotExists t;
     t_Columns := t_Columns t; t_Constraints := cs;
     t_OwnedRelationships := t_OwnedRelationships t;
     t_InversedRelationships := t_InversedRelationships t;
     t_ManyToManyRelationships := t_ManyToManyRelationships t |}.

Inductive FunctionBehaviour : Type :=
| FunctionBehaviourVolatile
| FunctionBehaviourImmutable
| FunctionBehaviourStable
| FunctionBehaviourOther.

Record FunctionArg : Type := { arg_Name : string; arg_Type : PqtType }.

Record Function : Type := {
  f_Name : string;
  f_Args : list FunctionArg;
  f_Type : PqtType;
  f_Body : string;
  f_Behaviour : FunctionBehaviour
}.

Record Schema : Type := {
  s_Name : string;
  s_IfNotExists : bool;
  s_Tables : list (option Table);
  s_Functions : list (option Function)
}.

Definition set_Tables (s : Schema) (ts : list (option Table)) : Schema :=
  {| s_Name := s_Name s; s_IfNotExists := s_IfNotExists s;
     s_Tables := ts; s_Functions := s_Functions s |}.

(** The helpers of package pqt that the emitter calls and whose code is
    not part of the sources at hand.  They are parameters of everything
    below. *)
Class PqtLib : Type := {
  (** [Column.DefaultOn(event)] *)
  DefaultOn : Column -> EventType -> option string;
  (** [Constraint.Name()] *)
  ConstraintName : Constraint -> string;
  (** [Table.FullName()] *)
  FullName : TableRef -> string;
  (** [pqt.JoinColumns(columns, separator)] *)
  JoinColumns : list Column -> string -> string;
  (** [Columns.String()] *)
  ColumnsString : list Column -> string;
  (** [%s] applied to a constraint type *)
  ConstraintTypeString : ConstraintType -> string
}.

Definition ConstraintType_eqb (a b : ConstraintType) : bool :=
  match a, b with
  | ConstraintTypePrimaryKey, ConstraintTypePrimaryKey => true
  | ConstraintTypeCheck, ConstraintTypeCheck => true
  | ConstraintTypeUnique, ConstraintTypeUnique => true
  | ConstraintTypeIndex, ConstraintTypeIndex => true
  | ConstraintTypeForeignKey, ConstraintTypeForeignKey => true
  | ConstraintTypeExclusion, ConstraintTypeExclusion => true
  | ConstraintTypeUniqueIndex, ConstraintTypeUniqueIndex => true
  | ConstraintTypeOther x, ConstraintTypeOther y => String.eqb x y
  | _, _ => false
  end.

(** Modelled from the spec: [Constraints.CountOf] is not in the sources;
    the specification describes it as counting the constraints whose type
    is one of the given types. *)
Definition CountOf (cs : list Constraint) (types : list ConstraintType) : Z :=
  Z.of_nat (length (List.filter (fun c => existsb (ConstraintType_eqb (c_Type c)) types) cs)).

(** ** Package pqtsql: the DDL emitter *)

Record Generator : Type := { Version : float }.

(** The outcome of a Go call that may stop with a run-time panic. *)
Inductive go_result (A : Type) : Type :=
| Returns (a : A)
| Panics.
Arguments Returns {A} a.
Arguments Panics {A}.

(** [fmt.Fprint], [fmt.Fprintf] (with its verbs already substituted) and
    [fmt.Fprintln] on a buffer, which cannot fail. *)
Definition Fprint (s : string) (buf : Buffer) : Buffer := buf +:+ s.
Definition Fprintln (s : string) (buf : Buffer) : Buffer := buf +:+ s +:+ LF.

(** A call of a function that writes to the buffer and returns nothing. *)
Definition run (f : Buffer -> Buffer) : emitter := fun buf => (f buf, None).

(** The working slice [constraints] of [generateCreateTable]: [w_array] is
    the table's own slice with the current contents of its backing array,
    [w_elems] the elements of the working slice, and [w_shared] tells
    whether the working slice still points into the table's array. *)
Record working : Type := {
  w_array : Constraints;
  w_elems : list Constraint;
  w_shared : bool
}.

(** [constraints = append(constraints, x)]: Go writes in place when the
    capacity allows and moves the elements to a new array otherwise. *)
Definition go_append (w : working) (x : Constraint) : working :=
  let n := length (w_elems w) in
  if w_shared w && (n <? cap (w_array w))%nat
  then {| w_array := array_store (w_array w) n x;
          w_elems := w_elems w ++ [x];
          w_shared := true |}
  else {| w_array := w_array w;
          w_elems := w_elems w ++ [x];
          w_shared := false |}.

Definition isIndexType (ty : ConstraintType) : bool :=
  match ty with
  | ConstraintTypeIndex | ConstraintTypeUniqueIndex => true
  | _ => false
  end.

Section Pqtsql.
Context `{PqtLib}.

Definition uniqueConstraintQuery (c : Constraint) (buf : Buffer) : Buffer :=
  Fprint ("CONSTRAINT " +:+ DQ +:+ ConstraintName c +:+ DQ +:+ " UNIQUE ("
            +:+ JoinColumns (c_PrimaryColumns c) ", " +:+ ")") buf.

Definition primaryKeyConstraintQuery (c : Constraint) (buf : Buffer) : Buffer :=
  Fprint ("CONSTRAINT " +:+ DQ +:+ ConstraintName c +:+ DQ +:+ " PRIMARY KEY ("
            +:+ JoinColumns (c_PrimaryColumns c) ", " +:+ ")") buf.

Definition foreignKeyConstraintQuery (c : Constraint) : emitter :=
  match c_PrimaryColumns c, c_Columns c, c_Table c with
  | [], _, _ => fail "foreign key constraint require at least one column"
  | _ :: _, [], _ =>
      fail "foreign key constraint require at least one reference column"
  | _ :: _, _ :: _, None => fail "foreiqn key constraint missing reference table"
  | _ :: _, _ :: _, Some tbl =>
      run (Fprint ("CONSTRAINT " +:+ DQ +:+ ConstraintName c +:+ DQ
                     +:+ " FOREIGN KEY (" +:+ JoinColumns (c_PrimaryColumns c) ", "
                     +:+ ") REFERENCES " +:+ FullName tbl
                     +:+ " (" +:+ JoinColumns (c_Columns c) ", " +:+ ")"))
      >> match c_OnDelete c with
         | Cascade => WriteString " ON DELETE CASCADE"
         | Restrict => WriteString " ON DELETE RESTRICT"
         | SetNull => WriteString " ON DELETE SET NULL"
         | SetDefault => WriteString " ON DELETE SET DEFAULT"
         | NoAction => skip
         end
      >> match c_OnUpdate c with
         | Cascade => WriteString " ON UPDATE CASCADE"
         | Restrict => WriteString " ON UPDATE RESTRICT"
         | SetNull => WriteString " ON UPDATE SET NULL"
         | SetDefault => WriteString " ON UPDATE SET DEFAULT"
         | NoAction => skip
         end
  end.

Definition checkConstraintQuery (c : Constraint) (buf : Buffer) : Buffer :=
  Fprint ("CONSTRAINT " +:+ DQ +:+ ConstraintName c +:+ DQ +:+ " CHECK ("
            +:+ c_Check c +:+ ")") buf.

Definition indexConstraintQuery (c : Constraint) (ver : float) (buf : Buffer)
  : Buffer :=
  let buf :=
    if PrimFloat.leb 9.5%float ver
    then Fprint ("CREATE INDEX IF NOT EXISTS " +:+ DQ +:+ ConstraintName c +:+ DQ
                   +:+ " ON " +:+ FullName (c_PrimaryTable c)
                   +:+ " (" +:+ ColumnsString (c_PrimaryColumns c) +:+ ");") buf
    else Fprint ("CREATE INDEX " +:+ DQ +:+ ConstraintName c +:+ DQ
                   +:+ " ON " +:+ FullName (c_PrimaryTable c)
                   +:+ " (" +:+ ColumnsString (c_PrimaryColumns c) +:+ ");") buf in
  Fprintln EmptyString buf.

Definition uniqueIndexConstraintQuery (c : Constraint) (ver : float) (buf : Buffer)
  : Buffer :=
  let buf :=
    if PrimFloat.leb 9.5%float ver
    then Fprint ("CREATE UNIQUE INDEX IF NOT EXISTS " +:+ DQ +:+ ConstraintName c
                   +:+ DQ +:+ " ON " +:+ FullName (c_PrimaryTable c)
                   +:+ " (" +:+ ColumnsString (c_PrimaryColumns c) +:+ ")") buf
    else Fprint ("CREATE UNIQUE INDEX " +:+ DQ +:+ ConstraintName c
                   +:+ DQ +:+ " ON " +:+ FullName (c_PrimaryTable c)
                   +:+ " (" +:+ ColumnsString (c_PrimaryColumns c) +:+ ")") buf in
  let buf :=
    if nonempty (c_Where c) then Fprint (" WHERE " +:+ c_Where c) buf else buf in
  Fprint (";" +:+ LF) buf.

Definition generateConstraint (g : Generator) (c : Constraint) : emitter :=
  match c_Type c with
  | ConstraintTypeUnique => run (uniqueConstraintQuery c)
  | ConstraintTypePrimaryKey => run (primaryKeyConstraintQuery c)
  | ConstraintTypeForeignKey => foreignKeyConstraintQuery c
  | ConstraintTypeCheck => run (checkConstraintQuery c)
  | ConstraintTypeIndex => skip
  | ConstraintTypeUniqueIndex => skip
  | _ => fail ("unknown constraint type: " +:+ ConstraintTypeString (c_Type c))
  end.

Definition generateCreateFunction (g : Generator) (f : option Function) : emitter :=
  match f with
  | None => skip
  | Some f =>
      if negb (nonempty (f_Name f)) then fail "missing function name"
      else
        WriteString "CREATE OR REPLACE FUNCTION "
        >> WriteString (f_Name f)
        >> WriteString "("
        >> range_from 0 (f_Args f) (fun i arg =>
             when (negb (i =? 0)) (WriteString ", ")
             >> WriteString (arg_Name arg)
             >> WriteString " "
             >> WriteString (TypeString (arg_Type arg)))
        >> WriteString ") RETURNS "
        >> WriteString (TypeString (f_Type f))
        >> WriteString (LF +:+ TAB +:+ "AS '")
        >> WriteString (f_Body f)
        >> WriteString ("'" +:+ LF +:+ TAB +:+ "LANGUAGE SQL")
        >> match f_Behaviour f with
           | FunctionBehaviourVolatile => WriteString (LF +:+ TAB +:+ "VOLATILE")
           | FunctionBehaviourImmutable => WriteString (LF +:+ TAB +:+ "IMMUTABLE")
           | FunctionBehaviourStable => WriteString (LF +:+ TAB +:+ "STABLE")
           | FunctionBehaviourOther => skip
           end
        >> WriteString (";" +:+ LF +:+ LF)
  end.

(** The loop of [generateCreateTable] over [t.OwnedRelationships] that
    extends the working slice. *)
Fixpoint appendOwnerForeignKeys (rs : list Relationship) (w : working) : working :=
  match rs with
  | [] => w
  | r :: rs' =>
      if (length (r_OwnerColumns r) =? 1)%nat then appendOwnerForeignKeys rs' w
      else
        match r_OwnerForeignKey r with
        | Some fk => appendOwnerForeignKeys rs' (go_append w fk)
        | None => appendOwnerForeignKeys rs' w
        end
  end.

(** [constraints := t.Constraints] followed by that loop. *)
Definition workingSlice (t : Table) : working :=
  appendOwnerForeignKeys (t_OwnedRelationships t)
    {| w_array := t_Constraints t;
       w_elems := elems (t_Constraints t);
       w_shared := true |}.

(** The body of the loop over [t.Columns]; [n] is [len(t.Columns)]. *)
Definition columnLine (n nbOfConstraints : Z) (i : Z) (c : Column) : emitter :=
  if col_IsDynamic c then skip
  else
    WriteRune "009"
    >> WriteString (col_Name c)
    >> WriteRune " "
    >> WriteString (TypeString (col_Type c))
    >> when (nonempty (col_Collate c))
         (WriteRune " " >> WriteString (col_Collate c))
    >> match DefaultOn c EventInsert with
       | Some d => WriteString " DEFAULT " >> WriteString d
       | None => skip
       end
    >> when (col_NotNull c) (WriteString " NOT NULL")
    >> when ((i <? n - 1) || (0 <? nbOfConstraints)) (WriteRune ",")
    >> WriteRune "010".

(** The loop over the working slice; [i] counts the constraints written. *)
Fixpoint constraintLines (g : Generator) (nbOfConstraints : Z) (i : Z)
  (cs : list Constraint) : emitter :=
  match cs with
  | [] => skip
  | c :: cs' =>
      if isIndexType (c_Type c) then constraintLines g nbOfConstraints i cs'
      else
        WriteString TAB
        >> generateConstraint g c
        >> when (i <? nbOfConstraints - 1) (WriteRune ",")
        >> WriteRune "010"
        >> constraintLines g nbOfConstraints (i + 1) cs'
  end.

(** What [generateCreateTable] writes once the name and the columns have
    been checked, with [constraints] the working slice. *)
Definition createTableBody (g : Generator) (t : Table) (constraints : list Constraint)
  : emitter :=
  let nbOfConstraints :=
    CountOf constraints
      [ConstraintTypePrimaryKey; ConstraintTypeCheck; ConstraintTypeUnique;
       ConstraintTypeForeignKey; ConstraintTypeExclusion] in
  WriteString "CREATE "
  >> when (t_Temporary t) (WriteString "TEMPORARY ")
  >> WriteString "TABLE "
  >> when (t_IfNotExists t) (WriteString "IF NOT EXISTS ")
  >> match t_Schema t with
     | Some schemaName =>
         WriteString schemaName >> WriteRune "." >> WriteString (t_Name t)
     | None => WriteString (t_Name t)
     end
  >> WriteString (" (" +:+ LF)
  >> range_from 0 (t_Columns t)
       (columnLine (Z.of_nat (length (t_Columns t))) nbOfConstraints)
  >> when (0 <? nbOfConstraints) (WriteRune "010")
  >> constraintLines g nbOfConstraints 0 constraints
  >> WriteString (");" +:+ LF).

(** [generateCreateTable] returns the buffer, the table as the call leaves
    it in memory, and the error.  The working slice is built after the
    header is written and before the columns are; it does not touch the
    buffer, so it is taken first here. *)
Definition generateCreateTable (g : Generator) (buf : Buffer) (t : option Table)
  : Buffer * option Table * option error :=
  match t with
  | None => (buf, None, None)
  | Some t =>
      if negb (nonempty (t_Name t)) then (buf, Some t, Some "missing table name"%string)
      else if (length (t_Columns t) =? 0)%nat
      then (buf, Some t, Some ("table " +:+ t_Name t +:+ " has no columns"))
      else
        let w := workingSlice t in
        let '(buf', err) := createTableBody g t (w_elems w) buf in
        (buf', Some (set_Constraints t (w_array w)), err)
  end.

(** The inner loop of [generate] over [t.Constraints]. *)
Fixpoint indexStatements (ver : float) (cs : list Constraint) (code : Buffer)
  : Buffer :=
  match cs with
  | [] => code
  | cnstr :: cs' =>
      let code :=
        match c_Type cnstr with
        | ConstraintTypeIndex => indexConstraintQuery cnstr ver code
        | ConstraintTypeUniqueIndex => uniqueIndexConstraintQuery cnstr ver code
        | _ => code
        end in
      indexStatements ver cs' code
  end.

(** The loop of [generate] over [s.Tables].  It returns the tables as the
    loop leaves them, and the buffer with the error, unless [t.Constraints]
    is evaluated on a nil [t]. *)
Fixpoint generateTables (g : Generator) (ts : list (option Table)) (code : Buffer)
  : list (option Table) * go_result (Buffer * option error) :=
  match ts with
  | [] => ([], Returns (code, None))
  | t :: rest =>
      match generateCreateTable g code t with
      | (code, t', Some err) => (t' :: rest, Returns (code, Some err))
      | (code, None, None) => (None :: rest, Panics)
      | (code, Some t', None) =>
          let code := indexStatements (Version g) (elems (t_Constraints t')) code in
          let code := Fprintln EmptyString code in
          let '(rest', r) := generateTables g rest code in
          (Some t' :: rest', r)
      end
  end.

Definition banner : string := "-- do not modify, generated by pqt" +:+ LF +:+ LF.

(** [generate] returns [(nil, err)] or [(code, nil)]; the first component
    of the result is the schema as the call leaves it in memory. *)
Definition generate (g : Generator) (s : Schema)
  : Schema * go_result (option Buffer * option error) :=
  let code := banner in
  let code :=
    if nonempty (s_Name s)
    then
      let code := Fprint "CREATE SCHEMA " code in
      let code := if s_IfNotExists s then Fprint "IF NOT EXISTS " code else code in
      Fprint (s_Name s +:+ "; " +:+ LF +:+ LF) code
    else code in
  match range (s_Functions s) (generateCreateFunction g) code with
  | (_, Some err) => (s, Returns (None, Some err))
  | (code, None) =>
      match generateTables g (s_Tables s) code with
      | (ts, Returns (_, Some err)) => (set_Tables s ts, Returns (None, Some err))
      | (ts, Returns (code, None)) => (set_Tables s ts, Returns (Some code, None))
      | (ts, Panics) => (set_Tables s ts, Panics)
      end
  end.

(** [Generate]: the bytes of the buffer, or nil and the error. *)
Definition Generate (g : Generator) (s : Schema)
  : Schema * go_result (option string * option error) :=
  match generate g s with
  | (s', Returns (_, Some err)) => (s', Returns (None, Some err))
  | (s', Returns (Some code, None)) => (s', Returns (Some code, None))
  | (s', Returns (None, None)) => (s', Panics)
  | (s', Panics) => (s', Panics)
  end.

End Pqtsql.

(** ** Package gogen: entity fields and the criteria combinator *)

Inductive Mode : Type := ModeDefault | ModeMandatory | ModeOptional | ModeCriteria.

Record structField : Type := {
  Name : string;
  Type_ : string;
  Tags : string;
  ReadOnly : bool
}.

(** The helpers of the source generator whose code is not part of the
    sources at hand: [formatter.Public] on one argument, and the method
    [columnType] of the generator (which consults the generator's plugins
    and the column's type). *)
Class GogenLib : Type := {
  Public : string -> string;
  columnType : Column -> Mode -> string
}.

(** Modelled from the spec: the helper [or] is not in the sources; the
    specification gives the field name as the explicit override name if
    provided, else the default, so [or a b] is [a] unless [a] is empty. *)
Definition or (a b : string) : string := if nonempty a then a else b.

(** A channel is modelled by the sequence of values sent on it so far;
    [out <- x] appends. *)
Definition chan : Type := list structField.
Definition send (x : structField) (out : chan) : chan := out ++ [x].

(** [for _, x := range l { body }] in the producer. *)
Fixpoint each {A : Type} (l : list A) (body : A -> chan -> chan) (out : chan) : chan :=
  match l with
  | [] => out
  | x :: l' => each l' body (body x out)
  end.

Section Gogen.
Context `{GogenLib}.

Definition single (name typeOf : string) : structField :=
  {| Name := Public name;
     Type_ := "*" +:+ Public typeOf +:+ "Entity";
     Tags := EmptyString; ReadOnly := false |}.

Definition collection (name typeOf : string) : structField :=
  {| Name := Public name;
     Type_ := "[]*" +:+ Public typeOf +:+ "Entity";
     Tags := EmptyString; ReadOnly := false |}.

(** The values the goroutine of [entityPropertiesGenerator] sends before it
    closes the channel, in the order it sends them. *)
Definition entityPropertiesGenerator (t : Table) : chan :=
  let out : chan := [] in
  let out :=
    each (t_Columns t) (fun c out =>
      let ty := columnType c ModeDefault in
      if negb (String.eqb ty "<nil>")
      then send {| Name := Public (col_Name c); Type_ := ty;
                   Tags := EmptyString; ReadOnly := col_IsDynamic c |} out
      else out) out in
  let out :=
    each (t_OwnedRelationships t) (fun r out =>
      match r_Type r with
      | RelationshipTypeOneToMany =>
          send (collection (or (r_InversedName r) (ref_Name (r_InversedTable r) +:+ "s"))
                  (ref_Name (r_InversedTable r))) out
      | RelationshipTypeOneToOne =>
          send (single (or (r_InversedName r) (ref_Name (r_InversedTable r)))
                  (ref_Name (r_InversedTable r))) out
      | RelationshipTypeManyToOne =>
          send (single (or (r_InversedName r) (ref_Name (r_InversedTable r)))
                  (ref_Name (r_InversedTable r))) out
      | _ => out
      end) out in
  let out :=
    each (t_InversedRelationships t) (fun r out =>
      match r_Type r with
      | RelationshipTypeOneToMany =>
          send (single (or (r_OwnerName r) (ref_Name (r_OwnerTable r)))
                  (ref_Name (r_OwnerTable r))) out
      | RelationshipTypeOneToOne =>
          send (single (or (r_OwnerName r) (ref_Name (r_OwnerTable r)))
                  (ref_Name (r_OwnerTable r))) out
      | RelationshipTypeManyToOne =>
          send (collection (or (r_OwnerName r) (ref_Name (r_OwnerTable r) +:+ "s"))
                  (ref_Name (r_OwnerTable r))) out
      | _ => out
      end) out in
  let out :=
    each (t_ManyToManyRelationships t) (fun r out =>
      match r_Type r with
      | RelationshipTypeManyToMany =>
          if Pos.eqb (ref_addr (r_OwnerTable r)) (t_addr t)
          then send (collection (or (r_InversedName r) (ref_Name (r_InversedTable r) +:+ "s"))
                       (ref_Name (r_InversedTable r))) out
          else if Pos.eqb (ref_addr (r_InversedTable r)) (t_addr t)
          then send (collection (or (r_OwnerName r) (ref_Name (r_OwnerTable r) +:+ "s"))
                       (ref_Name (r_OwnerTable r))) out
          else out
      | _ => out
      end) out in
  out.

End Gogen.

(** *** The goroutine, the channel and the consumer

    [entityPropertiesGenerator] starts a goroutine that sends the fields on
    an unbuffered channel and closes it; [Entity] receives with [range] and
    prints each field.  The two run concurrently: the state below has the
    fields the producer has yet to send, the value it is blocked on, the
    values the consumer has received, whether the consumer is inside its
    loop body, and whether the channel is closed. *)
Module Channel.

Record state : Type := {
  todo : list structField;
  offered : option structField;
  received : list structField;
  busy : bool;
  closed : bool
}.

Definition init (fields : list structField) : state :=
  {| todo := fields; offered := None; received := []; busy := false; closed := false |}.

Inductive step : state -> state -> Prop :=
| step_offer x rest got b :
    (* the producer reaches [out <- x] and blocks *)
    step {| todo := x :: rest; offered := None; received := got; busy := b; closed := false |}
         {| todo := rest; offered := Some x; received := got; busy := b; closed := false |}
| step_take x rest got :
    (* the consumer, at the head of its loop, receives [x] *)
    step {| todo := rest; offered := Some x; received := got; busy := false; closed := false |}
         {| todo := rest; offered := None; received := got ++ [x]; busy := true; closed := false |}
| step_body rest o got cl :
    (* the consumer finishes the body of its loop *)
    step {| todo := rest; offered := o; received := got; busy := true; closed := cl |}
         {| todo := rest; offered := o; received := got; busy := false; closed := cl |}
| step_close got b :
    (* the producer reaches [close(out)] *)
    step {| todo := []; offered := None; received := got; busy := b; closed := false |}
         {| todo := []; offered := None; received := got; busy := b; closed := true |}.

(** The consumer's [range] loop has ended. *)
Definition finished (st : state) : Prop :=
  closed st = true /\ busy st = false /\ offered st = None /\ todo st = [].

Inductive steps : state -> state -> Prop :=
| steps_refl st : steps st st
| steps_cons st1 st2 st3 : step st1 st2 -> steps st2 st3 -> steps st1 st3.

(** What has been received, what is on offer and what is yet to be sent
    make up the fields, in this order, at every moment. *)
Definition inv (fields : list structField) (st : state) : Prop :=
  received st ++ (match offered st with Some x => [x] | None => [] end) ++ todo st
  = fields.

(** A run of [n] steps. *)
Inductive run : nat -> state -> state -> Prop :=
| run_done st : run 0 st st
| run_step n st1 st2 st3 : step st1 st2 -> run n st2 st3 -> run (S n) st1 st3.

(** The number of steps a state is away from the end: three for a field
    yet to be sent, two for a field on offer, one for a loop body to finish
    and one for the channel to be closed. *)
Definition remaining (st : state) : nat :=
  3 * length (todo st)
  + (match offered st with Some _ => 2 | None => 0 end)
  + (if busy st then 1 else 0)
  + (if closed st then 0 else 1).

(** A closed channel has nothing left to deliver. *)
Definition drained (st : state) : Prop :=
  closed st = true -> todo st = [] /\ offered st = None.

End Channel.

(** *** The criteria combinator

    [Operand] is code the generator prints for every table; the criteria
    nodes it links live in memory and are shared, so they are modelled by
    a heap.  The per-column operands of a node are [filters]; the
    constructor does not touch them. *)
Module Criteria.
Section WithFilters.
Variable Filters : Type.
Variable noFilters : Filters.

Definition loc : Type := positive.

Record node : Type := {
  filters : Filters;
  operator : string;
  child : option loc;
  sibling : option loc;
  parent : option loc
}.

Definition set_sibling (p : option loc) (n : node) : node :=
  {| filters := filters n; operator := operator n; child := child n;
     sibling := p; parent := parent n |}.

Definition set_parent (p : option loc) (n : node) : node :=
  {| filters := filters n; operator := operator n; child := child n;
     sibling := sibling n; parent := p |}.

(** [ptr.field = v]: a nil pointer panics. *)
Definition assign (ptr : option loc) (upd : node -> node) (h : gmap loc node)
  : go_result (gmap loc node) :=
  match ptr with
  | None => Panics
  | Some l =>
      match h !! l with
      | None => Panics
      | Some n => Returns (<[l := upd n]> h)
      end
  end.

(** [for i := ...; i < len(operands); i++ { ... }] with [n] iterations left. *)
Fixpoint linkOperands (parentPtr : loc) (operands : list (option loc)) (n i : nat)
  (h : gmap loc node) : go_result (gmap loc node) :=
  match n with
  | O => Returns h
  | S n' =>
      match operands !! i with
      | None => Panics
      | Some op =>
          let r :=
            if (i <? length operands - 1)%nat
            then match operands !! S i with
                 | None => Panics
                 | Some next => assign op (set_sibling next) h
                 end
            else Returns h in
          match r with
          | Panics => Panics
          | Returns h =>
              match assign op (set_parent (Some parentPtr)) h with
              | Panics => Panics
              | Returns h => linkOperands parentPtr operands n' (S i) h
              end
          end
      end
  end.

(** [&Criteria{...}]: a new node at an address not in use. *)
Definition alloc (n : node) (h : gmap loc node) : gmap loc node * loc :=
  let l := fresh (dom h) in (<[l := n]> h, l).

Definition Operand (op : string) (operands : list (option loc)) (h : gmap loc node)
  : go_result (gmap loc node * loc) :=
  match operands with
  | [] =>
      Returns (alloc {| filters := noFilters; operator := op; child := None;
                        sibling := None; parent := None |} h)
  | first :: _ =>
      let '(h, parentPtr) :=
        alloc {| filters := noFilters; operator := op; child := first;
                 sibling := None; parent := None |} h in
      match linkOperands parentPtr operands (length operands) 0 h with
      | Panics => Panics
      | Returns h => Returns (h, parentPtr)
      end
  end.

(** The node at index [i] of [n] operands after the loop: its sibling is
    the next operand unless it is the last, its parent is the new node. *)
Definition linked (parentPtr : loc) (ls : list loc) (i : nat) (nd : node) : node :=
  {| filters := filters nd; operator := operator nd; child := child nd;
     sibling := if (i <? length ls - 1)%nat then ls !! S i else sibling nd;
     parent := Some parentPtr |}.

(** A node keeps its operator, its child and its filters. *)
Definition kept (nd nd' : node) : Prop :=
  operator nd' = operator nd /\ child nd' = child nd
  /\ filters nd' = filters nd.

Definition And (operands : list (option loc)) := Operand "AND" operands.
Definition Or (operands : list (option loc)) := Operand "OR" operands.

End WithFilters.
End Criteria.

(** ** What an emitter writes *)

(** The text of an emitter run on the empty buffer, and its error. *)
Definition text (e : emitter) : string := (e EmptyString).1.
Definition err (e : emitter) : option error := (e EmptyString).2.

(** An emitter only appends: what it does to a buffer is what it does to
    the empty buffer, placed after the text that was there. *)
Definition appends (e : emitter) : Prop :=
  forall buf, e buf = (buf +:+ text e, err e).

(** An emitter that succeeds and writes [s]. *)
Definition writes (e : emitter) (s : string) : Prop :=
  forall buf, e buf = (buf +:+ s, None).

(** ** The output as the specification describes it

    These definitions follow the words of the specification; the theorems
    compare them with what the emitters above write. *)

(** The keyword of a referential action, if the action is one of the four. *)
Definition actionKeyword (a : Action) : option string :=
  match a with
  | Cascade => Some "CASCADE"%string
  | Restrict => Some "RESTRICT"%string
  | SetNull => Some "SET NULL"%string
  | SetDefault => Some "SET DEFAULT"%string
  | NoAction => None
  end.

(** [" ON DELETE <action>"] or [" ON UPDATE <action>"], or nothing. *)
Definition actionClause (event : string) (a : Action) : string :=
  match actionKeyword a with
  | Some k => " ON " +:+ event +:+ " " +:+ k
  | None => EmptyString
  end.

(** The existence guard of a standalone index statement. *)
Definition existenceGuard (ver : float) : string :=
  if PrimFloat.leb 9.5%float ver then "IF NOT EXISTS "%string else EmptyString.

(** The partial-index predicate of a unique index. *)
Definition whereClause (c : Constraint) : string :=
  if nonempty (c_Where c) then " WHERE " +:+ c_Where c else EmptyString.

(** The foreign keys of the owned relationships that do not have exactly
    one owner column, in the order of the relationships. *)
Fixpoint ownerForeignKeys (rs : list Relationship) : list Constraint :=
  match rs with
  | [] => []
  | r :: rs' =>
      match r_OwnerForeignKey r with
      | Some fk =>
          if (length (r_OwnerColumns r) =? 1)%nat then ownerForeignKeys rs'
          else fk :: ownerForeignKeys rs'
      | None => ownerForeignKeys rs'
      end
  end.

(** The same with the condition in the words of the specification: the
    relationship has more than one owner column. *)
Fixpoint compositeForeignKeys (rs : list Relationship) : list Constraint :=
  match rs with
  | [] => []
  | r :: rs' =>
      match r_OwnerForeignKey r with
      | Some fk =>
          if (1 <? length (r_OwnerColumns r))%nat then fk :: compositeForeignKeys rs'
          else compositeForeignKeys rs'
      | None => compositeForeignKeys rs'
      end
  end.

(** Two tables that differ at most in what the cells of the constraint
    array above [len] hold: nothing that can be read through the model. *)
Definition sameModel (t t' : Table) : Prop :=
  exists cs,
    t' = set_Constraints t cs
    /\ elems cs = elems (t_Constraints t)
    /\ length (spare cs) = length (spare (t_Constraints t)).



Section Layout.
Context `{PqtLib}.

Definition foreignKeyText (c : Constraint) (tbl : TableRef) : string :=
  "CONSTRAINT " +:+ DQ +:+ ConstraintName c +:+ DQ
  +:+ " FOREIGN KEY (" +:+ JoinColumns (c_PrimaryColumns c) ", "
  +:+ ") REFERENCES " +:+ FullName tbl
  +:+ " (" +:+ JoinColumns (c_Columns c) ", " +:+ ")"
  +:+ actionClause "DELETE" (c_OnDelete c)
  +:+ actionClause "UPDATE" (c_OnUpdate c).

(** [CREATE INDEX [IF NOT EXISTS] "<name>" ON <table> (<cols>);] *)
Definition indexStatement (ver : float) (c : Constraint) : string :=
  "CREATE INDEX " +:+ existenceGuard ver +:+ DQ +:+ ConstraintName c +:+ DQ
  +:+ " ON " +:+ FullName (c_PrimaryTable c)
  +:+ " (" +:+ ColumnsString (c_PrimaryColumns c) +:+ ");" +:+ LF.

(** [CREATE UNIQUE INDEX [IF NOT EXISTS] "<name>" ON <table> (<cols>)[ WHERE <predicate>];] *)
Definition uniqueIndexStatement (ver : float) (c : Constraint) : string :=
  "CREATE UNIQUE INDEX " +:+ existenceGuard ver +:+ DQ +:+ ConstraintName c +:+ DQ
  +:+ " ON " +:+ FullName (c_PrimaryTable c)
  +:+ " (" +:+ ColumnsString (c_PrimaryColumns c) +:+ ")"
  +:+ whereClause c +:+ ";" +:+ LF.

(** The standalone statement of a constraint; nothing for an inline one. *)
Definition standaloneStatement (ver : float) (c : Constraint) : string :=
  match c_Type c with
  | ConstraintTypeIndex => indexStatement ver c
  | ConstraintTypeUniqueIndex => uniqueIndexStatement ver c
  | _ => EmptyString
  end.

(** [CREATE SCHEMA [IF NOT EXISTS] <name>;], present when the schema has a
    name. *)
Definition createSchemaStatement (s : Schema) : string :=
  if nonempty (s_Name s)
  then "CREATE SCHEMA "
       +:+ (if s_IfNotExists s then "IF NOT EXISTS "%string else EmptyString)
       +:+ s_Name s +:+ "; " +:+ LF +:+ LF
  else EmptyString.

Definition argumentList (args : list FunctionArg) : string :=
  join ", " (map (fun a => arg_Name a +:+ " " +:+ TypeString (arg_Type a)) args).

Definition behaviourClause (b : FunctionBehaviour) : string :=
  match b with
  | FunctionBehaviourVolatile => LF +:+ TAB +:+ "VOLATILE"
  | FunctionBehaviourImmutable => LF +:+ TAB +:+ "IMMUTABLE"
  | FunctionBehaviourStable => LF +:+ TAB +:+ "STABLE"
  | FunctionBehaviourOther => EmptyString
  end.

(** The [CREATE OR REPLACE FUNCTION] block of an entry of [s.Functions]. *)
Definition functionBlock (f : option Function) : string :=
  match f with
  | None => EmptyString
  | Some f =>
      "CREATE OR REPLACE FUNCTION " +:+ f_Name f +:+ "(" +:+ argumentList (f_Args f)
      +:+ ") RETURNS " +:+ TypeString (f_Type f)
      +:+ LF +:+ TAB +:+ "AS '" +:+ f_Body f +:+ "'" +:+ LF +:+ TAB +:+ "LANGUAGE SQL"
      +:+ behaviourClause (f_Behaviour f) +:+ ";" +:+ LF +:+ LF
  end.

Definition qualifiedName (t : Table) : string :=
  match t_Schema t with
  | Some schemaName => schemaName +:+ "." +:+ t_Name t
  | None => t_Name t
  end.

Definition tableHeader (t : Table) : string :=
  "CREATE " +:+ (if t_Temporary t then "TEMPORARY "%string else EmptyString)
  +:+ "TABLE " +:+ (if t_IfNotExists t then "IF NOT EXISTS "%string else EmptyString)
  +:+ qualifiedName t +:+ " (" +:+ LF.

(** The number of inline constraints of a table's pass. *)
Definition inlineCount (t : Table) : Z :=
  CountOf (w_elems (workingSlice t))
    [ConstraintTypePrimaryKey; ConstraintTypeCheck; ConstraintTypeUnique;
     ConstraintTypeForeignKey; ConstraintTypeExclusion].

(** [name type [collation] [DEFAULT expr] [NOT NULL]] *)
Definition columnText (c : Column) : string :=
  col_Name c +:+ " " +:+ TypeString (col_Type c)
  +:+ (if nonempty (col_Collate c) then " " +:+ col_Collate c else EmptyString)
  +:+ match DefaultOn c EventInsert with
      | Some d => " DEFAULT " +:+ d
      | None => EmptyString
      end
  +:+ (if col_NotNull c then " NOT NULL"%string else EmptyString).

(** The line of the column declared at index [i] of [n], with [nb] inline
    constraints to follow: nothing for a dynamic column, else the column
    with a comma when [i < n - 1] or [nb > 0]. *)
Definition columnLineText (n nb : Z) (i : Z) (c : Column) : string :=
  if col_IsDynamic c then EmptyString
  else TAB +:+ columnText c
       +:+ (if (i <? n - 1) || (0 <? nb) then ","%string else EmptyString) +:+ LF.

(** The texts of the elements of a list, each with its index from [i]. *)
Fixpoint concat_from {A : Type} (i : Z) (l : list A) (txt : Z -> A -> string)
  : string :=
  match l with
  | [] => EmptyString
  | x :: l' => txt i x +:+ concat_from (i + 1) l' txt
  end.

Definition columnLines (t : Table) : string :=
  concat_from 0 (t_Columns t)
    (columnLineText (Z.of_nat (length (t_Columns t))) (inlineCount t)).

(** An inline constraint. *)
Definition constraintText (c : Constraint) : string :=
  match c_Type c with
  | ConstraintTypeUnique =>
      "CONSTRAINT " +:+ DQ +:+ ConstraintName c +:+ DQ +:+ " UNIQUE ("
      +:+ JoinColumns (c_PrimaryColumns c) ", " +:+ ")"
  | ConstraintTypePrimaryKey =>
      "CONSTRAINT " +:+ DQ +:+ ConstraintName c +:+ DQ +:+ " PRIMARY KEY ("
      +:+ JoinColumns (c_PrimaryColumns c) ", " +:+ ")"
  | ConstraintTypeForeignKey =>
      match c_Table c with
      | Some tbl => foreignKeyText c tbl
      | None => EmptyString
      end
  | ConstraintTypeCheck =>
      "CONSTRAINT " +:+ DQ +:+ ConstraintName c +:+ DQ +:+ " CHECK ("
      +:+ c_Check c +:+ ")"
  | _ => EmptyString
  end.

(** The inline constraints among [cs], one per line; [i] lines precede
    and a line gets a comma when fewer than [nb - 1] do. *)
Fixpoint constraintLinesText (nb i : Z) (cs : list Constraint) : string :=
  match cs with
  | [] => EmptyString
  | c :: cs' =>
      if isIndexType (c_Type c) then constraintLinesText nb i cs'
      else TAB +:+ constraintText c
           +:+ (if i <? nb - 1 then ","%string else EmptyString) +:+ LF
           +:+ constraintLinesText nb (i + 1) cs'
  end.

Definition inlineConstraintLines (t : Table) : string :=
  constraintLinesText (inlineCount t) 0 (w_elems (workingSlice t)).

(** The [CREATE TABLE] block: header, column lines, a blank line when
    inline constraints follow, the inline constraints, and [);]. *)
Definition tableBlock (t : Table) : string :=
  tableHeader t +:+ columnLines t
  +:+ (if 0 <? inlineCount t then LF else EmptyString)
  +:+ inlineConstraintLines t +:+ ");" +:+ LF.

(** The column lines in the words of the specification: the columns that
    are not dynamic, a comma after each but the last, and after the last
    when an inline constraint follows. *)
Fixpoint joinColumnLines (nb : Z) (cols : list Column) : string :=
  match cols with
  | [] => EmptyString
  | [c] =>
      TAB +:+ columnText c +:+ (if 0 <? nb then ","%string else EmptyString) +:+ LF
  | c :: cols' => TAB +:+ columnText c +:+ "," +:+ LF +:+ joinColumnLines nb cols'
  end.

(** The inline constraint lines in the words of the specification: a
    comma after each but the last. *)
Fixpoint joinConstraintLines (cs : list Constraint) : string :=
  match cs with
  | [] => EmptyString
  | [c] => TAB +:+ constraintText c +:+ LF
  | c :: cs' => TAB +:+ constraintText c +:+ "," +:+ LF +:+ joinConstraintLines cs'
  end.

Definition physicalColumns (t : Table) : list Column :=
  List.filter (fun c => negb (col_IsDynamic c)) (t_Columns t).

Definition inlineConstraints (cs : list Constraint) : list Constraint :=
  List.filter (fun c => negb (isIndexType (c_Type c))) cs.

Definition tableBlockAsSpecified (t : Table) : string :=
  tableHeader t
  +:+ joinColumnLines (inlineCount t) (physicalColumns t)
  +:+ (if 0 <? inlineCount t then LF else EmptyString)
  +:+ joinConstraintLines (inlineConstraints (w_elems (workingSlice t)))
  +:+ ");" +:+ LF.

(** A table's section of the output: its block, its standalone index
    statements in the order of its constraints, and a blank line. *)
Definition tableSection (g : Generator) (t : option Table) : string :=
  match t with
  | Some t =>
      tableBlock t
      +:+ concat_strings (map (standaloneStatement (Version g)) (elems (t_Constraints t)))
      +:+ LF
  | None => EmptyString
  end.

(** The whole output, in the order the specification gives. *)
Definition ddlLayout (g : Generator) (s : Schema) : string :=
  banner +:+ createSchemaStatement s
  +:+ concat_strings (map functionBlock (s_Functions s))
  +:+ concat_strings (map (tableSection g) (s_Tables s)).

(** What the emitter needs of a schema to reach the end. *)
Definition renderable (c : Constraint) : bool :=
  match c_Type c with
  | ConstraintTypeUnique | ConstraintTypePrimaryKey | ConstraintTypeCheck
  | ConstraintTypeIndex | ConstraintTypeUniqueIndex => true
  | ConstraintTypeForeignKey =>
      match c_PrimaryColumns c, c_Columns c, c_Table c with
      | _ :: _, _ :: _, Some _ => true
      | _, _, _ => false
      end
  | ConstraintTypeExclusion | ConstraintTypeOther _ => false
  end.

Definition tableOk (t : Table) : bool :=
  nonempty (t_Name t)
  && negb (length (t_Columns t) =? 0)%nat
  && forallb renderable (w_elems (workingSlice t)).

Definition functionOk (f : option Function) : bool :=
  match f with
  | None => true
  | Some f => nonempty (f_Name f)
  end.

Definition tableEntryOk (t : option Table) : bool :=
  match t with
  | Some t => tableOk t
  | None => false
  end.

Definition schemaOk (s : Schema) : bool :=
  forallb functionOk (s_Functions s) && forallb tableEntryOk (s_Tables s).

(** The faults the specification lists for a table and for a schema: a
    missing table name, no columns, a constraint of the pass whose type is
    none of the seven known ones; a function without a name. *)
Definition tableFault (t : Table) : Prop :=
  t_Name t = EmptyString
  \/ t_Columns t = []
  \/ Exists (fun c => exists tag, c_Type c = ConstraintTypeOther tag)
       (w_elems (workingSlice t)).

Definition schemaFault (s : Schema) : Prop :=
  Exists (fun f => exists f0, f = Some f0 /\ f_Name f0 = EmptyString) (s_Functions s)
  \/ Exists (fun t => exists t0, t = Some t0 /\ tableFault t0) (s_Tables s).

(** The errors the emitter returns: each names what is missing. *)
Inductive describedError : error -> Prop :=
| missing_function_name : describedError "missing function name"
| missing_table_name : describedError "missing table name"
| table_without_columns name :
    describedError ("table " +:+ name +:+ " has no columns")
| unknown_constraint_type ty :
    describedError ("unknown constraint type: " +:+ ConstraintTypeString ty)
| foreign_key_without_column :
    describedError "foreign key constraint require at least one column"
| foreign_key_without_reference_column :
    describedError "foreign key constraint require at least one reference column"
| foreign_key_without_table :
    describedError "foreiqn key constraint missing reference table".

End Layout.

(** ** The entity fields as the specification describes them *)

(** [l] without its [None]s. *)
Fixpoint present {A B : Type} (f : A -> option B) (l : list A) : list B :=
  match l with
  | [] => []
  | x :: l' =>
      match f x with
      | Some y => y :: present f l'
      | None => present f l'
      end
  end.

Section EntityLayout.
Context `{GogenLib}.

(** The field of a column, whatever its type. *)
Definition columnFieldOf (c : Column) : structField :=
  {| Name := Public (col_Name c); Type_ := columnType c ModeDefault;
     Tags := EmptyString; ReadOnly := col_IsDynamic c |}.

(** The field of a column, if its type has a representation. *)
Definition columnField (c : Column) : option structField :=
  if String.eqb (columnType c ModeDefault) "<nil>" then None
  else Some (columnFieldOf c).

(** The field of a relationship on the entity of its owner table. *)
Definition ownedField (r : Relationship) : option structField :=
  let other := ref_Name (r_InversedTable r) in
  match r_Type r with
  | RelationshipTypeOneToMany =>
      Some (collection (or (r_InversedName r) (other +:+ "s")) other)
  | RelationshipTypeOneToOne | RelationshipTypeManyToOne =>
      Some (single (or (r_InversedName r) other) other)
  | _ => None
  end.

(** The field of a relationship on the entity of its inversed table. *)
Definition inversedField (r : Relationship) : option structField :=
  let other := ref_Name (r_OwnerTable r) in
  match r_Type r with
  | RelationshipTypeOneToMany | RelationshipTypeOneToOne =>
      Some (single (or (r_OwnerName r) other) other)
  | RelationshipTypeManyToOne =>
      Some (collection (or (r_OwnerName r) (other +:+ "s")) other)
  | _ => None
  end.

(** The field of a many-to-many relationship on the entity of [t]. *)
Definition manyToManyField (t : Table) (r : Relationship) : option structField :=
  match r_Type r with
  | RelationshipTypeManyToMany =>
      if Pos.eqb (ref_addr (r_OwnerTable r)) (t_addr t)
      then Some (collection (or (r_InversedName r) (ref_Name (r_InversedTable r) +:+ "s"))
                   (ref_Name (r_InversedTable r)))
      else if Pos.eqb (ref_addr (r_InversedTable r)) (t_addr t)
      then Some (collection (or (r_OwnerName r) (ref_Name (r_OwnerTable r) +:+ "s"))
                   (ref_Name (r_OwnerTable r)))
      else None
  | _ => None
  end.

Definition relationshipFields (t : Table) : list structField :=
  present ownedField (t_OwnedRelationships t)
  ++ present inversedField (t_InversedRelationships t)
  ++ present (manyToManyField t) (t_ManyToManyRelationships t).

(** Columns first, then owned, inversed and many-to-many relationships. *)
Definition entityFields (t : Table) : list structField :=
  present columnField (t_Columns t) ++ relationshipFields t.

(** The same with one field per column, as the specification words it. *)
Definition entityFieldsPerColumn (t : Table) : list structField :=
  map columnFieldOf (t_Columns t) ++ relationshipFields t.

End EntityLayout.

(** ** Concrete inputs

    A stand-in for the helpers of package pqt, used to run the emitters on
    concrete schemas.  No general theorem below depends on it. *)
Module Sample.

Definition typeSuffix (ty : ConstraintType) : string :=
  match ty with
  | ConstraintTypePrimaryKey => "pkey"
  | ConstraintTypeCheck => "check"
  | ConstraintTypeUnique => "key"
  | ConstraintTypeIndex => "idx"
  | ConstraintTypeForeignKey => "fkey"
  | ConstraintTypeExclusion => "excl"
  | ConstraintTypeUniqueIndex => "uidx"
  | ConstraintTypeOther tag => tag
  end.

Definition fullName (r : TableRef) : string :=
  match ref_SchemaName r with
  | Some (String a s) => String a s +:+ "." +:+ ref_Name r
  | _ => ref_Name r
  end.

#[export] Instance lib : PqtLib := {|
  DefaultOn := fun c e =>
    match e with
    | EventInsert => if String.eqb (col_Name c) "created_at" then Some "NOW()"%string else None
    | EventUpdate => None
    end;
  ConstraintName := fun c =>
    ref_Name (c_PrimaryTable c) +:+ "_"
    +:+ join "_" (map col_Name (c_PrimaryColumns c)) +:+ "_" +:+ typeSuffix (c_Type c);
  FullName := fullName;
  JoinColumns := fun cols sep => join sep (map col_Name cols);
  ColumnsString := fun cols => join ", " (map col_Name cols);
  ConstraintTypeString := typeSuffix
|}.

Definition column (name ty : string) (dynamic : bool) : Column :=
  {| col_Name := name; col_Type := {| TypeString := ty |};
     col_Collate := EmptyString; col_NotNull := false;
     col_IsDynamic := dynamic; col_PrimaryKey := false |}.

Definition ref (addr : positive) (name : string) : TableRef :=
  {| ref_addr := addr; ref_Name := name; ref_SchemaName := None |}.

Definition constraint (ty : ConstraintType) (owner : TableRef) (cols : list Column)
  : Constraint :=
  {| c_Type := ty; c_Where := EmptyString; c_Check := EmptyString;
     c_PrimaryTable := owner; c_Table := None;
     c_PrimaryColumns := cols; c_Columns := [];
     c_OnDelete := NoAction; c_OnUpdate := NoAction |}.

Definition table (addr : positive) (name : string) (cols : list Column)
  (cs : list Constraint) : Table :=
  {| t_addr := addr; t_Name := name; t_Schema := None;
     t_Temporary := false; t_IfNotExists := false;
     t_Columns := cols;
     t_Constraints := {| elems := cs; spare := [] |};
     t_OwnedRelationships := []; t_InversedRelationships := [];
     t_ManyToManyRelationships := [] |}.

Definition schema (name : string) (ts : list (option Table))
  (fs : list (option Function)) : Schema :=
  {| s_Name := name; s_IfNotExists := false; s_Tables := ts; s_Functions := fs |}.

(** 9.4 has no exact binary64 value; this is the one Go uses for it. *)
Definition pg94 : Generator := {| Version := 0x1.2cccccccccccdp+3%float |}.
Definition pg95 : Generator := {| Version := 9.5%float |}.

(** A stand-in for the helpers of the source generator: [Public] is the
    identity, and a column whose SQL type is [CUSTOM] has no
    representation, as a custom type without a Go type for the mode. *)
#[export] Instance gogenLib : GogenLib := {|
  Public := fun name => name;
  columnType := fun c mode =>
    if String.eqb (TypeString (col_Type c)) "CUSTOM" then "<nil>"%string
    else if String.eqb (TypeString (col_Type c)) "TEXT" then "string"%string
    else "int64"%string
|}.

Definition relationship (ty : RelationshipType) (owner inversed : TableRef)
  (ownerCols : list Column) (fk : option Constraint) : Relationship :=
  {| r_Type := ty; r_OwnerName := EmptyString; r_InversedName := EmptyString;
     r_OwnerTable := owner; r_InversedTable := inversed;
     r_OwnerColumns := ownerCols; r_OwnerForeignKey := fk |}.

Definition with_owned (t : Table) (rs : list Relationship) : Table :=
  {| t_addr := t_addr t; t_Name := t_Name t; t_Schema := t_Schema t;
     t_Temporary := t_Temporary t; t_IfNotExists := t_IfNotExists t;
     t_Columns := t_Columns t; t_Constraints := t_Constraints t;
     t_OwnedRelationships := rs;
     t_InversedRelationships := t_InversedRelationships t;
     t_ManyToManyRelationships := t_ManyToManyRelationships t |}.

Definition with_inversed (t : Table) (rs : list Relationship) : Table :=
  {| t_addr := t_addr t; t_Name := t_Name t; t_Schema := t_Schema t;
     t_Temporary := t_Temporary t; t_IfNotExists := t_IfNotExists t;
     t_Columns := t_Columns t; t_Constraints := t_Constraints t;
     t_OwnedRelationships := t_OwnedRelationships t;
     t_InversedRelationships := rs;
     t_ManyToManyRelationships := t_ManyToManyRelationships t |}.

(** The tables of the examples. *)
Definition idColumn : Column := column "id" "BIGSERIAL" false.
Definition nameColumn : Column := column "name" "TEXT" false.
Definition booksColumn : Column := column "nb_books" "BIGINT" true.
Definition customColumn : Column := column "payload" "CUSTOM" false.
Definition authorIdColumn : Column := column "author_id" "BIGINT" false.
Definition editionColumn : Column := column "edition" "BIGINT" false.

Definition authorRef : TableRef := ref 1 "author".
Definition bookRef : TableRef := ref 2 "book".

(** A partial unique index. *)
Definition nameUniqueIndex : Constraint :=
  {| c_Type := ConstraintTypeUniqueIndex; c_Where := "name <> 'anonymous'";
     c_Check := EmptyString; c_PrimaryTable := authorRef; c_Table := None;
     c_PrimaryColumns := [nameColumn]; c_Columns := [];
     c_OnDelete := NoAction; c_OnUpdate := NoAction |}.

Definition author : Table :=
  table 1 "author" [idColumn; nameColumn; booksColumn]
    [constraint ConstraintTypePrimaryKey authorRef [idColumn];
     constraint ConstraintTypeIndex authorRef [nameColumn];
     nameUniqueIndex;
     constraint ConstraintTypeUnique authorRef [nameColumn]].

(** A table whose last declared column is dynamic and which has no inline
    constraint. *)
Definition authorDynamicLast : Table :=
  table 1 "author" [idColumn; booksColumn] [].

(** A table with a column whose type has no representation. *)
Definition authorCustom : Table := table 1 "author" [idColumn; customColumn] [].

(** A foreign key from book to author. *)
Definition bookAuthorKey : Constraint :=
  {| c_Type := ConstraintTypeForeignKey; c_Where := EmptyString;
     c_Check := EmptyString; c_PrimaryTable := bookRef; c_Table := Some authorRef;
     c_PrimaryColumns := [authorIdColumn; editionColumn];
     c_Columns := [idColumn; editionColumn];
     c_OnDelete := Cascade; c_OnUpdate := SetNull |}.

(** A book owns a relationship with two owner columns, and its constraint
    slice has room for one more element. *)
Definition book : Table :=
  {| t_addr := 2; t_Name := "book"; t_Schema := None;
     t_Temporary := false; t_IfNotExists := false;
     t_Columns := [idColumn; authorIdColumn; editionColumn];
     t_Constraints :=
       {| elems := [constraint ConstraintTypePrimaryKey bookRef [idColumn]];
          spare := [None] |};
     t_OwnedRelationships :=
       [relationship RelationshipTypeManyToOne bookRef authorRef
          [authorIdColumn; editionColumn] (Some bookAuthorKey)];
     t_InversedRelationships := [];
     t_ManyToManyRelationships := [] |}.

(** A relationship without owner columns that carries a foreign key. *)
Definition bookDetached : Table :=
  with_owned (table 2 "book" [idColumn] [])
    [relationship RelationshipTypeManyToOne bookRef authorRef [] (Some bookAuthorKey)].

Definition library : Schema := schema "library" [Some author; Some book] [].
Definition unnamed : Schema := schema EmptyString [] [].
Definition withNilTable : Schema := schema "library" [None; Some author] [None].
Definition withEmptyTable : Schema :=
  schema "library" [Some author; Some (table 3 "shelf" [] [])] [].

(** Three leaf criteria nodes. *)
Definition leaf : Criteria.node unit :=
  {| Criteria.filters := tt; Criteria.operator := EmptyString;
     Criteria.child := None; Criteria.sibling := None; Criteria.parent := None |}.

Definition threeLeaves : gmap Criteria.loc (Criteria.node unit) :=
  <[1%positive := leaf]> (<[2%positive := leaf]> (<[3%positive := leaf]> ∅)).

End Sample.

(** ** Further definitions

    What the further properties need: the fault of a constraint
    and of a table, tables without their index constraints, and
    [GenerateTo]. *)

Section MoreLayout.
Context `{PqtLib}.

(** The error [generateConstraint] returns for a constraint, if any. *)
Definition constraintFault (c : Constraint) : option error :=
  match c_Type c with
  | ConstraintTypeUnique | ConstraintTypePrimaryKey | ConstraintTypeCheck
  | ConstraintTypeIndex | ConstraintTypeUniqueIndex => None
  | ConstraintTypeForeignKey =>
      match c_PrimaryColumns c, c_Columns c, c_Table c with
      | [], _, _ => Some "foreign key constraint require at least one column"%string
      | _ :: _, [], _ =>
          Some "foreign key constraint require at least one reference column"%string
      | _ :: _, _ :: _, None =>
          Some "foreiqn key constraint missing reference table"%string
      | _ :: _, _ :: _, Some _ => None
      end
  | _ => Some ("unknown constraint type: " +:+ ConstraintTypeString (c_Type c))
  end.

(** The fault of the first faulty constraint of a list. *)
Fixpoint firstFault (cs : list Constraint) : option error :=
  match cs with
  | [] => None
  | c :: cs' =>
      match constraintFault c with
      | Some e => Some e
      | None => firstFault cs'
      end
  end.

(** The error of a table: its name, its columns, then its constraints in
    the order of the working list. *)
Definition tableFaultMessage (t : Table) : option error :=
  if negb (nonempty (t_Name t)) then Some "missing table name"%string
  else if (length (t_Columns t) =? 0)%nat
  then Some ("table " +:+ t_Name t +:+ " has no columns")
  else firstFault (w_elems (workingSlice t)).

(** What a run over the tables comes to: the first table entry that is nil
    or faulty decides. *)
Fixpoint tablesOutcome (ts : list (option Table)) : go_result (option error) :=
  match ts with
  | [] => Returns None
  | None :: _ => Panics
  | Some t :: rest =>
      match tableFaultMessage t with
      | Some e => Returns (Some e)
      | None => tablesOutcome rest
      end
  end.

(** Every physical column followed by a comma. *)
Definition commaLines (cols : list Column) : string :=
  concat_strings (map (fun c => TAB +:+ columnText c +:+ "," +:+ LF) cols).

End MoreLayout.

(** The constraints of [cs] that get a standalone statement. *)
Definition standaloneConstraints (cs : list Constraint) : list Constraint :=
  List.filter (fun c => isIndexType (c_Type c)) cs.

(** A table with the Index and UniqueIndex constraints taken out of its
    constraint slice, and one with only those. *)
Definition withoutIndexes (t : Table) : Table :=
  set_Constraints t
    {| elems := inlineConstraints (elems (t_Constraints t));
       spare := spare (t_Constraints t) |}.

(** [GenerateTo] hands the buffer to an [io.Writer].  A writer is a state
    with its [Write] method, which returns the number of bytes it took and
    an error; [bytes.Buffer.WriteTo] calls [Write] once with the whole
    contents when there are any, panics when [Write] claims more bytes than
    it was given, returns the writer's error, and [io.ErrShortWrite] when
    fewer bytes were taken. *)
Section Writers.
Context `{PqtLib}.
Variable W : Type.
Variable Write : W -> string -> W * (Z * option error).

Definition ErrShortWrite : error := "short write".

Definition WriteTo (code : Buffer) (w : W) : W * go_result (option error) :=
  if (0 <? Z.of_nat (String.length code))
  then
    let '(w', (m, e)) := Write w code in
    if Z.of_nat (String.length code) <? m then (w', Panics)
    else
      match e with
      | Some e => (w', Returns (Some e))
      | None =>
          if negb (m =? Z.of_nat (String.length code))
          then (w', Returns (Some ErrShortWrite))
          else (w', Returns None)
      end
  else (w, Returns None).

Definition GenerateTo (g : Generator) (s : Schema) (w : W)
  : W * go_result (option error) :=
  match (generate g s).2 with
  | Returns (_, Some err) => (w, Returns (Some err))
  | Returns (Some code, None) => WriteTo code w
  | Returns (None, None) => (w, Panics)
  | Panics => (w, Panics)
  end.

End Writers.

(** ** Package pqtgogen: which constructs are generated

    [generate] of package pqtgogen sets up the generator of package gogen
    and calls its methods, some of them depending on the selected
    components.  Most of these methods are not part of the sources at hand,
    so a run is modelled by the generator it sets up and by the sequence of
    the calls it makes. *)
Module Pqtgogen.

(** The methods called once per table. *)
Inductive tableMethod : Type :=
| MConstraints | MColumns | MEntity | MEntityProp | MEntityProps | MScanRows
| MIterator | MCriteria | MOperand | MFindExpr | MJoin | MCountExpr | MPatch
| MRepository | MRepositoryInsertQuery | MRepositoryInsert | MWhereClause
| MRepositoryFindQuery | MRepositoryFind | MRepositoryFindIter
| MRepositoryFindOneByPrimaryKey | MRepositoryFindOneByUniqueConstraint
| MRepositoryUpdateOneByPrimaryKeyQuery | MRepositoryUpdateOneByPrimaryKey
| MRepositoryUpdateOneByUniqueConstraintQuery
| MRepositoryUpdateOneByUniqueConstraint
| MRepositoryUpsertQuery | MRepositoryUpsert | MRepositoryCount
| MRepositoryDeleteOneByPrimaryKey.

Inductive call : Type :=
| CallPackage (pkg : string)
| CallImports (s : Schema) (fixed : list string)
| CallFuncs
| CallInterfaces
| CallJoinClause
| CallStatics (s : Schema)
| CallNewLine
| OnTable (m : tableMethod) (t : option Table).

(** [Component] is a [uint64]; the constants are [1 << (64 - 1 - iota)]. *)
Definition ComponentInsert : Z := Z.shiftl 1 (64 - 1 - 0).
Definition ComponentFind : Z := Z.shiftl 1 (64 - 1 - 1).
Definition ComponentUpdate : Z := Z.shiftl 1 (64 - 1 - 2).
Definition ComponentUpsert : Z := Z.shiftl 1 (64 - 1 - 3).
Definition ComponentCount : Z := Z.shiftl 1 (64 - 1 - 4).
Definition ComponentDelete : Z := Z.shiftl 1 (64 - 1 - 5).
Definition ComponentHelpers : Z := Z.shiftl 1 (64 - 1 - 6).

Definition ComponentRepository : Z :=
  Z.lor (Z.lor (Z.lor (Z.lor (Z.lor ComponentInsert ComponentFind) ComponentUpdate)
                  ComponentUpsert) ComponentCount) ComponentDelete.
Definition ComponentAll : Z := Z.lor ComponentRepository ComponentHelpers.

Section WithPlugins.
Variable Plugin : Type.

Record Generator : Type := {
  Version : float;
  Pkg : string;
  Imports : list string;
  Plugins : list Plugin;
  Components : Z
}.

(** The generator of package gogen, as [generate] sets it up. *)
Record gogenGenerator : Type := {
  gogen_Version : float;
  gogen_Plugins : list Plugin
}.

(** [components & mask != 0] *)
Definition has (components mask : Z) : bool := negb (Z.land components mask =? 0).

(** [if cond { calls }] *)
Definition when (cond : bool) (calls : list call) : list call :=
  if cond then calls else [].

(** The body of the loop over [s.Tables]. *)
Definition tableCalls (c : Z) (t : option Table) : list call :=
  [OnTable MConstraints t; CallNewLine; OnTable MColumns t; CallNewLine;
   OnTable MEntity t; CallNewLine; OnTable MEntityProp t; CallNewLine;
   OnTable MEntityProps t; CallNewLine]
  ++ when (has c ComponentHelpers) [OnTable MScanRows t; CallNewLine]
  ++ when (has c ComponentFind || has c ComponentCount)
       [OnTable MIterator t; CallNewLine; OnTable MCriteria t; CallNewLine;
        OnTable MOperand t; CallNewLine; OnTable MFindExpr t; CallNewLine;
        OnTable MJoin t; CallNewLine]
  ++ when (has c ComponentCount) [OnTable MCountExpr t; CallNewLine]
  ++ when (has c ComponentUpdate || has c ComponentUpsert)
       [OnTable MPatch t; CallNewLine]
  ++ when (has c ComponentRepository)
       ([OnTable MRepository t; CallNewLine]
        ++ when (has c ComponentInsert)
             [OnTable MRepositoryInsertQuery t; CallNewLine;
              OnTable MRepositoryInsert t; CallNewLine]
        ++ when (has c ComponentFind)
             [OnTable MWhereClause t; CallNewLine;
              OnTable MRepositoryFindQuery t; CallNewLine;
              OnTable MRepositoryFind t; CallNewLine;
              OnTable MRepositoryFindIter t; CallNewLine;
              OnTable MRepositoryFindOneByPrimaryKey t; CallNewLine;
              OnTable MRepositoryFindOneByUniqueConstraint t; CallNewLine]
        ++ when (has c ComponentUpdate)
             [OnTable MRepositoryUpdateOneByPrimaryKeyQuery t; CallNewLine;
              OnTable MRepositoryUpdateOneByPrimaryKey t; CallNewLine;
              OnTable MRepositoryUpdateOneByUniqueConstraintQuery t; CallNewLine;
              OnTable MRepositoryUpdateOneByUniqueConstraint t; CallNewLine]
        ++ when (has c ComponentUpsert)
             [OnTable MRepositoryUpsertQuery t; CallNewLine;
              OnTable MRepositoryUpsert t; CallNewLine]
        ++ when (has c ComponentCount) [OnTable MRepositoryCount t; CallNewLine]
        ++ when (has c ComponentDelete)
             [OnTable MRepositoryDeleteOneByPrimaryKey t; CallNewLine]).

(** [for _, p := range g.Plugins { g.g.Plugins = append(g.g.Plugins, p) }] *)
Fixpoint copyPlugins (ps : list Plugin) (acc : list Plugin) : list Plugin :=
  match ps with
  | [] => acc
  | p :: ps' => copyPlugins ps' (acc ++ [p])
  end.

Definition generate (g : Generator) (s : Schema) : gogenGenerator * list call :=
  let c := Components g in
  ({| gogen_Version := Version g; gogen_Plugins := copyPlugins (Plugins g) [] |},
   [CallPackage (Pkg g); CallImports s ["github.com/m4rw3r/uuid"%string]]
   ++ when (has c ComponentRepository) [CallFuncs; CallNewLine]
   ++ when (has c ComponentFind || has c ComponentCount || has c ComponentHelpers)
        [CallInterfaces; CallNewLine]
   ++ when (has c ComponentFind || has c ComponentCount) [CallJoinClause; CallNewLine]
   ++ flat_map (tableCalls c) (s_Tables s)
   ++ [CallStatics s; CallNewLine]).


(** The methods called for a table, in the order of the calls. *)
Definition allMethods : list tableMethod :=
  [MConstraints; MColumns; MEntity; MEntityProp; MEntityProps; MScanRows;
   MIterator; MCriteria; MOperand; MFindExpr; MJoin; MCountExpr; MPatch;
   MRepository; MRepositoryInsertQuery; MRepositoryInsert; MWhereClause;
   MRepositoryFindQuery; MRepositoryFind; MRepositoryFindIter;
   MRepositoryFindOneByPrimaryKey; MRepositoryFindOneByUniqueConstraint;
   MRepositoryUpdateOneByPrimaryKeyQuery; MRepositoryUpdateOneByPrimaryKey;
   MRepositoryUpdateOneByUniqueConstraintQuery;
   MRepositoryUpdateOneByUniqueConstraint;
   MRepositoryUpsertQuery; MRepositoryUpsert; MRepositoryCount;
   MRepositoryDeleteOneByPrimaryKey].

(** Whether a method is called, given the components. *)
Definition selected (c : Z) (m : tableMethod) : bool :=
  match m with
  | MConstraints | MColumns | MEntity | MEntityProp | MEntityProps => true
  | MScanRows => has c ComponentHelpers
  | MIterator | MCriteria | MOperand | MFindExpr | MJoin =>
      has c ComponentFind || has c ComponentCount
  | MCountExpr => has c ComponentCount
  | MPatch => has c ComponentUpdate || has c ComponentUpsert
  | MRepository =>
      has c ComponentInsert || has c ComponentFind || has c ComponentUpdate
      || has c ComponentUpsert || has c ComponentCount || has c ComponentDelete
  | MRepositoryInsertQuery | MRepositoryInsert => has c ComponentInsert
  | MWhereClause | MRepositoryFindQuery | MRepositoryFind | MRepositoryFindIter
  | MRepositoryFindOneByPrimaryKey | MRepositoryFindOneByUniqueConstraint =>
      has c ComponentFind
  | MRepositoryUpdateOneByPrimaryKeyQuery | MRepositoryUpdateOneByPrimaryKey
  | MRepositoryUpdateOneByUniqueConstraintQuery
  | MRepositoryUpdateOneByUniqueConstraint => has c ComponentUpdate
  | MRepositoryUpsertQuery | MRepositoryUpsert => has c ComponentUpsert
  | MRepositoryCount => has c ComponentCount
  | MRepositoryDeleteOneByPrimaryKey => has c ComponentDelete
  end.

Definition with_Components (g : Generator) (c : Z) : Generator :=
  {| Version := Version g; Pkg := Pkg g; Imports := Imports g;
     Plugins := Plugins g; Components := c |}.

End WithPlugins.
End Pqtgogen.

(** ** Package gogen: the package clause and the imports

    The printer of the generator is not part of the sources at hand; what
    a method prints is given as the sequence of its calls of the printer. *)

Module GogenPrint.

Inductive printed : Type :=
| Print (s : string)
| Println (s : string)
| Printf (format : string) (args : list string).

Definition Package (pkg : string) : list printed :=
  let pkg := if String.eqb pkg EmptyString then "main"%string else pkg in
  [Printf ("package %s" +:+ LF) [pkg]].

Definition uuid : string := "github.com/m4rw3r/uuid".

Definition appendIfNotEmpty (slice : list string) (elem : string) : list string :=
  if negb (String.eqb elem EmptyString) then slice ++ [elem] else slice.

(** The lines printed for one import path. *)
Definition importLine (imp : string) : list printed :=
  [Print DQ; Print imp; Println DQ].

Section Imports.

(** [c.Type.(pqtgo.CustomType)] followed by [ct.TypeOf(mode).PkgPath()]:
    for a column type that is a custom type, the package path of its Go type
    in each mode.  Package pqtgo is not part of the sources at hand. *)
Variable customType : PqtType -> option (Mode -> string).

Fixpoint columnImports (cols : list Column) (imports : list string) : list string :=
  match cols with
  | [] => imports
  | c :: cols =>
      let imports :=
        match customType (col_Type c) with
        | Some ct =>
            let imports := appendIfNotEmpty imports (ct ModeMandatory) in
            let imports := appendIfNotEmpty imports (ct ModeOptional) in
            appendIfNotEmpty imports (ct ModeCriteria)
        | None => imports
        end in
      columnImports cols imports
  end.

(** The loop over the tables; [t.Columns] on a nil table panics. *)
Fixpoint tableImports (ts : list (option Table)) (imports : list string)
  : go_result (list string) :=
  match ts with
  | [] => Returns imports
  | None :: _ => Panics
  | Some t :: ts => tableImports ts (columnImports (t_Columns t) imports)
  end.

(** [Imports]: what it prints, or a panic before it has printed anything. *)
Definition Imports (s : Schema) (fixed : list string) : go_result (list printed) :=
  let imports := [uuid] in
  let imports := imports ++ fixed in
  match tableImports (s_Tables s) imports with
  | Panics => Panics
  | Returns imports =>
      Returns ([Println "import("] ++ flat_map importLine imports ++ [Println ")"])
  end.

(** The package paths a column contributes, as a list. *)
Definition columnPaths (c : Column) : list string :=
  match customType (col_Type c) with
  | Some ct =>
      List.filter (fun p => negb (String.eqb p EmptyString))
        [ct ModeMandatory; ct ModeOptional; ct ModeCriteria]
  | None => []
  end.

Definition customPaths (ts : list Table) : list string :=
  flat_map (fun t => flat_map columnPaths (t_Columns t)) ts.

End Imports.

End GogenPrint.

(** Further inputs. *)
Module MoreSamples.
Import Sample.

(** A writer that records what it is given and takes all of it. *)
Definition recorder (w : list string) (p : string) : list string * (Z * option error) :=
  (w ++ [p], (Z.of_nat (String.length p), None)).

(** A book whose constraint slice has no room left. *)
Definition bookFull : Table :=
  set_Constraints book {| elems := elems (t_Constraints book); spare := [] |}.

(** A schema with a function without a name and a nil table. *)
Definition namelessFunction : Function :=
  {| f_Name := EmptyString; f_Args := []; f_Type := {| TypeString := "INT" |};
     f_Body := "SELECT 1"; f_Behaviour := FunctionBehaviourOther |}.

Definition withNamelessFunction : Schema :=
  schema "library" [None; Some author] [Some namelessFunction].

Definition authors : Schema := schema "library" [Some author] [].

(** The column type [CUSTOM] as a custom type whose mandatory and criteria
    Go types live in a package of their own and whose optional Go type is
    built in. *)
Definition customType (ty : PqtType) : option (Mode -> string) :=
  if String.eqb (TypeString ty) "CUSTOM"
  then Some (fun m => match m with
                      | ModeOptional => EmptyString
                      | _ => "example.com/payload"%string
                      end)
  else None.

Definition customAuthors : Schema := schema "library" [Some authorCustom; Some author] [].

(** A table all of whose columns are dynamic. *)
Definition statistics : Table := table 4 "statistics" [booksColumn] [].

(** The state in which the loop of [Entity] has ended for the author. *)
Definition authorDone : Channel.state :=
  {| Channel.todo := []; Channel.offered := None;
     Channel.received := [] ++ entityPropertiesGenerator author;
     Channel.busy := false; Channel.closed := true |}.

(** A generator of Go code that selects the Find component only. *)
Definition finder : Pqtgogen.Generator unit :=
  {| Pqtgogen.Version := 9.5%float; Pqtgogen.Pkg := "model";
     Pqtgogen.Imports := ["example.com/unused"%string]; Pqtgogen.Plugins := [tt];
     Pqtgogen.Components := Pqtgogen.ComponentFind |}.

End MoreSamples.

(** * Properties *)

(** ** Strings *)

Lemma append_nil_l (b : string) : EmptyString +:+ b = b.
Proof. reflexivity. Qed.

Lemma append_cons (x : ascii) (a b : string) : String x a +:+ b = String x (a +:+ b).
Proof. reflexivity. Qed.

Lemma append_assoc (a b c : string) : (a +:+ b) +:+ c = a +:+ (b +:+ c).
Proof.
  induction a as [|x a IH]; [reflexivity|].
  now rewrite !append_cons, IH.
Qed.

Lemma append_empty_r (a : string) : a +:+ EmptyString = a.
Proof.
  induction a as [|x a IH]; [reflexivity|].
  now rewrite append_cons, IH.
Qed.

Lemma append_inj_l (a b c : string) : a +:+ b = a +:+ c -> b = c.
Proof.
  induction a as [|x a IH]; [now rewrite !append_nil_l|].
  rewrite !append_cons. intros E. inversion E. auto.
Qed.

Lemma nonempty_false (s : string) : nonempty s = false <-> s = EmptyString.
Proof. destruct s; simpl; split; congruence. Qed.

Lemma concat_strings_app (l1 l2 : list string) :
  concat_strings (l1 ++ l2) = concat_strings l1 +:+ concat_strings l2.
Proof.
  induction l1 as [|s l1 IH]; simpl; [reflexivity|].
  now rewrite IH, append_assoc.
Qed.

(** ** Emitters only append

    What an emitter does to a buffer is what it does to the empty buffer,
    placed after the text that was there. *)

Lemma appends_WriteString s : appends (WriteString s).
Proof. intros buf. reflexivity. Qed.

Lemma appends_WriteRune c : appends (WriteRune c).
Proof. intros buf. reflexivity. Qed.

Lemma appends_skip : appends skip.
Proof. intros buf. unfold skip, text, err. simpl. now rewrite append_empty_r. Qed.

Lemma appends_fail e : appends (fail e).
Proof. intros buf. unfold fail, text, err. simpl. now rewrite append_empty_r. Qed.

Lemma appends_run f :
  (forall buf, f buf = buf +:+ f EmptyString) -> appends (run f).
Proof. intros Hf buf. unfold run, text, err. simpl. now rewrite Hf. Qed.

Lemma appends_Fprint s : appends (run (Fprint s)).
Proof. apply appends_run. reflexivity. Qed.

Lemma seq_eq (a b : emitter) :
  appends a -> appends b ->
  forall buf,
    (a >> b) buf =
      match err a with
      | None => (buf +:+ text a +:+ text b, err b)
      | Some e => (buf +:+ text a, Some e)
      end.
Proof.
  intros Ha Hb buf. unfold seq. rewrite (Ha buf).
  destruct (err a); [reflexivity|].
  now rewrite (Hb (buf +:+ text a)), append_assoc.
Qed.

Lemma appends_seq (a b : emitter) : appends a -> appends b -> appends (a >> b).
Proof.
  intros Ha Hb buf. unfold text, err.
  rewrite !(seq_eq a b Ha Hb). destruct (err a); reflexivity.
Qed.

Lemma appends_when c a : appends a -> appends (when c a).
Proof. destruct c; simpl; auto using appends_skip. Qed.

Lemma appends_range {A} (l : list A) (body : A -> emitter) :
  (forall x, appends (body x)) -> appends (range l body).
Proof.
  intros Hb. induction l; simpl; auto using appends_skip, appends_seq.
Qed.

Lemma appends_range_from {A} (l : list A) (body : Z -> A -> emitter) i :
  (forall j x, appends (body j x)) -> appends (range_from i l body).
Proof.
  intros Hb. revert i. induction l; simpl; auto using appends_skip, appends_seq.
Qed.

Create HintDb emit discriminated.
#[export] Hint Resolve appends_WriteString appends_WriteRune appends_skip
  appends_fail appends_Fprint appends_seq appends_when appends_range
  appends_range_from : emit.

(** Text and error of a sequence whose first part cannot fail. *)
Lemma text_seq (a b : emitter) :
  appends a -> appends b -> err a = None -> text (a >> b) = text a +:+ text b.
Proof. intros Ha Hb E. unfold text at 1. rewrite (seq_eq a b Ha Hb), E. reflexivity. Qed.

Lemma err_seq (a b : emitter) :
  appends a -> appends b -> err a = None -> err (a >> b) = err b.
Proof. intros Ha Hb E. unfold err at 1. rewrite (seq_eq a b Ha Hb), E. reflexivity. Qed.

Lemma err_seq_fail (a b : emitter) e :
  appends a -> appends b -> err a = Some e -> err (a >> b) = Some e.
Proof. intros Ha Hb E. unfold err at 1. rewrite (seq_eq a b Ha Hb), E. reflexivity. Qed.

Lemma writes_text e s : writes e s -> text e = s /\ err e = None /\ appends e.
Proof.
  intros Hw.
  assert (Et : text e = s) by (unfold text; now rewrite Hw).
  assert (Ee : err e = None) by (unfold err; now rewrite Hw).
  repeat split; auto. intros buf. now rewrite Hw, Et, Ee.
Qed.

Lemma appends_writes e : appends e -> err e = None -> writes e (text e).
Proof. intros Ha He buf. now rewrite (Ha buf), He. Qed.

Lemma writes_eq e s s' : writes e s -> s = s' -> writes e s'.
Proof. now intros Hw <-. Qed.

Lemma writes_WriteString s : writes (WriteString s) s.
Proof. intros buf. reflexivity. Qed.

Lemma writes_WriteRune c : writes (WriteRune c) (String c EmptyString).
Proof. intros buf. reflexivity. Qed.

Lemma writes_skip : writes skip EmptyString.
Proof. intros buf. unfold skip. now rewrite append_empty_r. Qed.

Lemma writes_seq a b s1 s2 : writes a s1 -> writes b s2 -> writes (a >> b) (s1 +:+ s2).
Proof.
  intros Ha Hb buf. unfold seq. now rewrite (Ha buf), (Hb _), append_assoc.
Qed.

Lemma writes_when c a s :
  writes a s -> writes (when c a) (if c then s else EmptyString).
Proof. destruct c; simpl; auto using writes_skip. Qed.

Lemma err_seq_writes a b s : writes a s -> appends b -> err (a >> b) = err b.
Proof.
  intros Hw Hb. apply writes_text in Hw as (_ & E & Ha). now apply err_seq.
Qed.

Lemma writes_run s : writes (run (Fprint s)) s.
Proof. intros buf. reflexivity. Qed.

(** A loop succeeds when each turn does, and writes the turns' texts in
    order; it fails when a turn fails. *)
Lemma range_writes {A} (l : list A) (body : A -> emitter) :
  (forall x, appends (body x)) ->
  Forall (fun x => err (body x) = None) l ->
  writes (range l body) (concat_strings (map (fun x => text (body x)) l)).
Proof.
  intros Hb Hl. induction Hl as [|x l Hx _ IH]; simpl; [apply writes_skip|].
  apply writes_seq; [now apply appends_writes | exact IH].
Qed.

Lemma range_fails {A} (l : list A) (body : A -> emitter) :
  (forall x, appends (body x)) ->
  Exists (fun x => err (body x) <> None) l ->
  exists x e, In x l /\ err (body x) = Some e /\ err (range l body) = Some e.
Proof.
  intros Hb. induction l as [|x l IH]; intros Hl; [inversion Hl|].
  simpl. destruct (err (body x)) as [e|] eqn:Ex.
  - exists x, e. repeat split; auto.
    apply err_seq_fail; auto using appends_range.
  - destruct IH as (y & e & Hy & Ey & Er).
    { inversion Hl; subst; [congruence | assumption]. }
    exists y, e. repeat split; auto.
    rewrite err_seq; auto using appends_range.
Qed.

(** ** The DDL emitter *)

Section PqtsqlFacts.
Context `{PqtLib}.

Ltac appends_step :=
  match goal with
  | |- appends (_ >> _) => apply appends_seq
  | |- appends (when _ _) => apply appends_when
  | |- appends (range_from _ _ _) => apply appends_range_from; intros
  | |- appends (range _ _) => apply appends_range; intros
  | |- appends (run _) => apply appends_run; reflexivity
  | |- appends (if ?b then _ else _) => destruct b
  | |- appends (match ?x with _ => _ end) => destruct x
  | |- appends _ => solve [auto with emit]
  end.

Ltac appends := repeat appends_step.

Lemma appends_foreignKeyConstraintQuery c : appends (foreignKeyConstraintQuery c).
Proof. unfold foreignKeyConstraintQuery. appends. Qed.

Lemma appends_generateConstraint g c : appends (generateConstraint g c).
Proof.
  unfold generateConstraint.
  destruct (c_Type c); auto using appends_foreignKeyConstraintQuery with emit;
    appends.
Qed.

Lemma appends_generateCreateFunction g f : appends (generateCreateFunction g f).
Proof. unfold generateCreateFunction. appends. Qed.

Lemma appends_columnLine n nb i c : appends (columnLine n nb i c).
Proof. unfold columnLine. appends. Qed.

Lemma appends_constraintLines g nb cs i : appends (constraintLines g nb i cs).
Proof.
  revert i. induction cs as [|c cs IH]; intros i; simpl; [auto with emit|].
  destruct (isIndexType (c_Type c)); [apply IH|].
  repeat (apply appends_seq);
    auto using appends_generateConstraint with emit.
Qed.

Lemma foreignKeyConstraintQuery_ok c tbl buf :
  c_PrimaryColumns c <> [] -> c_Columns c <> [] -> c_Table c = Some tbl ->
  foreignKeyConstraintQuery c buf = (buf +:+ foreignKeyText c tbl, None).
Proof.
  intros Hp Hc Ht. unfold foreignKeyConstraintQuery, foreignKeyText.
  destruct (c_PrimaryColumns c) as [|p ps] eqn:Ep; [congruence|].
  destruct (c_Columns c) as [|q qs] eqn:Eq; [congruence|].
  rewrite Ht. unfold seq, run, Fprint, WriteString, skip.
  destruct (c_OnDelete c), (c_OnUpdate c); unfold actionClause; simpl;
    rewrite ?append_assoc, ?append_empty_r, ?append_nil_l; reflexivity.
Qed.

Lemma foreignKeyConstraintQuery_fails c buf :
  c_PrimaryColumns c = [] \/ c_Columns c = [] \/ c_Table c = None ->
  exists e, foreignKeyConstraintQuery c buf = (buf, Some e).
Proof.
  intros Hbad. unfold foreignKeyConstraintQuery.
  destruct (c_PrimaryColumns c) as [|p ps]; [eexists; reflexivity|].
  destruct (c_Columns c) as [|q qs]; [eexists; reflexivity|].
  destruct (c_Table c); [|eexists; reflexivity].
  destruct Hbad as [?|[?|?]]; congruence.
Qed.

(** The claim C4: a well-formed foreign key is rendered as
    [CONSTRAINT "<name>" FOREIGN KEY (<local cols>) REFERENCES <ref table> (<ref cols>)]
    followed by an [ON DELETE] clause and an [ON UPDATE] clause, each
    present exactly when its action is Cascade, Restrict, SetNull or
    SetDefault (so Cascade with SetNull gives
    [ ON DELETE CASCADE ON UPDATE SET NULL] and no action gives no clause);
    with an empty column list on either side or no referenced table the
    rendering fails with an error and writes nothing. *)
Theorem foreignKey_rendering (c : Constraint) (buf : Buffer) :
  (forall tbl,
      c_PrimaryColumns c <> [] -> c_Columns c <> [] -> c_Table c = Some tbl ->
      foreignKeyConstraintQuery c buf = (buf +:+ foreignKeyText c tbl, None))
  /\ (c_PrimaryColumns c = [] \/ c_Columns c = [] \/ c_Table c = None ->
      exists e, foreignKeyConstraintQuery c buf = (buf, Some e))
  /\ (forall event a,
        (actionClause event a = EmptyString <-> a = NoAction)
        /\ (forall k, actionKeyword a = Some k ->
              actionClause event a = " ON " +:+ event +:+ " " +:+ k))
  /\ actionClause "DELETE" Cascade +:+ actionClause "UPDATE" SetNull
     = " ON DELETE CASCADE ON UPDATE SET NULL"
  /\ actionClause "DELETE" NoAction +:+ actionClause "UPDATE" NoAction = EmptyString.
Proof.
  split; [|split; [|split; [|split; reflexivity]]].
  - intros tbl. apply foreignKeyConstraintQuery_ok.
  - apply foreignKeyConstraintQuery_fails.
  - intros event a. split.
    + unfold actionClause. destruct a; simpl; split; try congruence.
      all: destruct event; discriminate.
    + intros k Hk. unfold actionClause. now rewrite Hk.
Qed.

(** *** Standalone index statements and the target version *)

Lemma indexConstraintQuery_eq c ver buf :
  indexConstraintQuery c ver buf = buf +:+ indexStatement ver c.
Proof.
  unfold indexConstraintQuery, indexStatement, existenceGuard, Fprintln, Fprint.
  destruct (PrimFloat.leb 9.5 ver);
    rewrite ?append_assoc, ?append_nil_l; reflexivity.
Qed.

Lemma uniqueIndexConstraintQuery_eq c ver buf :
  uniqueIndexConstraintQuery c ver buf = buf +:+ uniqueIndexStatement ver c.
Proof.
  unfold uniqueIndexConstraintQuery, uniqueIndexStatement, existenceGuard,
    whereClause, Fprint.
  destruct (PrimFloat.leb 9.5 ver), (nonempty (c_Where c));
    rewrite ?append_assoc, ?append_nil_l; reflexivity.
Qed.

Lemma indexStatements_eq ver cs code :
  indexStatements ver cs code
  = code +:+ concat_strings (map (standaloneStatement ver) cs).
Proof.
  revert code. induction cs as [|c cs IH]; intros code; simpl.
  - now rewrite append_empty_r.
  - rewrite IH. unfold standaloneStatement.
    destruct (c_Type c);
      rewrite ?indexConstraintQuery_eq, ?uniqueIndexConstraintQuery_eq,
        ?append_assoc, ?append_nil_l; reflexivity.
Qed.

Lemma existenceGuard_gate v1 v2 :
  PrimFloat.leb 9.5 v1 = PrimFloat.leb 9.5 v2 -> existenceGuard v1 = existenceGuard v2.
Proof. unfold existenceGuard. now intros ->. Qed.

Lemma generateConstraint_generator g1 g2 c :
  generateConstraint g1 c = generateConstraint g2 c.
Proof. reflexivity. Qed.

Lemma constraintLines_generator g1 g2 nb cs i :
  constraintLines g1 nb i cs = constraintLines g2 nb i cs.
Proof.
  revert i. induction cs as [|c cs IH]; intros i; simpl; [reflexivity|].
  now rewrite !IH.
Qed.

Lemma generateCreateTable_generator g1 g2 buf t :
  generateCreateTable g1 buf t = generateCreateTable g2 buf t.
Proof.
  unfold generateCreateTable, createTableBody. destruct t as [t|]; [|reflexivity].
  now rewrite (constraintLines_generator g1 g2).
Qed.

Lemma generateCreateFunction_generator g1 g2 f :
  generateCreateFunction g1 f = generateCreateFunction g2 f.
Proof. reflexivity. Qed.

Lemma generateTables_gate g1 g2 ts code :
  PrimFloat.leb 9.5 (Version g1) = PrimFloat.leb 9.5 (Version g2) ->
  generateTables g1 ts code = generateTables g2 ts code.
Proof.
  intros Hv. revert code. induction ts as [|t ts IH]; intros code; simpl;
    [reflexivity|].
  rewrite (generateCreateTable_generator g1 g2).
  destruct (generateCreateTable g2 code t) as [[code' [t'|]] [e|]]; try reflexivity.
  rewrite !indexStatements_eq.
  assert (E : map (standaloneStatement (Version g1)) (elems (t_Constraints t'))
              = map (standaloneStatement (Version g2)) (elems (t_Constraints t'))).
  { apply map_ext. intros c. unfold standaloneStatement, indexStatement,
      uniqueIndexStatement. now rewrite (existenceGuard_gate _ _ Hv). }
  now rewrite E, IH.
Qed.

Lemma generate_gate g1 g2 s :
  PrimFloat.leb 9.5 (Version g1) = PrimFloat.leb 9.5 (Version g2) ->
  generate g1 s = generate g2 s.
Proof.
  intros Hv. unfold generate.
  assert (E : forall code,
             range (s_Functions s) (generateCreateFunction g1) code
             = range (s_Functions s) (generateCreateFunction g2) code)
    by reflexivity.
  rewrite E.
  destruct (range (s_Functions s) (generateCreateFunction g2) _) as [code [e|]];
    [reflexivity|].
  now rewrite (generateTables_gate g1 g2 _ _ Hv).
Qed.

(** The claim C3: the standalone statement of an Index or UniqueIndex
    constraint carries [IF NOT EXISTS] if and only if the target version is
    at least 9.5; a UniqueIndex with a non-empty [Where] gets
    [ WHERE <predicate>] before the closing semicolon; and the version
    influences the emitter through this comparison only: two generators on
    the same side of 9.5 emit the same output for every schema, and the
    table and function blocks do not depend on the generator at all. *)
Theorem index_version_gate (c : Constraint) (ver : float) (buf : Buffer) :
  indexConstraintQuery c ver buf
  = buf +:+ "CREATE INDEX " +:+ existenceGuard ver +:+ DQ +:+ ConstraintName c +:+ DQ
        +:+ " ON " +:+ FullName (c_PrimaryTable c)
        +:+ " (" +:+ ColumnsString (c_PrimaryColumns c) +:+ ");" +:+ LF
  /\ uniqueIndexConstraintQuery c ver buf
     = buf +:+ "CREATE UNIQUE INDEX " +:+ existenceGuard ver +:+ DQ
           +:+ ConstraintName c +:+ DQ
           +:+ " ON " +:+ FullName (c_PrimaryTable c)
           +:+ " (" +:+ ColumnsString (c_PrimaryColumns c) +:+ ")"
           +:+ whereClause c +:+ ";" +:+ LF
  /\ (existenceGuard ver = "IF NOT EXISTS "%string <-> PrimFloat.leb 9.5 ver = true)
  /\ (existenceGuard ver = EmptyString <-> PrimFloat.leb 9.5 ver = false)
  /\ (c_Where c <> EmptyString -> whereClause c = " WHERE " +:+ c_Where c)
  /\ (c_Where c = EmptyString -> whereClause c = EmptyString)
  /\ (forall g1 g2 s,
        PrimFloat.leb 9.5 (Version g1) = PrimFloat.leb 9.5 (Version g2) ->
        generate g1 s = generate g2 s)
  /\ (forall g1 g2 code t,
        generateCreateTable g1 code t = generateCreateTable g2 code t)
  /\ (forall g1 g2 f, generateCreateFunction g1 f = generateCreateFunction g2 f).
Proof.
  repeat apply conj.
  - apply indexConstraintQuery_eq.
  - apply uniqueIndexConstraintQuery_eq.
  - unfold existenceGuard. destruct (PrimFloat.leb 9.5 ver); congruence.
  - unfold existenceGuard. destruct (PrimFloat.leb 9.5 ver); congruence.
  - unfold existenceGuard. destruct (PrimFloat.leb 9.5 ver); congruence.
  - unfold existenceGuard. destruct (PrimFloat.leb 9.5 ver); congruence.
  - intros Hw. unfold whereClause. destruct (c_Where c); [congruence|reflexivity].
  - intros Hw. unfold whereClause. now rewrite Hw.
  - apply generate_gate.
  - apply generateCreateTable_generator.
  - apply generateCreateFunction_generator.
Qed.

(** *** The working constraint list *)

Lemma go_append_elems w x : w_elems (go_append w x) = w_elems w ++ [x].
Proof. unfold go_append. now destruct (w_shared w && _). Qed.

Lemma go_append_array w x :
  (length (elems (w_array w)) <= length (w_elems w))%nat ->
  elems (w_array (go_append w x)) = elems (w_array w)
  /\ length (spare (w_array (go_append w x))) = length (spare (w_array w)).
Proof.
  intros Hle. unfold go_append.
  destruct (w_shared w && _); simpl; [|auto].
  unfold array_store.
  destruct (Nat.ltb_spec (length (w_elems w)) (length (elems (w_array w))));
    [lia|].
  simpl. now rewrite length_insert.
Qed.

Lemma appendOwnerForeignKeys_elems rs w :
  w_elems (appendOwnerForeignKeys rs w) = w_elems w ++ ownerForeignKeys rs.
Proof.
  revert w. induction rs as [|r rs IH]; intros w; simpl.
  - now rewrite app_nil_r.
  - destruct (r_OwnerForeignKey r) as [fk|];
      destruct (length (r_OwnerColumns r) =? 1)%nat; rewrite ?IH; try reflexivity.
    now rewrite go_append_elems, <- app_assoc.
Qed.

Lemma appendOwnerForeignKeys_array rs w :
  (length (elems (w_array w)) <= length (w_elems w))%nat ->
  elems (w_array (appendOwnerForeignKeys rs w)) = elems (w_array w)
  /\ length (spare (w_array (appendOwnerForeignKeys rs w)))
     = length (spare (w_array w)).
Proof.
  revert w. induction rs as [|r rs IH]; intros w Hle; simpl; [auto|].
  destruct (length (r_OwnerColumns r) =? 1)%nat; [auto|].
  destruct (r_OwnerForeignKey r) as [fk|]; [|auto].
  destruct (go_append_array w fk Hle) as [E1 E2].
  destruct (IH (go_append w fk)) as [E3 E4].
  - rewrite E1, go_append_elems, length_app. lia.
  - split; congruence.
Qed.

Lemma workingSlice_elems t :
  w_elems (workingSlice t)
  = elems (t_Constraints t) ++ ownerForeignKeys (t_OwnedRelationships t).
Proof. unfold workingSlice. now rewrite appendOwnerForeignKeys_elems. Qed.

Lemma workingSlice_array t :
  elems (w_array (workingSlice t)) = elems (t_Constraints t)
  /\ length (spare (w_array (workingSlice t))) = length (spare (t_Constraints t)).
Proof. unfold workingSlice. now apply appendOwnerForeignKeys_array. Qed.

Lemma sameModel_refl t : sameModel t t.
Proof. exists (t_Constraints t). now destruct t. Qed.

Lemma generateCreateTable_sameModel g buf t buf' t' e :
  generateCreateTable g buf (Some t) = (buf', t', e) ->
  exists t1, t' = Some t1 /\ sameModel t t1.
Proof.
  unfold generateCreateTable.
  destruct (negb (nonempty (t_Name t))).
  { intros [= <- <- <-]. eauto using sameModel_refl. }
  destruct (length (t_Columns t) =? 0)%nat.
  { intros [= <- <- <-]. eauto using sameModel_refl. }
  destruct (createTableBody g t (w_elems (workingSlice t)) buf) as [b1 e1].
  intros [= <- <- <-]. eexists; split; [reflexivity|].
  exists (w_array (workingSlice t)).
  destruct (workingSlice_array t). auto.
Qed.

Lemma ownerForeignKeys_single rs :
  Forall (fun r => length (r_OwnerColumns r) = 1%nat) rs -> ownerForeignKeys rs = [].
Proof.
  induction 1 as [|r rs Hr _ IH]; simpl; [reflexivity|].
  rewrite Hr. simpl. now destruct (r_OwnerForeignKey r).
Qed.

Lemma ownerForeignKeys_In rs fk :
  In fk (ownerForeignKeys rs)
  <-> exists r, In r rs /\ r_OwnerForeignKey r = Some fk
                /\ length (r_OwnerColumns r) <> 1%nat.
Proof.
  induction rs as [|r rs IH]; simpl.
  - split; [contradiction|]. intros (r & [] & _).
  - destruct (r_OwnerForeignKey r) as [fk'|] eqn:Efk.
    + destruct (Nat.eqb_spec (length (r_OwnerColumns r)) 1) as [E1|N1].
      * rewrite IH. split.
        -- intros (r' & Hin & Hr'). exists r'. auto.
        -- intros (r' & [<-|Hin] & Hfk & Hlen); [contradiction|]. eauto.
      * simpl. rewrite IH. split.
        -- intros [<-|(r' & Hin & Hr')]; [exists r; auto|exists r'; auto].
        -- intros (r' & [<-|Hin] & Hfk & Hlen); [left; congruence|right; eauto].
    + rewrite IH. split.
      * intros (r' & Hin & Hr'). exists r'. auto.
      * intros (r' & [<-|Hin] & Hfk & Hlen); [congruence|]. eauto.
Qed.

Lemma ownerForeignKeys_composite rs :
  Forall (fun r => r_OwnerColumns r <> []) rs ->
  ownerForeignKeys rs = compositeForeignKeys rs.
Proof.
  induction 1 as [|r rs Hr _ IH]; simpl; [reflexivity|].
  rewrite IH. destruct (r_OwnerForeignKey r); [|reflexivity].
  destruct (r_OwnerColumns r) as [|oc1 [|oc2 ocs]]; [congruence|reflexivity|reflexivity].
Qed.

(** The claim C8, amended: the working constraint list of a table's pass is
    the declared constraints followed by the foreign keys of the owned
    relationships that have a foreign key and a number of owner columns
    other than one, in the order of the relationships (these are the
    relationships with more than one owner column when none is without
    owner columns); a relationship with exactly one owner column adds
    nothing; and the pass leaves the table's own constraint slice with the
    elements, length and capacity it had, and every other field of the
    table as it was. *)
Theorem working_constraints (g : Generator) (buf : Buffer) (t : Table) :
  w_elems (workingSlice t)
  = elems (t_Constraints t) ++ ownerForeignKeys (t_OwnedRelationships t)
  /\ (forall fk,
        In fk (ownerForeignKeys (t_OwnedRelationships t))
        <-> exists r, In r (t_OwnedRelationships t)
                      /\ r_OwnerForeignKey r = Some fk
                      /\ length (r_OwnerColumns r) <> 1%nat)
  /\ (Forall (fun r => r_OwnerColumns r <> []) (t_OwnedRelationships t) ->
      ownerForeignKeys (t_OwnedRelationships t)
      = compositeForeignKeys (t_OwnedRelationships t))
  /\ (Forall (fun r => length (r_OwnerColumns r) = 1%nat) (t_OwnedRelationships t) ->
      w_elems (workingSlice t) = elems (t_Constraints t))
  /\ elems (w_array (workingSlice t)) = elems (t_Constraints t)
  /\ cap (w_array (workingSlice t)) = cap (t_Constraints t)
  /\ (exists t', (generateCreateTable g buf (Some t)).1.2 = Some t' /\ sameModel t t').
Proof.
  destruct (workingSlice_array t) as [E1 E2].
  split; [apply workingSlice_elems|].
  split; [intros fk; apply ownerForeignKeys_In|].
  split; [apply ownerForeignKeys_composite|].
  split.
  { intros Hs. rewrite workingSlice_elems, (ownerForeignKeys_single _ Hs).
    apply app_nil_r. }
  split; [exact E1|].
  split; [unfold cap; now rewrite E1, E2|].
  destruct (generateCreateTable g buf (Some t)) as [[b t'] e] eqn:E.
  apply generateCreateTable_sameModel in E. exact E.
Qed.

End PqtsqlFacts.

(** ** The layout of the output *)

Lemma join_cons sep x l :
  join sep (x :: l) = x +:+ concat_strings (map (fun y => sep +:+ y) l).
Proof.
  revert x. induction l as [|y l IH]; intros x.
  - simpl. now rewrite append_empty_r.
  - change (join sep (x :: y :: l)) with (x +:+ sep +:+ join sep (y :: l)).
    rewrite IH. simpl. now rewrite append_assoc.
Qed.

Lemma range_from_writes {A} (l : list A) (body : Z -> A -> emitter)
  (txt : Z -> A -> string) (P : Z -> Prop) :
  (forall i, P i -> P (i + 1)) ->
  (forall i x, P i -> writes (body i x) (txt i x)) ->
  forall i, P i -> writes (range_from i l body) (concat_from i l txt).
Proof.
  intros HP Hb. induction l as [|x l IH]; intros i Hi; simpl.
  - apply writes_skip.
  - apply writes_seq; auto.
Qed.

Ltac writes_step :=
  match goal with
  | |- writes (_ >> _) _ => eapply writes_seq
  | |- writes (WriteString _) _ => apply writes_WriteString
  | |- writes (WriteRune _) _ => apply writes_WriteRune
  | |- writes skip _ => apply writes_skip
  | |- writes (run (Fprint _)) _ => apply writes_run
  | |- writes (when _ _) _ => eapply writes_when
  end.

Ltac writes := repeat writes_step.

Ltac normalize_append :=
  rewrite ?append_assoc, ?append_nil_l, ?append_empty_r.

Section PqtsqlLayout.
Context `{PqtLib}.

(** *** Function blocks *)

Lemma arguments_writes (args : list FunctionArg) :
  writes
    (range_from 0 args (fun i arg =>
       when (negb (i =? 0)) (WriteString ", ")
       >> WriteString (arg_Name arg) >> WriteString " "
       >> WriteString (TypeString (arg_Type arg))))
    (argumentList args).
Proof.
  set (body := fun (i : Z) (arg : FunctionArg) => _).
  set (argText := fun a : FunctionArg => arg_Name a +:+ " " +:+ TypeString (arg_Type a)).
  assert (Hrest : forall l i, 0 < i ->
            writes (range_from i l body)
              (concat_strings (map (fun a => ", " +:+ argText a) l))).
  { induction l as [|a l IH]; intros i Hi; simpl; [apply writes_skip|].
    apply writes_seq; [|apply IH; lia].
    unfold body. replace (i =? 0) with false by lia. simpl.
    eapply writes_eq; [writes|]. unfold argText. now normalize_append. }
  destruct args as [|a l]; [apply writes_skip|].
  unfold argumentList. rewrite map_cons, join_cons, map_map. simpl.
  apply writes_seq; [|apply (Hrest l 1); lia].
  unfold body. simpl. eapply writes_eq; [writes|]. now normalize_append.
Qed.

Lemma generateCreateFunction_writes g f :
  functionOk f = true -> writes (generateCreateFunction g f) (functionBlock f).
Proof.
  destruct f as [f|]; simpl; [|intros _; apply writes_skip].
  intros ->. simpl.
  eapply writes_eq.
  - repeat (eapply writes_seq; [first [apply arguments_writes | writes_step]|]).
    eapply writes_seq; [|writes_step].
    instantiate (1 := behaviourClause (f_Behaviour f)).
    destruct (f_Behaviour f); simpl; writes.
  - now normalize_append.
Qed.

Lemma generateCreateFunction_fails g f :
  functionOk f = false ->
  err (generateCreateFunction g f) = Some "missing function name"%string.
Proof.
  destruct f as [f|]; simpl; [|discriminate]. now intros ->.
Qed.

Lemma functions_writes g fs :
  forallb functionOk fs = true ->
  writes (range fs (generateCreateFunction g)) (concat_strings (map functionBlock fs)).
Proof.
  induction fs as [|f fs IH]; simpl; [intros _; apply writes_skip|].
  intros [Hf Hfs]%andb_prop.
  apply writes_seq; auto using generateCreateFunction_writes.
Qed.

Lemma functions_fails g fs :
  forallb functionOk fs = false ->
  err (range fs (generateCreateFunction g)) = Some "missing function name"%string.
Proof.
  induction fs as [|f fs IH]; simpl; [discriminate|].
  destruct (functionOk f) eqn:Ef; simpl; intros Hfs.
  - destruct (writes_text _ _ (generateCreateFunction_writes g f Ef)) as (_ & E & Ha).
    rewrite err_seq; auto using appends_range, appends_generateCreateFunction.
  - apply err_seq_fail;
      auto using appends_range, appends_generateCreateFunction,
        generateCreateFunction_fails.
Qed.

(** *** Table blocks *)

Lemma columnLine_writes n nb i c :
  writes (columnLine n nb i c) (columnLineText n nb i c).
Proof.
  unfold columnLine, columnLineText, columnText.
  destruct (col_IsDynamic c); [apply writes_skip|].
  destruct (nonempty (col_Collate c)), (DefaultOn c EventInsert), (col_NotNull c),
    ((i <? n - 1) || (0 <? nb)); unfold when;
    (eapply writes_eq; [writes | unfold TAB, LF; now normalize_append]).
Qed.

Lemma columns_writes n nb cols i :
  writes (range_from i cols (columnLine n nb)) (concat_from i cols (columnLineText n nb)).
Proof.
  apply (range_from_writes cols _ _ (fun _ => True)); auto using columnLine_writes.
Qed.

Lemma generateConstraint_writes g c :
  renderable c = true -> writes (generateConstraint g c) (constraintText c).
Proof.
  unfold renderable, generateConstraint, constraintText.
  destruct (c_Type c); try discriminate; intros Hr;
    try apply writes_skip; try apply writes_run.
  destruct (c_PrimaryColumns c) as [|p ps] eqn:Ep; [discriminate|].
  destruct (c_Columns c) as [|q qs] eqn:Eq; [discriminate|].
  destruct (c_Table c) as [tbl|] eqn:Et; [|discriminate].
  intros buf. apply foreignKeyConstraintQuery_ok; congruence.
Qed.

Lemma generateConstraint_fails g c :
  renderable c = false ->
  exists e, err (generateConstraint g c) = Some e /\ describedError e.
Proof.
  unfold renderable, generateConstraint, foreignKeyConstraintQuery.
  destruct (c_Type c) eqn:Et; try discriminate; intros Hr.
  - destruct (c_PrimaryColumns c) as [|p ps]; [eexists; split; [reflexivity|constructor]|].
    destruct (c_Columns c) as [|q qs]; [eexists; split; [reflexivity|constructor]|].
    destruct (c_Table c); [discriminate|eexists; split; [reflexivity|constructor]].
  - eexists; split; [reflexivity|]. apply (unknown_constraint_type ConstraintTypeExclusion).
  - eexists; split; [reflexivity|]. apply (unknown_constraint_type (ConstraintTypeOther tag)).
Qed.

Lemma isIndexType_renderable c : isIndexType (c_Type c) = true -> renderable c = true.
Proof. unfold renderable. now destruct (c_Type c). Qed.

Lemma constraintLines_writes g nb cs i :
  forallb renderable cs = true ->
  writes (constraintLines g nb i cs) (constraintLinesText nb i cs).
Proof.
  revert i. induction cs as [|c cs IH]; intros i; simpl; [intros _; apply writes_skip|].
  intros [Hc Hcs]%andb_prop.
  destruct (isIndexType (c_Type c)); [now apply IH|].
  pose proof (generateConstraint_writes g c Hc) as Hg.
  pose proof (IH (i + 1) Hcs) as Hrest.
  destruct (i <? nb - 1); unfold when;
    (eapply writes_eq;
     [repeat first [exact Hg | exact Hrest | writes_step]
     | unfold LF; now normalize_append]).
Qed.

Lemma constraintLines_fails g nb cs i :
  forallb renderable cs = false ->
  exists e, err (constraintLines g nb i cs) = Some e /\ describedError e.
Proof.
  revert i. induction cs as [|c cs IH]; intros i; simpl; [discriminate|].
  destruct (renderable c) eqn:Hc; simpl; intros Hcs.
  - destruct (isIndexType (c_Type c)); [now apply IH|].
    destruct (IH (i + 1) Hcs) as (e & Ee & He). exists e. split; [|exact He].
    pose proof (appends_constraintLines g nb cs (i + 1)) as Hrest.
    destruct (writes_text _ _ (generateConstraint_writes g c Hc)) as (_ & Eg & Hg).
    rewrite err_seq; auto 10 with emit.
    rewrite err_seq; auto 10 with emit.
    rewrite err_seq; auto 10 with emit.
    + rewrite err_seq; auto 10 with emit.
    + now destruct (i <? nb - 1).
  - destruct (isIndexType (c_Type c)) eqn:Ei.
    { apply isIndexType_renderable in Ei. congruence. }
    destruct (generateConstraint_fails g c Hc) as (e & Ee & He).
    exists e. split; [|exact He].
    pose proof (appends_constraintLines g nb cs (i + 1)) as Hrest.
    pose proof (appends_generateConstraint g c) as Hg.
    rewrite err_seq; auto 10 with emit.
    apply err_seq_fail; auto 10 with emit.
Qed.

Lemma createTableBody_writes g t :
  forallb renderable (w_elems (workingSlice t)) = true ->
  writes (createTableBody g t (w_elems (workingSlice t))) (tableBlock t).
Proof.
  intros Hr. unfold createTableBody, tableBlock, tableHeader, columnLines,
    inlineConstraintLines, qualifiedName.
  fold (inlineCount t).
  pose proof (columns_writes (Z.of_nat (length (t_Columns t))) (inlineCount t)
                (t_Columns t) 0) as Hcols.
  pose proof (constraintLines_writes g (inlineCount t) _ 0 Hr) as Hcs.
  destruct (t_Temporary t), (t_IfNotExists t), (t_Schema t), (0 <? inlineCount t);
    unfold when;
    (eapply writes_eq;
     [repeat first [exact Hcols | exact Hcs | writes_step]
     | unfold LF; now normalize_append]).
Qed.

Lemma createTableBody_fails g t :
  forallb renderable (w_elems (workingSlice t)) = false ->
  exists e, err (createTableBody g t (w_elems (workingSlice t))) = Some e
            /\ describedError e.
Proof.
  intros Hr.
  destruct (constraintLines_fails g (inlineCount t) _ 0 Hr) as (e & Ee & He).
  exists e. split; [|exact He].
  unfold createTableBody. fold (inlineCount t).
  pose proof (appends_constraintLines g (inlineCount t) (w_elems (workingSlice t)) 0).
  pose proof (columns_writes (Z.of_nat (length (t_Columns t))) (inlineCount t)
                (t_Columns t) 0) as Hcols.
  pose proof (appends_columnLine (Z.of_nat (length (t_Columns t))) (inlineCount t)).
  destruct (t_Temporary t), (t_IfNotExists t), (t_Schema t), (0 <? inlineCount t);
    unfold when;
    repeat (erewrite err_seq_writes;
            [ | first [exact Hcols | solve [writes]] | solve [auto 10 with emit] ]);
    apply err_seq_fail; auto with emit.
Qed.

Lemma generateCreateTable_ok g buf t :
  tableOk t = true ->
  generateCreateTable g buf (Some t)
  = (buf +:+ tableBlock t, Some (set_Constraints t (w_array (workingSlice t))), None).
Proof.
  unfold tableOk, generateCreateTable.
  intros [[Hn Hc]%andb_prop Hr]%andb_prop.
  rewrite Hn. simpl. apply negb_true_iff in Hc. rewrite Hc.
  now rewrite (createTableBody_writes g t Hr buf).
Qed.

Lemma generateCreateTable_fails g buf t :
  tableOk t = false ->
  exists b e,
    generateCreateTable g buf (Some t)
    = (b, (generateCreateTable g buf (Some t)).1.2, Some e)
    /\ describedError e.
Proof.
  unfold tableOk, generateCreateTable. intros Hbad.
  destruct (nonempty (t_Name t)); simpl in *.
  2:{ do 2 eexists. split; [reflexivity|constructor]. }
  destruct (length (t_Columns t) =? 0)%nat; simpl in *.
  { do 2 eexists. split; [reflexivity|constructor]. }
  destruct (createTableBody_fails g t Hbad) as (e & Ee & He).
  assert (Ha : appends (createTableBody g t (w_elems (workingSlice t)))).
  { unfold createTableBody.
    repeat (apply appends_seq);
      auto using appends_constraintLines, appends_columnLine with emit.
    destruct (t_Schema t); auto with emit. }
  rewrite (Ha buf), Ee. simpl. do 2 eexists. split; [reflexivity|exact He].
Qed.

End PqtsqlLayout.

Section PqtsqlGenerate.
Context `{PqtLib}.

(** *** The whole schema *)

Lemma generateTables_cons g t rest code :
  generateTables g (t :: rest) code =
    match generateCreateTable g code t with
    | (code, t', Some e) => (t' :: rest, Returns (code, Some e))
    | (code, None, None) => (None :: rest, Panics)
    | (code, Some t', None) =>
        let code := indexStatements (Version g) (elems (t_Constraints t')) code in
        let code := Fprintln EmptyString code in
        let '(rest', r) := generateTables g rest code in
        (Some t' :: rest', r)
    end.
Proof. reflexivity. Qed.

Lemma generateTables_ok g ts code :
  forallb tableEntryOk ts = true ->
  (generateTables g ts code).2
  = Returns (code +:+ concat_strings (map (tableSection g) ts), None).
Proof.
  revert code. induction ts as [|t ts IH]; intros code.
  - intros _. simpl. now rewrite append_empty_r.
  - rewrite generateTables_cons. cbn [forallb map concat_strings tableEntryOk].
    intros [Ht Hts]%andb_prop. destruct t as [t|]; [|discriminate].
    rewrite (generateCreateTable_ok g code t Ht).
    cbn [t_Constraints set_Constraints]. destruct (workingSlice_array t) as [-> _].
    rewrite indexStatements_eq. unfold Fprintln.
    match goal with |- context [generateTables g ts ?c] =>
      specialize (IH c Hts); destruct (generateTables g ts c) as [rest r] end.
    simpl in *. rewrite IH. now normalize_append.
Qed.

Lemma generateTables_bad g ts code :
  forallb tableEntryOk ts = false ->
  match (generateTables g ts code).2 with
  | Panics => In None ts
  | Returns (_, Some e) => describedError e
  | Returns (_, None) => False
  end.
Proof.
  revert code. induction ts as [|t ts IH]; intros code; [discriminate|].
  rewrite generateTables_cons. cbn [forallb].
  destruct t as [t|]; [|intros _; now left].
  cbn [tableEntryOk]. destruct (tableOk t) eqn:Ht; cbn [andb]; intros Hts.
  - rewrite (generateCreateTable_ok g code t Ht). cbv zeta.
    match goal with |- context [generateTables g ts ?c] =>
      specialize (IH c Hts); destruct (generateTables g ts c) as [rest r] end.
    simpl in *. destruct r as [[b [e|]]|]; auto.
  - destruct (generateCreateTable_fails g code t Ht) as (b & e & E & He).
    rewrite E. now destruct ((generateCreateTable g code (Some t)).1.2).
Qed.

Lemma generate_ok g s :
  schemaOk s = true -> (generate g s).2 = Returns (Some (ddlLayout g s), None).
Proof.
  unfold schemaOk, generate, ddlLayout. intros [Hf Ht]%andb_prop.
  rewrite (functions_writes g _ Hf).
  pose proof (generateTables_ok g (s_Tables s)) as Hts.
  match goal with |- context [generateTables g _ ?c] =>
    specialize (Hts c Ht); destruct (generateTables g (s_Tables s) c) as [ts r] end.
  simpl in Hts. subst r. simpl. do 3 f_equal.
  unfold createSchemaStatement, Fprint.
  destruct (nonempty (s_Name s)), (s_IfNotExists s); now normalize_append.
Qed.

Lemma generate_bad g s :
  schemaOk s = false ->
  match (generate g s).2 with
  | Panics => In None (s_Tables s)
  | Returns (None, Some e) => describedError e
  | Returns (_, _) => False
  end.
Proof.
  unfold schemaOk, generate. intros Hbad.
  destruct (forallb functionOk (s_Functions s)) eqn:Hf.
  - rewrite (functions_writes g _ Hf). simpl in Hbad.
    match goal with |- context [generateTables g _ ?c] =>
      pose proof (generateTables_bad g (s_Tables s) c Hbad) as Hts;
      destruct (generateTables g (s_Tables s) c) as [ts r] end.
    simpl in *. destruct r as [[b [e|]]|]; simpl; auto.
  - pose proof (functions_fails g _ Hf) as Ef.
    assert (Ha : appends (range (s_Functions s) (generateCreateFunction g)))
      by auto using appends_range, appends_generateCreateFunction.
    rewrite (Ha _), Ef. simpl. constructor.
Qed.

Lemma schemaFault_not_ok s : schemaFault s -> schemaOk s = false.
Proof.
  unfold schemaOk. intros [Hf|Ht]; apply andb_false_iff; [left|right].
  - apply not_true_iff_false. rewrite forallb_forall. intros Hall.
    apply Exists_exists in Hf as (f & Hin%list_elem_of_In & f0 & -> & Hname).
    specialize (Hall _ Hin). simpl in Hall. now rewrite Hname in Hall.
  - apply not_true_iff_false. rewrite forallb_forall. intros Hall.
    apply Exists_exists in Ht as (t & Hin%list_elem_of_In & t0 & -> & Hfault).
    specialize (Hall _ Hin). simpl in Hall. unfold tableOk in Hall.
    apply andb_prop in Hall as [[Hn Hc]%andb_prop Hr].
    destruct Hfault as [Hname|[Hcols|Hty]].
    + now rewrite Hname in Hn.
    + now rewrite Hcols in Hc.
    + apply Exists_exists in Hty as (c & Hc'%list_elem_of_In & tag & Htag).
      rewrite forallb_forall in Hr. specialize (Hr _ Hc').
      unfold renderable in Hr. now rewrite Htag in Hr.
Qed.


(** *** The commas of a table block *)

Lemma CountOf_inline cs :
  forallb renderable cs = true ->
  CountOf cs [ConstraintTypePrimaryKey; ConstraintTypeCheck; ConstraintTypeUnique;
              ConstraintTypeForeignKey; ConstraintTypeExclusion]
  = Z.of_nat (length (inlineConstraints cs)).
Proof.
  unfold CountOf, inlineConstraints. intros Hr. do 2 f_equal.
  induction cs as [|c cs IH]; [reflexivity|].
  cbn [forallb] in Hr. apply andb_prop in Hr as [Hc Hcs].
  cbn [List.filter]. rewrite (IH Hcs). unfold renderable in Hc.
  destruct (c_Type c); simpl; try reflexivity; discriminate.
Qed.

Lemma constraintLinesText_join cs i :
  constraintLinesText (i + Z.of_nat (length (inlineConstraints cs))) i cs
  = joinConstraintLines (inlineConstraints cs).
Proof.
  revert i. induction cs as [|c cs IH]; intros i; [reflexivity|].
  unfold inlineConstraints in *. cbn [List.filter constraintLinesText].
  destruct (isIndexType (c_Type c)); cbn [negb]; [apply IH|].
  set (rest := List.filter (fun c => negb (isIndexType (c_Type c))) cs) in *.
  cbn [length].
  replace (i + Z.of_nat (S (length rest))) with ((i + 1) + Z.of_nat (length rest))
    by lia.
  rewrite IH.
  destruct rest as [|c2 rest]; cbn [length joinConstraintLines].
  - replace (i <? i + 1 + Z.of_nat 0 - 1) with false
      by (symmetry; apply Z.ltb_ge; lia).
    now normalize_append.
  - replace (i <? i + 1 + Z.of_nat (S (length rest)) - 1) with true
      by (symmetry; apply Z.ltb_lt; lia).
    now normalize_append.
Qed.

Lemma physical_nonempty (cols : list Column) c :
  last cols = Some c -> col_IsDynamic c = false ->
  List.filter (fun c => negb (col_IsDynamic c)) cols <> [].
Proof.
  intros Hl Hc Hempty.
  assert (Hin : In c (List.filter (fun c => negb (col_IsDynamic c)) cols)).
  { apply filter_In. split; [|now rewrite Hc].
    apply list_elem_of_In. eapply last_Some_elem_of. exact Hl. }
  rewrite Hempty in Hin. contradiction.
Qed.

Lemma concat_from_join n nb cols i :
  n = i + Z.of_nat (length cols) ->
  (forall c, last cols = Some c -> col_IsDynamic c = false) ->
  concat_from i cols (columnLineText n nb)
  = joinColumnLines nb (List.filter (fun c => negb (col_IsDynamic c)) cols).
Proof.
  revert i. induction cols as [|c cols IH]; intros i Hn Hlast; [reflexivity|].
  destruct cols as [|c2 cols].
  - simpl. unfold columnLineText. rewrite (Hlast c eq_refl). simpl.
    replace (i <? n - 1) with false by (simpl in Hn; lia).
    simpl. now normalize_append.
  - change (concat_from i (c :: c2 :: cols) (columnLineText n nb))
      with (columnLineText n nb i c +:+ concat_from (i + 1) (c2 :: cols) (columnLineText n nb)).
    rewrite IH; [| simpl length in *; lia | intros x Hx; apply Hlast; exact Hx].
    unfold columnLineText.
    change (List.filter (fun c => negb (col_IsDynamic c)) (c :: c2 :: cols))
      with (if negb (col_IsDynamic c)
            then c :: List.filter (fun c => negb (col_IsDynamic c)) (c2 :: cols)
            else List.filter (fun c => negb (col_IsDynamic c)) (c2 :: cols)).
    destruct (col_IsDynamic c); simpl negb; cbv iota; [reflexivity|].
    replace (i <? n - 1) with true by (simpl length in Hn; lia). simpl orb. cbv iota.
    assert (Hne : List.filter (fun c => negb (col_IsDynamic c)) (c2 :: cols) <> []).
    { destruct (last (c2 :: cols)) as [x|] eqn:El;
        [|apply last_None in El; discriminate].
      apply (physical_nonempty _ x El). apply Hlast. exact El. }
    destruct (List.filter _ (c2 :: cols)) as [|y ys]; [congruence|].
    simpl. now normalize_append.
Qed.

(** Where the last declared column is not dynamic, a table that can be
    rendered gets the block the specification describes. *)
Lemma tableBlock_asSpecified t :
  tableOk t = true ->
  (forall c, last (t_Columns t) = Some c -> col_IsDynamic c = false) ->
  tableBlock t = tableBlockAsSpecified t.
Proof.
  intros Hok Hlast. unfold tableBlock, tableBlockAsSpecified, columnLines,
    inlineConstraintLines, physicalColumns.
  rewrite (concat_from_join _ _ _ 0); [|lia|exact Hlast].
  apply andb_prop in Hok as [_ Hr].
  pose proof (constraintLinesText_join (w_elems (workingSlice t)) 0) as Hj.
  rewrite Z.add_0_l, <- (CountOf_inline _ Hr) in Hj. fold (inlineCount t) in Hj.
  now rewrite Hj.
Qed.

Lemma Generate_generate g s :
  (Generate g s).2 =
    match (generate g s).2 with
    | Returns (_, Some e) => Returns (None, Some e)
    | Returns (Some code, None) => Returns (Some code, None)
    | Returns (None, None) => Panics
    | Panics => Panics
    end.
Proof.
  unfold Generate. destruct (generate g s) as [s' [[[c|] [e|]]|]]; reflexivity.
Qed.

(** The claim C7, amended: on a schema whose table entries are all
    present, a function without a name, a table without a name, a table
    without columns or a constraint of an unknown type makes [Generate]
    return an error that names the fault and no bytes; whenever [Generate]
    returns an error it returns no bytes.  A schema without a name is not a
    fault: its CREATE SCHEMA statement is left out. *)
Theorem generation_failures (g : Generator) (s : Schema) :
  (Forall (fun t => t <> None) (s_Tables s) ->
   schemaFault s ->
   exists e, (Generate g s).2 = Returns (None, Some e) /\ describedError e)
  /\ (forall bytes e, (Generate g s).2 = Returns (bytes, Some e) -> bytes = None)
  /\ (s_Name s = EmptyString -> schemaOk s = true ->
      (Generate g s).2
      = Returns (Some (banner
                       +:+ concat_strings (map functionBlock (s_Functions s))
                       +:+ concat_strings (map (tableSection g) (s_Tables s))), None)).
Proof.
  repeat apply conj.
  - intros Hnil Hfault. apply schemaFault_not_ok in Hfault.
    pose proof (generate_bad g s Hfault) as Hb. rewrite Generate_generate.
    destruct ((generate g s).2) as [[[c|] [e|]]|]; try contradiction; eauto.
    rewrite Forall_forall in Hnil. apply list_elem_of_In in Hb.
    now apply Hnil in Hb.
  - intros bytes e. rewrite Generate_generate.
    destruct ((generate g s).2) as [[[c|] [e'|]]|]; congruence.
  - intros Hname Hok. rewrite Generate_generate, (generate_ok g s Hok).
    unfold ddlLayout, createSchemaStatement. now rewrite Hname.
Qed.

(** A nil function is skipped, and [generateCreateTable] returns at once on
    a nil table. *)
Lemma nil_entries g buf :
  generateCreateFunction g None buf = (buf, None)
  /\ generateCreateTable g buf None = (buf, None, None).
Proof. split; reflexivity. Qed.

(** The loop of [generate] then reads [t.Constraints] of the nil table. *)
Lemma generateTables_nil g rest code :
  (generateTables g (None :: rest) code).2 = Panics.
Proof. reflexivity. Qed.

End PqtsqlGenerate.

(** ** Running the emitter again on the model it leaves *)

Section PqtsqlRerun.
Context `{PqtLib}.










End PqtsqlRerun.

(** ** Entity fields *)

Lemma present_app {A B} (f : A -> option B) l1 l2 :
  present f (l1 ++ l2) = present f l1 ++ present f l2.
Proof.
  induction l1 as [|x l1 IH]; simpl; [reflexivity|].
  destruct (f x); simpl; now rewrite IH.
Qed.

Lemma each_present {A} (l : list A) (body : A -> chan -> chan)
  (f : A -> option structField) :
  (forall x out, body x out = match f x with Some y => send y out | None => out end) ->
  forall out, each l body out = out ++ present f l.
Proof.
  intros Hb. induction l as [|x l IH]; intros out; simpl.
  - now rewrite app_nil_r.
  - rewrite IH, Hb. destruct (f x); [|reflexivity].
    unfold send. now rewrite <- app_assoc.
Qed.

Section GogenFacts.
Context `{GogenLib}.

Lemma entityPropertiesGenerator_eq t : entityPropertiesGenerator t = entityFields t.
Proof.
  unfold entityPropertiesGenerator, entityFields, relationshipFields.
  rewrite (each_present _ _ (manyToManyField t)).
  2:{ intros r out. unfold manyToManyField. destruct (r_Type r); try reflexivity.
      destruct (Pos.eqb _ _); [reflexivity|]. now destruct (Pos.eqb _ _). }
  rewrite (each_present _ _ inversedField).
  2:{ intros r out. unfold inversedField. now destruct (r_Type r). }
  rewrite (each_present _ _ ownedField).
  2:{ intros r out. unfold ownedField. now destruct (r_Type r). }
  rewrite (each_present _ _ columnField).
  2:{ intros c out. unfold columnField, columnFieldOf.
      now destruct (String.eqb (columnType c ModeDefault) "<nil>"). }
  simpl. now rewrite <- !app_assoc.
Qed.

Lemma present_all {A B} (f : A -> option B) (g : A -> B) l :
  Forall (fun x => f x = Some (g x)) l -> present f l = map g l.
Proof.
  induction 1 as [|x l Hx _ IH]; simpl; [reflexivity|]. now rewrite Hx, IH.
Qed.

(** The claim C5, amended: the fields of a table's entity are, in this
    order, one field per column whose type has a representation (the
    column type is not ["<nil>"]) in declared order, then the fields of the
    owned, of the inversed and of the many-to-many relationships, each
    group in schema order; a single-valued field is named after the other
    table and a collection-valued one after the other table with an [s]
    appended, unless the override name of that side is set, which then is
    the name.  When every column type has a representation there is one
    field per column. *)
Theorem entity_fields (t : Table) :
  entityPropertiesGenerator t
  = present columnField (t_Columns t)
    ++ present ownedField (t_OwnedRelationships t)
    ++ present inversedField (t_InversedRelationships t)
    ++ present (manyToManyField t) (t_ManyToManyRelationships t)
  /\ (Forall (fun c => columnType c ModeDefault <> "<nil>"%string) (t_Columns t) ->
      entityPropertiesGenerator t = entityFieldsPerColumn t)
  /\ (forall c, columnField c =
        if String.eqb (columnType c ModeDefault) "<nil>" then None
        else Some {| Name := Public (col_Name c); Type_ := columnType c ModeDefault;
                     Tags := EmptyString; ReadOnly := col_IsDynamic c |})
  /\ (forall r other,
        other = ref_Name (r_InversedTable r) ->
        ownedField r =
          match r_Type r with
          | RelationshipTypeOneToMany =>
              Some (collection (or (r_InversedName r) (other +:+ "s")) other)
          | RelationshipTypeOneToOne | RelationshipTypeManyToOne =>
              Some (single (or (r_InversedName r) other) other)
          | _ => None
          end)
  /\ (forall r other,
        other = ref_Name (r_OwnerTable r) ->
        inversedField r =
          match r_Type r with
          | RelationshipTypeOneToMany | RelationshipTypeOneToOne =>
              Some (single (or (r_OwnerName r) other) other)
          | RelationshipTypeManyToOne =>
              Some (collection (or (r_OwnerName r) (other +:+ "s")) other)
          | _ => None
          end)
  /\ (forall r,
        r_Type r = RelationshipTypeManyToMany ->
        (ref_addr (r_OwnerTable r) = t_addr t ->
         manyToManyField t r
         = Some (collection (or (r_InversedName r) (ref_Name (r_InversedTable r) +:+ "s"))
                   (ref_Name (r_InversedTable r))))
        /\ (ref_addr (r_OwnerTable r) <> t_addr t ->
            ref_addr (r_InversedTable r) = t_addr t ->
            manyToManyField t r
            = Some (collection (or (r_OwnerName r) (ref_Name (r_OwnerTable r) +:+ "s"))
                      (ref_Name (r_OwnerTable r)))))
  /\ (forall override default,
        (override <> EmptyString -> or override default = override)
        /\ (override = EmptyString -> or override default = default))
  /\ (forall name typeOf,
        Name (single name typeOf) = Public name
        /\ Type_ (single name typeOf) = "*" +:+ Public typeOf +:+ "Entity"
        /\ Name (collection name typeOf) = Public name
        /\ Type_ (collection name typeOf) = "[]*" +:+ Public typeOf +:+ "Entity").
Proof.
  split; [rewrite entityPropertiesGenerator_eq; reflexivity|].
  split.
  { intros Hall. rewrite entityPropertiesGenerator_eq.
    unfold entityFields, entityFieldsPerColumn. f_equal.
    apply present_all. eapply Forall_impl; [exact Hall|].
    intros c Hc. unfold columnField.
    destruct (String.eqb_spec (columnType c ModeDefault) "<nil>"); congruence. }
  split; [reflexivity|].
  split; [intros r other ->; reflexivity|].
  split; [intros r other ->; reflexivity|].
  split.
  { intros r Hty. unfold manyToManyField. rewrite Hty. split.
    - intros Ho. apply Pos.eqb_eq in Ho. now rewrite Ho.
    - intros Ho Hi. apply Pos.eqb_neq in Ho. apply Pos.eqb_eq in Hi.
      now rewrite Ho, Hi. }
  split.
  { intros override default. unfold or. split.
    - intros Ho. destruct override; [congruence|reflexivity].
    - intros ->. reflexivity. }
  intros name typeOf. repeat split.
Qed.

End GogenFacts.

(** ** The producer and the consumer of the entity fields *)

Module ChannelFacts.
Import Channel.

Lemma step_inv fields st st' : step st st' -> inv fields st -> inv fields st'.
Proof.
  unfold inv. destruct 1; simpl; intros <-; try reflexivity.
  now rewrite <- app_assoc.
Qed.

Lemma steps_inv fields st st' : steps st st' -> inv fields st -> inv fields st'.
Proof. induction 1; eauto using step_inv. Qed.

Lemma steps_trans st1 st2 st3 : steps st1 st2 -> steps st2 st3 -> steps st1 st3.
Proof. induction 1; eauto using steps. Qed.


Lemma run_to_end fields got :
  steps {| todo := fields; offered := None; received := got; busy := false; closed := false |}
        {| todo := []; offered := None; received := got ++ fields; busy := false; closed := true |}.
Proof.
  revert got. induction fields as [|x rest IH]; intros got.
  - rewrite app_nil_r. eapply steps_cons; [apply step_close|apply steps_refl].
  - eapply steps_cons; [apply step_offer|].
    eapply steps_cons; [apply step_take|].
    eapply steps_cons; [apply step_body|].
    replace (got ++ x :: rest) with ((got ++ [x]) ++ rest) by now rewrite <- app_assoc.
    apply IH.
Qed.


(** The two threads can be scheduled in more than one way. *)
Lemma two_schedules x rest got :
  let st := {| todo := x :: rest; offered := None; received := got;
               busy := true; closed := false |} in
  exists st1 st2, step st st1 /\ step st st2 /\ st1 <> st2.
Proof.
  simpl. do 2 eexists. split; [apply step_offer|]. split; [apply step_body|].
  discriminate.
Qed.

End ChannelFacts.

(** ** The criteria combinator *)

Module CriteriaFacts.
Import Criteria.

Section WithFilters.
Variable Filters : Type.
Variable noFilters : Filters.

Local Abbreviation node := (node Filters).
Local Abbreviation heap := (gmap loc node).
Local Abbreviation linked := (linked Filters).

Lemma linkOperands_spec parentPtr (ls : list loc) :
  NoDup ls ->
  forall n i (h : heap),
    (n + i = length ls)%nat ->
    (forall l, l ∈ ls -> is_Some (h !! l)) ->
    exists h',
      linkOperands _ parentPtr (Some <$> ls) n i h = Returns h'
      /\ (forall l, l ∉ drop i ls -> h' !! l = h !! l)
      /\ (forall j l nd, (i <= j)%nat -> ls !! j = Some l -> h !! l = Some nd ->
            h' !! l = Some (linked parentPtr ls j nd)).
Proof.
  intros Hnd. induction n as [|n IH]; intros i h Hlen Hdom.
  - exists h. split; [reflexivity|]. split; [auto|].
    intros j l nd Hj Hl. apply lookup_lt_Some in Hl. lia.
  - assert (Hi : (i < length ls)%nat) by lia.
    destruct (lookup_lt_is_Some_2 ls i Hi) as [l Hl].
    destruct (Hdom l) as [nd Hnode]; [eapply list_elem_of_lookup_2; eauto|].
    set (nd' := linked parentPtr ls i nd).
    assert (Hstep :
      linkOperands _ parentPtr (Some <$> ls) (S n) i h
      = linkOperands _ parentPtr (Some <$> ls) n (S i) (<[l := nd']> h)).
    { simpl. rewrite list_lookup_fmap, Hl. simpl. rewrite length_fmap.
      unfold nd', linked.
      destruct (Nat.ltb_spec i (length ls - 1)) as [Hlt|Hge].
      - assert (Hnext : (S i < length ls)%nat) by lia.
        destruct (lookup_lt_is_Some_2 ls (S i) Hnext) as [l2 Hl2].
        rewrite list_lookup_fmap, Hl2. simpl.
        rewrite Hnode, lookup_insert_eq, insert_insert_eq. reflexivity.
      - rewrite Hnode. destruct nd; reflexivity. }
    destruct (IH (S i) (<[l := nd']> h)) as (h' & Hrun & Hout & Hin); [lia| |].
    { intros l0 Hl0. destruct (decide (l = l0)) as [->|Hne].
      - rewrite lookup_insert_eq. eauto.
      - rewrite lookup_insert_ne by exact Hne. auto. }
    assert (Hfresh : l ∉ drop (S i) ls).
    { intros Hmem. apply list_elem_of_lookup in Hmem as [k Hk].
      rewrite lookup_drop in Hk.
      pose proof (NoDup_lookup ls _ _ l Hnd Hl Hk). lia. }
    exists h'. split; [now rewrite Hstep|]. split.
    + intros l0 Hl0.
      assert (Hne : l <> l0).
      { intros ->. apply Hl0. apply list_elem_of_lookup. exists 0%nat.
        rewrite lookup_drop, Nat.add_0_r. exact Hl. }
      rewrite Hout, lookup_insert_ne; auto.
      intros Hmem. apply Hl0. apply list_elem_of_lookup in Hmem as [k Hk].
      apply list_elem_of_lookup. exists (S k).
      rewrite lookup_drop in Hk |- *. now replace (i + S k)%nat with (S i + k)%nat by lia.
    + intros j l0 nd0 Hj Hl0 Hnode0.
      destruct (decide (j = i)) as [->|Hji].
      * assert (l0 = l) by congruence. subst l0.
        assert (nd0 = nd) by congruence. subst nd0.
        rewrite Hout by exact Hfresh. now rewrite lookup_insert_eq.
      * assert (Hne : l <> l0).
        { intros ->. pose proof (NoDup_lookup ls _ _ l0 Hnd Hl Hl0). lia. }
        apply Hin; [lia|exact Hl0|]. now rewrite lookup_insert_ne.
Qed.

Lemma Operand_cons op first rest (h : heap) :
  Operand _ noFilters op (first :: rest) h =
    let '(h, parentPtr) :=
      alloc _ {| filters := noFilters; operator := op; child := first;
                 sibling := None; parent := None |} h in
    match linkOperands _ parentPtr (first :: rest) (length (first :: rest)) 0 h with
    | Panics => Panics
    | Returns h => Returns (h, parentPtr)
    end.
Proof. reflexivity. Qed.

(** The claim C6, amended: applied to an operator and to N >= 1 operand
    nodes that are distinct (and present in memory), the constructor returns
    a new node that holds the operator and has the first operand as its
    child; every operand but the last gets the next operand as its sibling;
    the sibling of the last operand is not assigned, so it is what it was
    before the call (unset for a fresh leaf, but not for a node that an
    earlier call has linked); every operand gets the new node as its parent,
    and nothing else changes. *)
Theorem Operand_links (op : string) (ls : list loc) (h : heap) :
  ls <> [] ->
  NoDup ls ->
  (forall l, l ∈ ls -> is_Some (h !! l)) ->
  exists h' p,
    Operand _ noFilters op (Some <$> ls) h = Returns (h', p)
    /\ h !! p = None
    /\ h' !! p = Some {| filters := noFilters; operator := op; child := ls !! 0%nat;
                         sibling := None; parent := None |}
    /\ (forall i l nd, ls !! i = Some l -> h !! l = Some nd ->
          exists nd',
            h' !! l = Some nd'
            /\ parent _ nd' = Some p
            /\ ((i < length ls - 1)%nat -> sibling _ nd' = ls !! S i /\ is_Some (ls !! S i))
            /\ (i = (length ls - 1)%nat -> sibling _ nd' = sibling _ nd)
            /\ operator _ nd' = operator _ nd
            /\ child _ nd' = child _ nd
            /\ filters _ nd' = filters _ nd)
    /\ (forall l, l ∉ ls -> l <> p -> h' !! l = h !! l).
Proof.
  intros Hne Hnd Hdom.
  destruct ls as [|first rest]; [congruence|].
  set (ls := first :: rest) in *.
  set (p := fresh (dom h)).
  assert (Hp : h !! p = None).
  { apply not_elem_of_dom. apply is_fresh. }
  set (pn := {| filters := noFilters; operator := op; child := Some first;
                sibling := None; parent := None |} : node).
  assert (Hpls : p ∉ ls).
  { intros Hmem. destruct (Hdom p Hmem) as [x Hx]. congruence. }
  destruct (linkOperands_spec p ls Hnd (length ls) 0 (<[p := pn]> h))
    as (h' & Hrun & Hout & Hin); [lia| |].
  { intros l Hl. rewrite lookup_insert_ne; [auto|]. intros ->. contradiction. }
  exists h', p. split.
  { change (Some <$> ls) with (Some first :: (Some <$> rest)).
    rewrite Operand_cons.
    change (Some first :: (Some <$> rest)) with (Some <$> ls).
    unfold alloc. fold p. fold pn. cbv zeta.
    rewrite length_fmap, Hrun. reflexivity. }
  split; [exact Hp|]. split.
  { rewrite Hout by (rewrite drop_0; exact Hpls).
    now rewrite lookup_insert_eq. }
  split.
  - intros i l nd Hl Hnode.
    assert (Hlp : p <> l).
    { intros <-. apply Hpls. eapply list_elem_of_lookup_2; eauto. }
    exists (linked p ls i nd). split.
    { apply Hin; [lia|exact Hl|]. now rewrite lookup_insert_ne. }
    unfold linked. simpl. repeat split.
    + destruct (Nat.ltb_spec i (length rest - 0)); [reflexivity|lia].
    + apply lookup_lt_is_Some_2. simpl in *. lia.
    + intros ->. destruct (Nat.ltb_spec (length rest - 0) (length rest - 0));
        [lia|reflexivity].
  - intros l Hl Hlp. rewrite Hout by (rewrite drop_0; exact Hl).
    now rewrite lookup_insert_ne.
Qed.

End WithFilters.
End CriteriaFacts.

(** ** Determinism *)

Section Determinism.
Context `{PqtLib} `{GogenLib}.


End Determinism.

(** ** The emitters on concrete schemas *)

Module Examples.
Import Sample.

(** The claim C2 at a table whose last declared column is dynamic and which
    has no inline constraint: the line of the last column written ends with
    a comma, where the specification has none. *)
Theorem dynamic_last_column_comma :
  last (t_Columns authorDynamicLast) = Some booksColumn
  /\ col_IsDynamic booksColumn = true
  /\ inlineCount authorDynamicLast = 0
  /\ generateCreateTable pg95 EmptyString (Some authorDynamicLast)
     = ("CREATE TABLE author (" +:+ LF +:+ TAB +:+ "id BIGSERIAL," +:+ LF +:+ ");" +:+ LF,
        Some authorDynamicLast, None)
  /\ tableBlockAsSpecified authorDynamicLast
     = "CREATE TABLE author (" +:+ LF +:+ TAB +:+ "id BIGSERIAL" +:+ LF +:+ ");" +:+ LF.
Proof. repeat split; vm_compute; reflexivity. Qed.

(** The claim C10 at a schema whose first table entry is nil: the nil
    function is skipped and [generateCreateTable] returns without an error,
    but [generate] then evaluates [t.Constraints] and the run panics. *)
Theorem nil_table_panics :
  s_Tables withNilTable = [None; Some author]
  /\ s_Functions withNilTable = [None]
  /\ range (s_Functions withNilTable) (generateCreateFunction pg95) banner
     = (banner, None)
  /\ generateCreateTable pg95 banner None = (banner, None, None)
  /\ (generate pg95 withNilTable).2 = Panics
  /\ (Generate pg95 withNilTable).2 = Panics.
Proof. repeat split; vm_compute; reflexivity. Qed.

(** C7 as stated fails: a schema without a name is generated. *)
Lemma unnamed_schema_generated :
  s_Name unnamed = EmptyString
  /\ (Generate pg95 unnamed).2 = Returns (Some banner, None).
Proof. split; vm_compute; reflexivity. Qed.

(** C8 as stated fails: a relationship without owner columns adds its
    foreign key to the working list. *)
Lemma detached_foreign_key_added :
  w_elems (workingSlice bookDetached)
  <> elems (t_Constraints bookDetached)
     ++ compositeForeignKeys (t_OwnedRelationships bookDetached).
Proof. vm_compute. discriminate. Qed.

(** C5 as stated fails: a column whose type has no representation gets no
    field. *)
Lemma custom_column_without_field :
  entityPropertiesGenerator authorCustom <> entityFieldsPerColumn authorCustom.
Proof. vm_compute. discriminate. Qed.

(** C6 as stated fails: the constructor never resets the sibling of its
    last operand.  A node that was linked by [And] keeps its sibling when it
    is the only operand of [Or]; an operand given twice becomes its own
    sibling; and an operand that occurs again later in the list ends with
    the sibling of its later occurrence. *)
Lemma last_operand_sibling_kept :
  match Criteria.And unit tt [Some 1; Some 2]%positive threeLeaves with
  | Returns (h, _) =>
      match Criteria.Or unit tt [Some 1%positive] h with
      | Returns (h', p) =>
          (Criteria.sibling _ <$> h' !! 1%positive) = Some (Some 2%positive)
          /\ (Criteria.parent _ <$> h' !! 1%positive) = Some (Some p)
          /\ (Criteria.child _ <$> h' !! p) = Some (Some 1%positive)
      | Panics => False
      end
  | Panics => False
  end
  /\ match Criteria.And unit tt [Some 1; Some 1]%positive threeLeaves with
     | Returns (h, _) =>
         (Criteria.sibling _ <$> threeLeaves !! 1%positive) = Some None
         /\ (Criteria.sibling _ <$> h !! 1%positive) = Some (Some 1%positive)
     | Panics => False
     end
  /\ match Criteria.And unit tt [Some 1; Some 2; Some 1; Some 3]%positive threeLeaves with
     | Returns (h, _) =>
         (Criteria.sibling _ <$> h !! 1%positive) = Some (Some 3%positive)
     | Panics => False
     end.
Proof. vm_compute. repeat split. Qed.

(** *** The theorems at concrete inputs *)


Lemma index_version_gate_author :
  whereClause nameUniqueIndex = " WHERE " +:+ c_Where nameUniqueIndex
  /\ generate pg95 library = generate {| Version := 10%float |} library.
Proof.
  destruct (index_version_gate nameUniqueIndex 9.5%float EmptyString)
    as (_ & _ & _ & _ & Hw & _ & Hg & _).
  split.
  - apply Hw. discriminate.
  - apply Hg. vm_compute. reflexivity.
Defined.

Lemma foreignKey_rendering_book :
  foreignKeyConstraintQuery bookAuthorKey EmptyString
  = (EmptyString +:+ foreignKeyText bookAuthorKey authorRef, None).
Proof.
  apply (proj1 (foreignKey_rendering bookAuthorKey EmptyString));
    [discriminate | discriminate | reflexivity].
Defined.

Lemma entity_fields_author :
  entityPropertiesGenerator author = entityFieldsPerColumn author.
Proof.
  apply (proj1 (proj2 (entity_fields author))).
  repeat constructor; vm_compute; discriminate.
Defined.

Lemma generation_failures_shelf :
  exists e, (Generate pg95 withEmptyTable).2 = Returns (None, Some e)
            /\ describedError e.
Proof.
  apply (proj1 (generation_failures pg95 withEmptyTable)).
  - repeat constructor; discriminate.
  - right. apply Exists_cons_tl, Exists_cons_hd.
    eexists. split; [reflexivity|]. right. left. reflexivity.
Defined.

Lemma working_constraints_author :
  w_elems (workingSlice author) = elems (t_Constraints author).
Proof.
  apply (proj1 (proj2 (proj2 (proj2 (working_constraints pg95 EmptyString author))))).
  constructor.
Defined.


Lemma Operand_links_three_leaves :
  exists h' p,
    Criteria.Operand unit tt "AND" (Some <$> [1; 2; 3]%positive) threeLeaves
    = Returns (h', p)
    /\ threeLeaves !! p = None
    /\ h' !! p = Some {| Criteria.filters := tt; Criteria.operator := "AND";
                         Criteria.child := Some 1%positive;
                         Criteria.sibling := None; Criteria.parent := None |}
    /\ (forall i l nd, [1; 2; 3]%positive !! i = Some l -> threeLeaves !! l = Some nd ->
          exists nd',
            h' !! l = Some nd'
            /\ Criteria.parent _ nd' = Some p
            /\ ((i < 3 - 1)%nat ->
                Criteria.sibling _ nd' = [1; 2; 3]%positive !! S i
                /\ is_Some ([1; 2; 3]%positive !! S i))
            /\ (i = (3 - 1)%nat -> Criteria.sibling _ nd' = Criteria.sibling _ nd)
            /\ Criteria.operator _ nd' = Criteria.operator _ nd
            /\ Criteria.child _ nd' = Criteria.child _ nd
            /\ Criteria.filters _ nd' = Criteria.filters _ nd)
    /\ (forall l, l ∉ [1; 2; 3]%positive -> l <> p -> h' !! l = threeLeaves !! l).
Proof.
  apply (CriteriaFacts.Operand_links unit tt "AND" [1; 2; 3]%positive threeLeaves).
  - discriminate.
  - apply NoDup_ListNoDup. repeat constructor; simpl; intuition discriminate.
  - intros l Hl. apply list_elem_of_In in Hl. simpl in Hl.
    destruct Hl as [<-|[<-|[<-|[]]]]; vm_compute; eauto.
Defined.

(** Three leaves combined with AND, as the specification has it. *)
Example and_of_three_leaves :
  match Criteria.And unit tt [Some 1; Some 2; Some 3]%positive threeLeaves with
  | Returns (h, p) =>
      (Criteria.child _ <$> h !! p) = Some (Some 1%positive)
      /\ (Criteria.sibling _ <$> h !! 1%positive) = Some (Some 2%positive)
      /\ (Criteria.sibling _ <$> h !! 2%positive) = Some (Some 3%positive)
      /\ (Criteria.sibling _ <$> h !! 3%positive) = Some None
      /\ (Criteria.parent _ <$> h !! 1%positive) = Some (Some p)
      /\ (Criteria.parent _ <$> h !! 2%positive) = Some (Some p)
      /\ (Criteria.parent _ <$> h !! 3%positive) = Some (Some p)
  | Panics => False
  end.
Proof. vm_compute. repeat split. Qed.

End Examples.

(** * Further properties *)

Section MorePqtsql.
Context `{PqtLib}.

(** ** What a table's pass writes into the constraint array *)

Lemma go_append_unshared w x :
  w_shared w = false ->
  w_shared (go_append w x) = false /\ w_array (go_append w x) = w_array w.
Proof. intros E. unfold go_append. rewrite E. simpl. auto. Qed.

Lemma appendOwnerForeignKeys_unshared rs w :
  w_shared w = false -> w_array (appendOwnerForeignKeys rs w) = w_array w.
Proof.
  revert w. induction rs as [|r rs IH]; intros w E; simpl; [reflexivity|].
  destruct (length (r_OwnerColumns r) =? 1)%nat; [auto|].
  destruct (r_OwnerForeignKey r) as [fk|]; [|auto].
  destruct (go_append_unshared w fk E) as [E1 E2]. now rewrite IH, E2.
Qed.

Lemma ownerForeignKeys_cons r rs :
  ownerForeignKeys (r :: rs) =
    if (length (r_OwnerColumns r) =? 1)%nat then ownerForeignKeys rs
    else match r_OwnerForeignKey r with
         | Some fk => fk :: ownerForeignKeys rs
         | None => ownerForeignKeys rs
         end.
Proof.
  simpl. destruct (r_OwnerForeignKey r), (length (r_OwnerColumns r) =? 1)%nat;
    reflexivity.
Qed.

Lemma appendOwnerForeignKeys_spare rs :
  forall w k,
    w_shared w = true ->
    length (w_elems w) = (length (elems (w_array w)) + k)%nat ->
    forall j,
      (j < length (spare (w_array w)))%nat ->
      spare (w_array (appendOwnerForeignKeys rs w)) !! j =
        if (k <=? j)%nat
        then match ownerForeignKeys rs !! (j - k)%nat with
             | Some fk => Some (Some fk)
             | None => spare (w_array w) !! j
             end
        else spare (w_array w) !! j.
Proof.
  induction rs as [|r rs IH]; intros w k Hs Hlen j Hj.
  - simpl. now destruct (k <=? j)%nat.
  - rewrite ownerForeignKeys_cons. simpl.
    destruct (length (r_OwnerColumns r) =? 1)%nat; [now apply IH|].
    destruct (r_OwnerForeignKey r) as [fk|]; [|now apply IH].
    destruct (Nat.ltb_spec k (length (spare (w_array w)))) as [Hk|Hk].
    + assert (Hw : go_append w fk =
                   {| w_array := {| elems := elems (w_array w);
                                    spare := <[k := Some fk]> (spare (w_array w)) |};
                      w_elems := w_elems w ++ [fk]; w_shared := true |}).
      { unfold go_append, cap, array_store. rewrite Hs, Hlen. simpl.
        destruct (Nat.ltb_spec (length (elems (w_array w)) + k)
                    (length (elems (w_array w)) + length (spare (w_array w))));
          [|lia].
        destruct (Nat.ltb_spec (length (elems (w_array w)) + k)
                    (length (elems (w_array w)))); [lia|].
        now replace (length (elems (w_array w)) + k - length (elems (w_array w)))%nat
          with k by lia. }
      rewrite Hw. rewrite (IH _ (S k)); cbn [w_array w_elems w_shared spare elems];
        [ | reflexivity | rewrite length_app; simpl; lia | now rewrite length_insert ].
      destruct (Nat.leb_spec (S k) j) as [H1|H1], (Nat.leb_spec k j) as [H2|H2];
        try lia.
      * replace (j - k)%nat with (S (j - S k)) by lia. cbn [lookup list_lookup].
        now rewrite list_lookup_insert_ne by lia.
      * assert (j = k) by lia. subst j. rewrite Nat.sub_diag. cbn [lookup list_lookup].
        now rewrite list_lookup_insert_eq by lia.
      * now rewrite list_lookup_insert_ne by lia.
    + assert (Hw : w_shared (go_append w fk) = false
                   /\ w_array (go_append w fk) = w_array w).
      { unfold go_append, cap. rewrite Hs, Hlen. simpl.
        destruct (Nat.ltb_spec (length (elems (w_array w)) + k)
                    (length (elems (w_array w)) + length (spare (w_array w))));
          [lia|]. simpl. auto. }
      destruct Hw as [Hu Ha].
      rewrite (appendOwnerForeignKeys_unshared _ _ Hu), Ha.
      destruct (Nat.leb_spec k j); [lia|reflexivity].
Qed.

Lemma workingSlice_cells (t : Table) (j : nat) :
  (j < length (spare (t_Constraints t)))%nat ->
  spare (w_array (workingSlice t)) !! j =
    match ownerForeignKeys (t_OwnedRelationships t) !! j with
    | Some fk => Some (Some fk)
    | None => spare (t_Constraints t) !! j
    end.
Proof.
  intros Hj. unfold workingSlice.
  rewrite (appendOwnerForeignKeys_spare _ _ 0%nat); simpl; auto.
  now rewrite Nat.sub_0_r.
Qed.

(** X1: The pass of a table leaves the elements of its constraint slice alone
    and writes the synthesized foreign keys into the spare cells of the
    backing array, the [j]-th key into the [j]-th spare cell as long as
    there is one; a slice without spare capacity, or a table without
    synthesized keys, is left exactly as it was. *)
Theorem workingSlice_store (t : Table) :
  elems (w_array (workingSlice t)) = elems (t_Constraints t)
  /\ length (spare (w_array (workingSlice t))) = length (spare (t_Constraints t))
  /\ (forall j,
        (j < length (spare (t_Constraints t)))%nat ->
        spare (w_array (workingSlice t)) !! j =
          match ownerForeignKeys (t_OwnedRelationships t) !! j with
          | Some fk => Some (Some fk)
          | None => spare (t_Constraints t) !! j
          end)
  /\ (spare (t_Constraints t) = [] \/ ownerForeignKeys (t_OwnedRelationships t) = [] ->
      w_array (workingSlice t) = t_Constraints t).
Proof.
  destruct (workingSlice_array t) as [E1 E2].
  pose proof (workingSlice_cells t) as Hcells.
  repeat split; auto.
  intros Hor.
  assert (Hsp : spare (w_array (workingSlice t)) = spare (t_Constraints t)).
  { apply list_eq. intros j.
    destruct (Nat.lt_ge_cases j (length (spare (t_Constraints t)))) as [Hj|Hj].
    - rewrite (Hcells j Hj). destruct Hor as [Hn|Hn].
      + rewrite Hn in Hj. simpl in Hj. lia.
      + now rewrite Hn.
    - rewrite !lookup_ge_None_2; auto. lia. }
  destruct (w_array (workingSlice t)) as [e sp], (t_Constraints t) as [e0 sp0].
  simpl in *. congruence.
Qed.

Lemma workingSlice_again t :
  w_array (workingSlice (set_Constraints t (w_array (workingSlice t))))
  = w_array (workingSlice t).
Proof.
  set (t1 := set_Constraints t (w_array (workingSlice t))).
  destruct (workingSlice_array t) as [E1 L1].
  destruct (workingSlice_array t1) as [E2 L2].
  pose proof (workingSlice_cells t) as C1.
  pose proof (workingSlice_cells t1) as C2.
  assert (Hsp : spare (w_array (workingSlice t1)) = spare (w_array (workingSlice t))).
  { apply list_eq. intros j. simpl in L2, C2.
    destruct (Nat.lt_ge_cases j (length (spare (t_Constraints t)))) as [Hj|Hj].
    - rewrite C2 by lia. simpl. rewrite (C1 j Hj).
      now destruct (ownerForeignKeys (t_OwnedRelationships t) !! j).
    - rewrite !lookup_ge_None_2; auto; lia. }
  simpl in E2.
  destruct (w_array (workingSlice t1)) as [e sp], (w_array (workingSlice t)) as [e0 sp0].
  simpl in *. congruence.
Qed.

(** X2: A second pass over a table leaves it exactly as the first pass left
    it, whatever the buffers. *)
Theorem generateCreateTable_idempotent (g : Generator) (buf1 buf2 : Buffer)
  (t t1 : Table) :
  (generateCreateTable g buf1 (Some t)).1.2 = Some t1 ->
  (generateCreateTable g buf2 (Some t1)).1.2 = Some t1.
Proof.
  unfold generateCreateTable.
  destruct (negb (nonempty (t_Name t))) eqn:En.
  { intros [= <-]. now rewrite En. }
  destruct (length (t_Columns t) =? 0)%nat eqn:Ec.
  { intros [= <-]. now rewrite En, Ec. }
  destruct (createTableBody g t (w_elems (workingSlice t)) buf1) as [b e].
  intros [= <-]. simpl. rewrite En, Ec.
  destruct (createTableBody g _ _ buf2) as [b' e']. simpl.
  rewrite workingSlice_again. reflexivity.
Qed.

(** ** Which error a table and a schema give *)

Lemma constraintFault_renderable c :
  constraintFault c = None <-> renderable c = true.
Proof.
  unfold constraintFault, renderable.
  destruct (c_Type c); try (split; congruence).
  destruct (c_PrimaryColumns c), (c_Columns c), (c_Table c); split; congruence.
Qed.

Lemma err_generateConstraint g c : err (generateConstraint g c) = constraintFault c.
Proof.
  destruct (constraintFault c) as [e|] eqn:Ef.
  - unfold constraintFault in Ef. unfold generateConstraint, foreignKeyConstraintQuery.
    destruct (c_Type c); try discriminate; try (injection Ef as <-; reflexivity).
    destruct (c_PrimaryColumns c), (c_Columns c), (c_Table c); try discriminate;
      injection Ef as <-; reflexivity.
  - apply constraintFault_renderable in Ef.
    now destruct (writes_text _ _ (generateConstraint_writes g c Ef)) as (_ & E & _).
Qed.

Lemma err_constraintLines g nb cs i : err (constraintLines g nb i cs) = firstFault cs.
Proof.
  revert i. induction cs as [|c cs IH]; intros i; [reflexivity|].
  cbn [constraintLines firstFault].
  pose proof (appends_constraintLines g nb cs (i + 1)) as Hrest.
  pose proof (appends_generateConstraint g c) as Hg.
  destruct (isIndexType (c_Type c)) eqn:Ei.
  - rewrite IH. apply isIndexType_renderable, constraintFault_renderable in Ei.
    now rewrite Ei.
  - rewrite (err_seq_writes _ _ _ (writes_WriteString TAB)) by auto 10 with emit.
    destruct (constraintFault c) as [e|] eqn:Ef.
    + apply err_seq_fail; auto 10 with emit. now rewrite err_generateConstraint.
    + apply constraintFault_renderable in Ef.
      rewrite (err_seq_writes _ _ _ (generateConstraint_writes g c Ef))
        by auto 10 with emit.
      destruct (i <? nb - 1); unfold when;
        repeat (erewrite err_seq_writes; [ | solve [writes] | solve [auto 10 with emit] ]);
        apply IH.
Qed.

Lemma appends_createTableBody g t cs : appends (createTableBody g t cs).
Proof.
  unfold createTableBody.
  repeat (apply appends_seq);
    auto using appends_constraintLines, appends_columnLine with emit.
  destruct (t_Schema t); auto with emit.
Qed.

Lemma err_createTableBody g t cs : err (createTableBody g t cs) = firstFault cs.
Proof.
  unfold createTableBody.
  set (nb := CountOf cs _).
  pose proof (appends_constraintLines g nb cs 0).
  pose proof (columns_writes (Z.of_nat (length (t_Columns t))) nb (t_Columns t) 0) as Hcols.
  pose proof (appends_columnLine (Z.of_nat (length (t_Columns t))) nb).
  pose proof (err_constraintLines g nb cs 0) as Ecs.
  destruct (t_Temporary t), (t_IfNotExists t), (t_Schema t), (0 <? nb);
    unfold when;
    repeat (erewrite err_seq_writes;
            [ | first [exact Hcols | solve [writes]] | solve [auto 10 with emit] ]);
    (destruct (firstFault cs) as [e|];
     [ apply err_seq_fail; auto with emit
     | rewrite err_seq; auto with emit ]).
Qed.

Lemma err_generateCreateTable (g : Generator) (buf : Buffer) (t : Table) :
  (generateCreateTable g buf (Some t)).2 = tableFaultMessage t.
Proof.
  unfold generateCreateTable, tableFaultMessage.
  destruct (negb (nonempty (t_Name t))); [reflexivity|].
  destruct (length (t_Columns t) =? 0)%nat; [reflexivity|].
  rewrite (appends_createTableBody g t _ buf). simpl.
  apply err_createTableBody.
Qed.

(** X3: The error of a table's pass is the first of: the missing name, the
    missing columns, the fault of the first faulty constraint in the order of
    the working list (declared constraints, then synthesized foreign keys).
    An Exclusion constraint and a constraint of an unknown type are faults,
    as is a foreign key without local columns, without referenced columns
    or without referenced table, in this order of precedence. *)
Theorem generateCreateTable_error (g : Generator) (buf : Buffer) (t : Table) :
  (generateCreateTable g buf (Some t)).2 = tableFaultMessage t.
Proof. apply err_generateCreateTable. Qed.

Lemma firstFault_renderable cs :
  firstFault cs = None <-> forallb renderable cs = true.
Proof.
  induction cs as [|c cs IH]; simpl; [tauto|].
  destruct (constraintFault c) as [e|] eqn:Ef.
  - assert (renderable c = false).
    { destruct (renderable c) eqn:Er; [|reflexivity].
      apply constraintFault_renderable in Er. congruence. }
    rewrite H0. simpl. split; congruence.
  - apply constraintFault_renderable in Ef. rewrite Ef. simpl. exact IH.
Qed.

Lemma tableFaultMessage_ok t : tableFaultMessage t = None <-> tableOk t = true.
Proof.
  unfold tableFaultMessage, tableOk.
  destruct (nonempty (t_Name t)); simpl; [|split; congruence].
  destruct (length (t_Columns t) =? 0)%nat; simpl; [split; congruence|].
  apply firstFault_renderable.
Qed.

Lemma generateTables_outcome g ts code :
  match tablesOutcome ts, (generateTables g ts code).2 with
  | Panics, Panics => True
  | Returns (Some e), Returns (_, Some e') => e' = e
  | Returns None, Returns (code', None) =>
      code' = code +:+ concat_strings (map (tableSection g) ts)
  | _, _ => False
  end.
Proof.
  revert code. induction ts as [|t ts IH]; intros code.
  - simpl. now rewrite append_empty_r.
  - rewrite generateTables_cons. destruct t as [t|]; [|exact I].
    cbn [tablesOutcome].
    pose proof (err_generateCreateTable g code t) as Ee.
    destruct (tableFaultMessage t) as [e|] eqn:Ef.
    + destruct (generateCreateTable g code (Some t)) as [[b t'] e0].
      simpl in Ee. subst e0. now destruct t'.
    + apply tableFaultMessage_ok in Ef.
      rewrite (generateCreateTable_ok g code t Ef).
      cbn [t_Constraints set_Constraints]. destruct (workingSlice_array t) as [-> _].
      rewrite indexStatements_eq. unfold Fprintln.
      match goal with |- context [generateTables g ts ?c] =>
        specialize (IH c); destruct (generateTables g ts c) as [rest r] end.
      cbn [snd] in *.
      destruct (tablesOutcome ts) as [[e|]|], r as [[c' [e'|]]|]; try assumption.
      subst c'. cbn [map concat_strings tableSection]. now normalize_append.
Qed.


Lemma tablesOutcome_error ts e :
  tablesOutcome ts = Returns (Some e)
  <-> exists ts1 t ts2,
        ts = ts1 ++ Some t :: ts2 /\ forallb tableEntryOk ts1 = true
        /\ tableFaultMessage t = Some e.
Proof.
  induction ts as [|t ts IH].
  - split; [discriminate|]. intros (ts1 & t & ts2 & E & _). now destruct ts1.
  - destruct t as [t|]; cbn [tablesOutcome].
    + destruct (tableFaultMessage t) as [e0|] eqn:Ef.
      * split.
        -- intros [= ->]. exists [], t, ts. auto.
        -- intros (ts1 & t' & ts2 & E & Hok & Hf).
           destruct ts1 as [|x ts1].
           ++ injection E as <- _. congruence.
           ++ injection E as <- E. simpl in Hok. apply andb_prop in Hok as [Hok _].
              apply tableFaultMessage_ok in Hok. congruence.
      * rewrite IH. apply tableFaultMessage_ok in Ef. split.
        -- intros (ts1 & t' & ts2 & -> & Hok & Hf). exists (Some t :: ts1), t', ts2.
           split; [reflexivity|]. split; [|exact Hf]. simpl. now rewrite Ef.
        -- intros (ts1 & t' & ts2 & E & Hok & Hf).
           destruct ts1 as [|x ts1].
           ++ injection E as <- _. apply tableFaultMessage_ok in Ef. congruence.
           ++ injection E as <- E. simpl in Hok. apply andb_prop in Hok as [_ Hok].
              eauto 10.
    + split; [discriminate|]. intros (ts1 & t' & ts2 & E & Hok & _).
      destruct ts1 as [|x ts1]; [discriminate|]. injection E as <- E.
      simpl in Hok. discriminate.
Qed.

Lemma generate_outcome g s :
  (generate g s).2 =
    if forallb functionOk (s_Functions s)
    then match tablesOutcome (s_Tables s) with
         | Panics => Panics
         | Returns (Some e) => Returns (None, Some e)
         | Returns None => Returns (Some (ddlLayout g s), None)
         end
    else Returns (None, Some "missing function name"%string).
Proof.
  destruct (forallb functionOk (s_Functions s)) eqn:Hf.
  - destruct (tablesOutcome (s_Tables s)) as [[e|]|] eqn:Eo.
    + unfold generate. rewrite (functions_writes g _ Hf).
      match goal with |- context [generateTables g _ ?c] =>
        pose proof (generateTables_outcome g (s_Tables s) c) as Ho;
        destruct (generateTables g (s_Tables s) c) as [ts r] end.
      rewrite Eo in Ho. cbn [snd] in Ho.
      destruct r as [[c' [e'|]]|]; try contradiction. now subst e'.
    + apply generate_ok. unfold schemaOk. rewrite Hf. simpl.
      clear -Eo. induction (s_Tables s) as [|t ts IH]; [reflexivity|].
      destruct t as [t|]; [|discriminate]. cbn [tablesOutcome] in Eo.
      destruct (tableFaultMessage t) eqn:Ef; [discriminate|].
      apply tableFaultMessage_ok in Ef. simpl. rewrite Ef. auto.
    + unfold generate. rewrite (functions_writes g _ Hf).
      match goal with |- context [generateTables g _ ?c] =>
        pose proof (generateTables_outcome g (s_Tables s) c) as Ho;
        destruct (generateTables g (s_Tables s) c) as [ts r] end.
      rewrite Eo in Ho. cbn [snd] in Ho.
      destruct r as [[c' [e'|]]|]; try contradiction. reflexivity.
  - unfold generate.
    pose proof (functions_fails g _ Hf) as Ef.
    assert (Ha : appends (range (s_Functions s) (generateCreateFunction g)))
      by auto using appends_range, appends_generateCreateFunction.
    rewrite (Ha _), Ef. reflexivity.
Qed.


(** X5: The error [Generate] returns is that of the first fault in the order
    in which the schema is written: a function without a name before any
    table, then the first faulty table, provided every table before it can
    be generated. *)
Theorem Generate_error (g : Generator) (s : Schema) (e : error) :
  (Generate g s).2 = Returns (None, Some e)
  <-> (forallb functionOk (s_Functions s) = false
       /\ e = "missing function name"%string)
      \/ (forallb functionOk (s_Functions s) = true
          /\ exists ts1 t ts2,
               s_Tables s = ts1 ++ Some t :: ts2
               /\ forallb tableEntryOk ts1 = true
               /\ tableFaultMessage t = Some e).
Proof.
  rewrite <- tablesOutcome_error, Generate_generate, generate_outcome.
  destruct (forallb functionOk (s_Functions s)).
  - destruct (tablesOutcome (s_Tables s)) as [[e'|]|]; split.
    + intros [= ->]. right. auto.
    + intros [[? _]|[_ [= ->]]]; [discriminate|reflexivity].
    + discriminate.
    + intros [[? _]|[_ ?]]; discriminate.
    + discriminate.
    + intros [[? _]|[_ ?]]; discriminate.
  - split.
    + intros [= <-]. left. auto.
    + intros [[_ ->]|[? _]]; [reflexivity|discriminate].
Qed.

(** ** More tables *)

(** X6: Tables added at the end of a schema do not change what is written for
    the schema as it was: when the schema and the new tables can be
    generated, the output is the old output followed by the sections of the
    new tables. *)
Theorem generate_more_tables (g : Generator) (s : Schema) (ts : list (option Table))
  (code : Buffer) :
  (generate g s).2 = Returns (Some code, None) ->
  forallb tableEntryOk ts = true ->
  (generate g (set_Tables s (s_Tables s ++ ts))).2
  = Returns (Some (code +:+ concat_strings (map (tableSection g) ts)), None).
Proof.
  intros Hs Hts.
  assert (Hok : schemaOk s = true /\ code = ddlLayout g s).
  { destruct (schemaOk s) eqn:Hok.
    - rewrite (generate_ok g s Hok) in Hs. injection Hs as <-. auto.
    - pose proof (generate_bad g s Hok) as Hb. rewrite Hs in Hb. contradiction. }
  destruct Hok as [Hok ->].
  rewrite generate_ok.
  - unfold ddlLayout, createSchemaStatement. cbn [s_Tables s_Name s_IfNotExists
      s_Functions set_Tables].
    rewrite map_app, concat_strings_app. now rewrite !append_assoc.
  - unfold schemaOk in *. cbn [s_Tables s_Functions set_Tables].
    apply andb_prop in Hok as [Hf Ht]. rewrite Hf, forallb_app, Ht, Hts. reflexivity.
Qed.

(** ** Inline and standalone constraints *)

Lemma inlineConstraints_app cs1 cs2 :
  inlineConstraints (cs1 ++ cs2) = inlineConstraints cs1 ++ inlineConstraints cs2.
Proof. unfold inlineConstraints. apply List.filter_app. Qed.

Lemma inlineConstraints_idem cs :
  inlineConstraints (inlineConstraints cs) = inlineConstraints cs.
Proof.
  unfold inlineConstraints. induction cs as [|c cs IH]; [reflexivity|].
  cbn [List.filter]. destruct (negb (isIndexType (c_Type c))) eqn:E; [|exact IH].
  cbn [List.filter]. now rewrite E, IH.
Qed.

Lemma filter_step {A} (f : A -> bool) x l :
  List.filter f (x :: l) = if f x then x :: List.filter f l else List.filter f l.
Proof. reflexivity. Qed.

Lemma filter_within {A} (P Q : A -> bool) l :
  (forall x, Q x = true -> P x = true) ->
  List.filter Q (List.filter P l) = List.filter Q l.
Proof.
  intros HQP. induction l as [|x l IH]; [reflexivity|].
  rewrite !filter_step. destruct (Q x) eqn:Eq.
  - rewrite (HQP x Eq), filter_step, Eq. now rewrite IH.
  - destruct (P x); [rewrite filter_step, Eq|]; exact IH.
Qed.

Lemma CountOf_inlineConstraints cs :
  CountOf (inlineConstraints cs)
    [ConstraintTypePrimaryKey; ConstraintTypeCheck; ConstraintTypeUnique;
     ConstraintTypeForeignKey; ConstraintTypeExclusion]
  = CountOf cs
      [ConstraintTypePrimaryKey; ConstraintTypeCheck; ConstraintTypeUnique;
       ConstraintTypeForeignKey; ConstraintTypeExclusion].
Proof.
  unfold CountOf, inlineConstraints. rewrite filter_within; [reflexivity|].
  intros c. destruct (c_Type c); simpl; congruence.
Qed.

Lemma constraintLines_inline g nb cs i :
  constraintLines g nb i (inlineConstraints cs) = constraintLines g nb i cs.
Proof.
  revert i. unfold inlineConstraints.
  induction cs as [|c cs IH]; intros i; [reflexivity|].
  cbn [List.filter constraintLines].
  destruct (isIndexType (c_Type c)) eqn:E; cbn [negb]; [apply IH|].
  cbn [constraintLines]. now rewrite E, IH.
Qed.

Lemma workingSlice_withoutIndexes t :
  w_elems (workingSlice (withoutIndexes t))
  = inlineConstraints (elems (t_Constraints t))
    ++ ownerForeignKeys (t_OwnedRelationships t).
Proof. now rewrite workingSlice_elems. Qed.

Lemma createTableBody_inline g t cs cs' :
  inlineConstraints cs' = inlineConstraints cs ->
  createTableBody g t cs' = createTableBody g t cs.
Proof.
  intros E. unfold createTableBody.
  rewrite <- (CountOf_inlineConstraints cs'), <- (CountOf_inlineConstraints cs), E.
  set (nb := CountOf (inlineConstraints cs) _).
  now rewrite <- (constraintLines_inline g nb cs'), <- (constraintLines_inline g nb cs), E.
Qed.

Lemma standalone_of_inline ver cs code :
  indexStatements ver (inlineConstraints cs) code = code.
Proof.
  revert code. unfold inlineConstraints.
  induction cs as [|c cs IH]; intros code; [reflexivity|].
  cbn [List.filter]. destruct (c_Type c) eqn:Et; cbn [isIndexType negb];
    try apply IH; cbn [indexStatements]; rewrite Et; apply IH.
Qed.

Lemma standalone_only ver cs code :
  indexStatements ver (standaloneConstraints cs) code = indexStatements ver cs code.
Proof.
  revert code. unfold standaloneConstraints.
  induction cs as [|c cs IH]; intros code; [reflexivity|].
  cbn [List.filter indexStatements].
  destruct (c_Type c) eqn:Et; cbn [isIndexType]; try apply IH;
    cbn [indexStatements]; rewrite Et; apply IH.
Qed.

(** X7: The constraints of a table fall into two parts that do not influence
    each other: the CREATE TABLE block (text and error) is the same with the
    Index and UniqueIndex constraints taken out of the table, wherever they
    stand among the others, and the standalone statements are those of the
    Index and UniqueIndex constraints alone; the other constraints give no
    standalone statement. *)
Theorem constraints_partition (g : Generator) (t : Table) (code : Buffer) :
  (generateCreateTable g code (Some (withoutIndexes t))).1.1
  = (generateCreateTable g code (Some t)).1.1
  /\ (generateCreateTable g code (Some (withoutIndexes t))).2
     = (generateCreateTable g code (Some t)).2
  /\ indexStatements (Version g) (standaloneConstraints (elems (t_Constraints t))) code
     = indexStatements (Version g) (elems (t_Constraints t)) code
  /\ indexStatements (Version g) (inlineConstraints (elems (t_Constraints t))) code
     = code.
Proof.
  assert (E : createTableBody g (withoutIndexes t) (w_elems (workingSlice (withoutIndexes t)))
              = createTableBody g t (w_elems (workingSlice t))).
  { change (createTableBody g (withoutIndexes t)) with (createTableBody g t).
    apply createTableBody_inline.
    rewrite workingSlice_withoutIndexes, workingSlice_elems, !inlineConstraints_app.
    now rewrite inlineConstraints_idem. }
  unfold generateCreateTable.
  change (t_Name (withoutIndexes t)) with (t_Name t).
  change (t_Columns (withoutIndexes t)) with (t_Columns t).
  rewrite E.
  split; [|split; [|split; [apply standalone_only|apply standalone_of_inline]]].
  - destruct (negb (nonempty (t_Name t))); [reflexivity|].
    destruct (length (t_Columns t) =? 0)%nat; [reflexivity|].
    now destruct (createTableBody g t (w_elems (workingSlice t)) code).
  - destruct (negb (nonempty (t_Name t))); [reflexivity|].
    destruct (length (t_Columns t) =? 0)%nat; [reflexivity|].
    now destruct (createTableBody g t (w_elems (workingSlice t)) code).
Qed.

(** ** The commas after the columns *)

Lemma commaLines_cons c cols :
  commaLines (c :: cols) = TAB +:+ columnText c +:+ "," +:+ LF +:+ commaLines cols.
Proof. unfold commaLines. simpl. now rewrite !append_assoc. Qed.

Lemma concat_from_commas n nb cols i :
  n = i + Z.of_nat (length cols) ->
  (forall c, last cols = Some c -> col_IsDynamic c = true) ->
  concat_from i cols (columnLineText n nb)
  = commaLines (List.filter (fun c => negb (col_IsDynamic c)) cols).
Proof.
  revert i. induction cols as [|c cols IH]; intros i Hn Hlast; [reflexivity|].
  destruct cols as [|c2 cols].
  - simpl. unfold columnLineText. rewrite (Hlast c eq_refl). reflexivity.
  - change (concat_from i (c :: c2 :: cols) (columnLineText n nb))
      with (columnLineText n nb i c +:+ concat_from (i + 1) (c2 :: cols) (columnLineText n nb)).
    rewrite IH; [| simpl length in *; lia | intros x Hx; apply Hlast; exact Hx].
    unfold columnLineText.
    change (List.filter (fun c => negb (col_IsDynamic c)) (c :: c2 :: cols))
      with (if negb (col_IsDynamic c)
            then c :: List.filter (fun c => negb (col_IsDynamic c)) (c2 :: cols)
            else List.filter (fun c => negb (col_IsDynamic c)) (c2 :: cols)).
    destruct (col_IsDynamic c); simpl negb; cbv iota; [reflexivity|].
    replace (i <? n - 1) with true
      by (symmetry; apply Z.ltb_lt; simpl length in Hn; lia).
    simpl orb. cbv iota. rewrite commaLines_cons. now rewrite !append_assoc.
Qed.

Lemma inlineConstraintLines_join t :
  tableOk t = true ->
  inlineConstraintLines t = joinConstraintLines (inlineConstraints (w_elems (workingSlice t))).
Proof.
  intros Hok. apply andb_prop in Hok as [_ Hr]. unfold inlineConstraintLines.
  pose proof (constraintLinesText_join (w_elems (workingSlice t)) 0) as Hj.
  rewrite Z.add_0_l, <- (CountOf_inline _ Hr) in Hj. exact Hj.
Qed.

(** X8: When the last declared column of a table is dynamic, every column line
    written ends with a comma, the last one too, whether or not an inline
    constraint follows; a table all of whose columns are dynamic gets no
    column line at all. *)
Theorem dynamic_last_column (g : Generator) (buf : Buffer) (t : Table) :
  tableOk t = true ->
  (forall c, last (t_Columns t) = Some c -> col_IsDynamic c = true) ->
  (generateCreateTable g buf (Some t)).1.1
  = buf +:+ tableHeader t +:+ commaLines (physicalColumns t)
        +:+ (if 0 <? inlineCount t then LF else EmptyString)
        +:+ joinConstraintLines (inlineConstraints (w_elems (workingSlice t)))
        +:+ ");" +:+ LF
  /\ (Forall (fun c => col_IsDynamic c = true) (t_Columns t) ->
      commaLines (physicalColumns t) = EmptyString).
Proof.
  intros Hok Hlast. split.
  - rewrite (generateCreateTable_ok g buf t Hok). cbn [fst].
    unfold tableBlock, columnLines, physicalColumns.
    rewrite (concat_from_commas _ _ _ 0); [|lia|exact Hlast].
    now rewrite (inlineConstraintLines_join t Hok).
  - intros Hall. unfold physicalColumns. clear Hlast Hok.
    induction Hall as [|c cols Hc _ IH]; [reflexivity|].
    rewrite filter_step, Hc. exact IH.
Qed.

(** X9: When the last declared column of a table is not dynamic, the block is
    the one the specification describes: the columns that are not dynamic
    with a comma after each but the last, a comma after the last only when
    an inline constraint follows, then the inline constraints with a comma
    after each but the last, and [);]. *)
Theorem physical_last_column (g : Generator) (buf : Buffer) (t : Table) :
  tableOk t = true ->
  (forall c, last (t_Columns t) = Some c -> col_IsDynamic c = false) ->
  (generateCreateTable g buf (Some t)).1.1 = buf +:+ tableBlockAsSpecified t
  /\ (generateCreateTable g buf (Some t)).2 = None.
Proof.
  intros Hok Hlast. rewrite (generateCreateTable_ok g buf t Hok). cbn [fst snd].
  now rewrite (tableBlock_asSpecified t Hok Hlast).
Qed.

End MorePqtsql.

(** ** Writing to a writer *)

Section WriterFacts.
Context `{PqtLib}.
Variable W : Type.
Variable Write : W -> string -> W * (Z * option error).

Lemma generated_nonempty g s code :
  (generate g s).2 = Returns (Some code, None) -> (0 < String.length code)%nat.
Proof.
  intros E. destruct (schemaOk s) eqn:Hok.
  - rewrite (generate_ok g s Hok) in E. injection E as <-.
    unfold ddlLayout, banner. rewrite append_cons. simpl. lia.
  - pose proof (generate_bad g s Hok) as Hb. rewrite E in Hb. contradiction.
Qed.

(** X10: [GenerateTo] returns the error of [Generate] and leaves the writer
    untouched when generation fails; when generation succeeds it calls
    [Write] exactly once, with exactly the bytes [Generate] returns, and
    returns nil when the writer takes them all. *)
Theorem GenerateTo_Generate (g : Generator) (s : Schema) (w : W) :
  (forall e, (Generate g s).2 = Returns (None, Some e) ->
             GenerateTo W Write g s w = (w, Returns (Some e)))
  /\ ((Generate g s).2 = Panics -> GenerateTo W Write g s w = (w, Panics))
  /\ (forall bytes,
        (Generate g s).2 = Returns (Some bytes, None) ->
        (GenerateTo W Write g s w).1 = (Write w bytes).1
        /\ (forall w',
              Write w bytes = (w', (Z.of_nat (String.length bytes), None)) ->
              GenerateTo W Write g s w = (w', Returns None))
        /\ (forall w' e,
              Write w bytes = (w', (Z.of_nat (String.length bytes), Some e)) ->
              GenerateTo W Write g s w = (w', Returns (Some e)))).
Proof.
  rewrite Generate_generate. unfold GenerateTo.
  split; [|split].
  - intros e. destruct ((generate g s).2) as [[[c|] [e'|]]|]; congruence.
  - destruct ((generate g s).2) as [[[c|] [e'|]]|]; congruence.
  - intros bytes Hg.
    destruct ((generate g s).2) as [[[c|] [e'|]]|] eqn:Eg; try discriminate.
    injection Hg as ->.
    pose proof (generated_nonempty g s bytes Eg) as Hlen.
    unfold WriteTo.
    replace (0 <? Z.of_nat (String.length bytes)) with true
      by (symmetry; apply Z.ltb_lt; lia).
    split; [|split].
    + destruct (Write w bytes) as [w' [m e]]. simpl.
      destruct (Z.of_nat (String.length bytes) <? m); [reflexivity|].
      destruct e; [reflexivity|]. now destruct (negb _).
    + intros w' ->. rewrite Z.ltb_irrefl, Z.eqb_refl. reflexivity.
    + intros w' e ->. rewrite Z.ltb_irrefl. reflexivity.
Qed.

End WriterFacts.

(** ** The criteria combinator on any operands *)

Module CriteriaMore.
Import Criteria.

Section WithFilters.
Variable Filters : Type.
Variable noFilters : Filters.

Local Abbreviation node := (node Filters).
Local Abbreviation heap := (gmap loc node).

Local Abbreviation kept := (kept Filters).

Lemma assign_Some (l : loc) (upd : node -> node) (h : heap) nd :
  h !! l = Some nd -> assign _ (Some l) upd h = Returns (<[l := upd nd]> h).
Proof. intros E. unfold assign. now rewrite E. Qed.

Lemma Operand_unfold op first rest (h : heap) :
  Operand _ noFilters op (first :: rest) h =
    match linkOperands _ (fresh (dom h)) (first :: rest) (length (first :: rest)) 0
            (<[fresh (dom h) :=
                 {| filters := noFilters; operator := op; child := first;
                    sibling := None; parent := None |}]> h) with
    | Panics => Panics
    | Returns h' => Returns (h', fresh (dom h))
    end.
Proof. reflexivity. Qed.

Lemma linkOperands_any parentPtr (operands : list (option loc)) :
  forall n i (h : heap),
    (n + i = length operands)%nat ->
    (forall l, Some l ∈ operands -> is_Some (h !! l)) ->
    match linkOperands _ parentPtr operands n i h with
    | Panics => exists j, (i <= j)%nat /\ operands !! j = Some None
    | Returns h' =>
        (forall j, (i <= j)%nat -> operands !! j <> Some None)
        /\ dom h' = dom h
        /\ (forall l nd, h !! l = Some nd ->
              exists nd', h' !! l = Some nd' /\ kept nd nd'
                          /\ (parent _ nd = Some parentPtr ->
                              parent _ nd' = Some parentPtr))
        /\ (forall j l, (i <= j)%nat -> operands !! j = Some (Some l) ->
              exists nd', h' !! l = Some nd' /\ parent _ nd' = Some parentPtr)
        /\ (forall l, Some l ∉ operands -> h' !! l = h !! l)
    end.
Proof.
  induction n as [|n IH]; intros i h Hlen Hdom.
  - simpl. repeat split.
    + intros j Hj Hl. apply lookup_lt_Some in Hl. lia.
    + intros l nd Hl. exists nd. repeat split; auto.
    + intros j l Hj Hl. apply lookup_lt_Some in Hl. lia.
  - assert (Hi : (i < length operands)%nat) by lia.
    destruct (lookup_lt_is_Some_2 operands i Hi) as [op Hop].
    cbn [linkOperands]. rewrite Hop.
    destruct op as [l|].
    2:{ assert (Hp : match (if (i <? length operands - 1)%nat
                            then match operands !! S i with
                                 | Some next => assign Filters None (set_sibling _ next) h
                                 | None => Panics
                                 end
                            else Returns h)
                     with
                     | Returns h0 =>
                         match assign Filters None (set_parent _ (Some parentPtr)) h0 with
                         | Returns h1 => linkOperands _ parentPtr operands n (S i) h1
                         | Panics => Panics
                         end
                     | Panics => Panics
                     end = Panics).
        { destruct (i <? length operands - 1)%nat; [|reflexivity].
          now destruct (operands !! S i). }
        rewrite Hp. exists i. auto. }
    destruct (Hdom l) as [nd Hnd]; [eapply list_elem_of_lookup_2; eauto|].
    set (nd1 := if (i <? length operands - 1)%nat
                then match operands !! S i with
                     | Some next => set_sibling _ next nd
                     | None => nd
                     end
                else nd).
    set (nd2 := set_parent _ (Some parentPtr) nd1).
    assert (Hstep :
      match (if (i <? length operands - 1)%nat
             then match operands !! S i with
                  | Some next => assign Filters (Some l) (set_sibling _ next) h
                  | None => Panics
                  end
             else Returns h)
      with
      | Returns h0 =>
          match assign Filters (Some l) (set_parent _ (Some parentPtr)) h0 with
          | Returns h1 => linkOperands _ parentPtr operands n (S i) h1
          | Panics => Panics
          end
      | Panics => Panics
      end = linkOperands _ parentPtr operands n (S i) (<[l := nd2]> h)).
    { unfold nd2, nd1.
      destruct (Nat.ltb_spec i (length operands - 1)) as [Hlt|Hge].
      - destruct (lookup_lt_is_Some_2 operands (S i)) as [next Hnext]; [lia|].
        rewrite Hnext, (assign_Some _ _ _ _ Hnd).
        rewrite (assign_Some l _ _ (set_sibling _ next nd)) by apply lookup_insert_eq.
        now rewrite insert_insert_eq.
      - now rewrite (assign_Some _ _ _ _ Hnd). }
    rewrite Hstep.
    assert (Hkept : kept nd nd2 /\ parent _ nd2 = Some parentPtr).
    { unfold nd2, nd1, kept. destruct (i <? length operands - 1)%nat;
        [destruct (operands !! S i)|]; simpl; auto. }
    destruct Hkept as [Hk Hpar].
    specialize (IH (S i) (<[l := nd2]> h)).
    destruct (linkOperands _ parentPtr operands n (S i) (<[l := nd2]> h)) as [h'|].
    + destruct IH as (Hnone & Hd & Hkeep & Hops & Hout); [lia| |].
      { intros l0 Hl0. destruct (decide (l = l0)) as [->|Hne].
        - rewrite lookup_insert_eq. eauto.
        - rewrite lookup_insert_ne by exact Hne. auto. }
      split; [|split; [|split; [|split]]].
      * intros j Hj. destruct (decide (j = i)) as [->|Hji]; [congruence|].
        apply Hnone. lia.
      * rewrite Hd. apply dom_insert_lookup_L. eauto.
      * intros l0 nd0 Hl0. destruct (decide (l = l0)) as [<-|Hne].
        -- assert (nd0 = nd) by congruence. subst nd0.
           destruct (Hkeep l nd2) as (nd' & Hl' & (K1 & K2 & K3) & Hp');
             [apply lookup_insert_eq|].
           destruct Hk as (K1' & K2' & K3').
           exists nd'. repeat split; try congruence. intros _. auto.
        -- apply Hkeep. now rewrite lookup_insert_ne.
      * intros j l0 Hj Hl0. destruct (decide (j = i)) as [->|Hji].
        -- assert (l0 = l) by congruence. subst l0.
           destruct (Hkeep l nd2) as (nd' & Hl' & _ & Hp'); [apply lookup_insert_eq|].
           exists nd'. auto.
        -- apply (Hops j); [lia|exact Hl0].
      * intros l0 Hl0. rewrite Hout by exact Hl0. apply lookup_insert_ne.
        intros ->. apply Hl0. eapply list_elem_of_lookup_2; eauto.
    + destruct IH as (j & Hj & Hnone); [lia| |].
      { intros l0 Hl0. destruct (decide (l = l0)) as [->|Hne].
        - rewrite lookup_insert_eq. eauto.
        - rewrite lookup_insert_ne by exact Hne. auto. }
      exists j. split; [lia|exact Hnone].
Qed.

(** X11: The constructor panics exactly when one of its operands is nil (the
    operands that are not nil being nodes in memory); in particular it does
    not panic without operands. *)
Theorem Operand_panics (op : string) (operands : list (option loc)) (h : heap) :
  (forall l, Some l ∈ operands -> is_Some (h !! l)) ->
  Operand _ noFilters op operands h = Panics <-> None ∈ operands.
Proof.
  intros Hdom. destruct operands as [|first rest]; [split; [discriminate|]|].
  { intros Hin. inversion Hin. }
  rewrite Operand_unfold.
  set (operands := first :: rest) in *.
  set (p := fresh (dom h)).
  set (pn := {| filters := noFilters; operator := op; child := first;
                sibling := None; parent := None |} : node).
  pose proof (linkOperands_any p operands (length operands) 0 (<[p := pn]> h)) as Hl.
  destruct (linkOperands _ p operands (length operands) 0 (<[p := pn]> h)) as [h'|].
  - destruct Hl as (Hnone & _); [lia| |].
    { intros l Hin. destruct (decide (p = l)) as [->|Hne].
      - rewrite lookup_insert_eq. eauto.
      - rewrite lookup_insert_ne by exact Hne. auto. }
    split; [discriminate|]. intros Hin.
    apply list_elem_of_lookup in Hin as [j Hj]. exfalso. apply (Hnone j); [lia|exact Hj].
  - destruct Hl as (j & _ & Hj); [lia| |].
    { intros l Hin. destruct (decide (p = l)) as [->|Hne].
      - rewrite lookup_insert_eq. eauto.
      - rewrite lookup_insert_ne by exact Hne. auto. }
    split; [|reflexivity]. intros _. eapply list_elem_of_lookup_2; eauto.
Qed.

(** X12: Whatever the operands, repeated ones included: when the constructor
    returns, it has allocated exactly one node, the one it returns, at an
    address that was free; every operand has that node as its parent; every
    node that was in memory is still there with the operator, the child and
    the filters it had; and a node that is not an operand is untouched. *)
Theorem Operand_memory (op : string) (operands : list (option loc)) (h h' : heap)
  (p : loc) :
  (forall l, Some l ∈ operands -> is_Some (h !! l)) ->
  Operand _ noFilters op operands h = Returns (h', p) ->
  h !! p = None
  /\ dom h' = {[p]} ∪ dom h
  /\ (exists nd, h' !! p = Some nd /\ operator _ nd = op
                 /\ child _ nd = default None (operands !! 0%nat)
                 /\ filters _ nd = noFilters)
  /\ (forall l, Some l ∈ operands ->
        exists nd, h' !! l = Some nd /\ parent _ nd = Some p)
  /\ (forall l nd, h !! l = Some nd -> exists nd', h' !! l = Some nd' /\ kept nd nd')
  /\ (forall l, Some l ∉ operands -> l <> p -> h' !! l = h !! l).
Proof.
  intros Hdom.
  assert (Hp : h !! fresh (dom h) = None) by (apply not_elem_of_dom, is_fresh).
  destruct operands as [|first rest].
  { unfold Operand, alloc. intros [= <- <-].
    split; [exact Hp|]. split; [apply dom_insert_L|]. split.
    { eexists. rewrite lookup_insert_eq. repeat split. }
    split; [intros l Hin; inversion Hin|]. split.
    - intros l nd Hl. exists nd. rewrite lookup_insert_ne by congruence.
      repeat split; auto.
    - intros l _ Hne. now rewrite lookup_insert_ne. }
  rewrite Operand_unfold.
  set (operands := first :: rest) in *.
  set (q := fresh (dom h)) in *.
  set (pn := {| filters := noFilters; operator := op; child := first;
                sibling := None; parent := None |} : node).
  pose proof (linkOperands_any q operands (length operands) 0 (<[q := pn]> h)) as Hl.
  destruct (linkOperands _ q operands (length operands) 0 (<[q := pn]> h)) as [h1|];
    [|discriminate].
  intros [= <- <-].
  assert (Hq : Some q ∉ operands).
  { intros Hin. destruct (Hdom q Hin) as [x Hx]. congruence. }
  destruct Hl as (_ & Hd & Hkeep & Hops & Hout); [lia| |].
  { intros l Hin. rewrite lookup_insert_ne; [auto|]. intros <-. contradiction. }
  split; [exact Hp|]. split; [rewrite Hd; apply dom_insert_L|]. split.
  { exists pn. rewrite Hout by exact Hq. rewrite lookup_insert_eq. repeat split. }
  split.
  { intros l Hin. apply list_elem_of_lookup in Hin as [j Hj].
    apply (Hops j l); [lia|exact Hj]. }
  split.
  - intros l nd Hlk. destruct (Hkeep l nd) as (nd' & E & K & _).
    + rewrite lookup_insert_ne; [exact Hlk|]. intros <-. congruence.
    + eauto.
  - intros l Hl Hne. rewrite Hout by exact Hl. now rewrite lookup_insert_ne.
Qed.

End WithFilters.
End CriteriaMore.

(** ** Every schedule of the producer and the consumer *)

Module ChannelMore.
Import Channel.

Lemma step_drained st st' : step st st' -> drained st -> drained st'.
Proof.
  unfold drained. destruct 1; simpl; intros Hd Hc; try discriminate; auto.
Qed.

Lemma steps_drained st st' : steps st st' -> drained st -> drained st'.
Proof. induction 1; eauto using step_drained. Qed.

Lemma init_drained fields : drained (init fields).
Proof. unfold drained, init. simpl. discriminate. Qed.

Lemma received_prefix_of (fields : list structField) (st : state) :
  steps (init fields) st ->
  (exists rest, fields = received st ++ rest)
  /\ (closed st = true -> received st = fields).
Proof.
  intros Hrun.
  assert (Hi : inv fields st)
    by (eapply ChannelFacts.steps_inv; [exact Hrun|reflexivity]).
  assert (Hd : drained st) by (eapply steps_drained; eauto using init_drained).
  unfold inv in Hi. split.
  - eexists. symmetry. exact Hi.
  - intros Hc. destruct (Hd Hc) as [Ht Ho]. rewrite Ht, Ho in Hi.
    simpl in Hi. now rewrite app_nil_r in Hi.
Qed.

Lemma never_stuck (fields : list structField) (st : state) :
  steps (init fields) st -> finished st \/ exists st', step st st'.
Proof.
  intros Hrun.
  assert (Hd : drained st) by (eapply steps_drained; eauto using init_drained).
  destruct st as [td off got b cl]. unfold finished, drained in *. simpl in *.
  destruct cl.
  - destruct (Hd eq_refl) as [-> ->]. destruct b.
    + right. eexists. apply step_body.
    + left. auto.
  - right. destruct off as [x|].
    + destruct b; eexists; [apply step_body|apply step_take].
    + destruct td as [|x rest]; eexists; [apply step_close|apply step_offer].
Qed.

Lemma step_remaining st st' : step st st' -> remaining st = S (remaining st').
Proof. destruct 1; unfold remaining; simpl; try destruct cl; lia. Qed.

Lemma run_remaining n st st' : run n st st' -> remaining st = (n + remaining st')%nat.
Proof.
  induction 1 as [|n st1 st2 st3 Hs _ IH]; [reflexivity|].
  rewrite (step_remaining _ _ Hs), IH. lia.
Qed.

Lemma run_length_of (fields : list structField) (n : nat) (st : state) :
  run n (init fields) st ->
  (n <= 3 * length fields + 1)%nat
  /\ (finished st -> n = (3 * length fields + 1)%nat)
  /\ (n = (3 * length fields + 1)%nat -> forall st', ~ step st st').
Proof.
  intros Hrun. pose proof (run_remaining _ _ _ Hrun) as E.
  unfold remaining at 1 in E. simpl in E.
  split; [lia|]. split.
  - intros (Hc & Hb & Ho & Ht). unfold remaining in E.
    rewrite Hc, Hb, Ho, Ht in E. simpl in E. lia.
  - intros -> st' Hs. apply step_remaining in Hs. lia.
Qed.

Section EntityChannel.
Context `{GogenLib}.

(** X13: At every moment of every schedule of the goroutine of
    [entityPropertiesGenerator] and of the loop of [Entity], the loop has
    received a prefix of the fields, in the order they are sent, and the
    channel is closed only once all of them have been received. *)
Theorem received_prefix (t : Table) (st : state) :
  steps (init (entityPropertiesGenerator t)) st ->
  (exists rest, entityPropertiesGenerator t = received st ++ rest)
  /\ (closed st = true -> received st = entityPropertiesGenerator t).
Proof. apply received_prefix_of. Qed.

(** X14: No schedule gets stuck: a state that can be reached has either ended
    or can take a step. *)
Theorem no_deadlock (t : Table) (st : state) :
  steps (init (entityPropertiesGenerator t)) st ->
  finished st \/ exists st', step st st'.
Proof. apply never_stuck. Qed.

(** X15: Every schedule is finite and all schedules are equally long: a run
    from the start has at most [3 * n + 1] steps for [n] fields, it has
    exactly that many when the loop of [Entity] has ended, and after that
    many steps nothing can happen any more. *)
Theorem run_length (t : Table) (n : nat) (st : state) :
  run n (init (entityPropertiesGenerator t)) st ->
  (n <= 3 * length (entityPropertiesGenerator t) + 1)%nat
  /\ (finished st -> n = (3 * length (entityPropertiesGenerator t) + 1)%nat)
  /\ (n = (3 * length (entityPropertiesGenerator t) + 1)%nat ->
      forall st', ~ step st st').
Proof. apply run_length_of. Qed.

End EntityChannel.

End ChannelMore.

(** ** What the entity fields are made of *)

Section EntityMore.
Context `{GogenLib}.

Lemma present_length {A B} (f : A -> option B) l :
  (length (present f l) <= length l)%nat.
Proof.
  induction l as [|x l IH]; simpl; [lia|]. destruct (f x); simpl; lia.
Qed.

Lemma present_Forall {A B} (f : A -> option B) (P : B -> Prop) l :
  (forall x y, f x = Some y -> P y) -> Forall P (present f l).
Proof.
  intros Hf. induction l as [|x l IH]; simpl; [constructor|].
  destruct (f x) eqn:E; [constructor; eauto|exact IH].
Qed.

(** X16: The fields [entityPropertiesGenerator] sends never carry tags, so
    [Entity] never takes its branch for tagged fields; only the field of a
    dynamic column is read-only, never that of a relationship; and there is
    at most one field per column and per relationship. *)
Theorem entity_fields_plain (t : Table) :
  Forall (fun f => Tags f = EmptyString) (entityPropertiesGenerator t)
  /\ Forall (fun f => ReadOnly f = false) (relationshipFields t)
  /\ (forall c f, columnField c = Some f -> ReadOnly f = col_IsDynamic c)
  /\ (length (entityPropertiesGenerator t)
       <= length (t_Columns t) + length (t_OwnedRelationships t)
          + length (t_InversedRelationships t)
          + length (t_ManyToManyRelationships t))%nat.
Proof.
  rewrite entityPropertiesGenerator_eq. unfold entityFields, relationshipFields.
  assert (Hcol : forall c f, columnField c = Some f ->
                   Tags f = EmptyString /\ ReadOnly f = col_IsDynamic c).
  { intros c f. unfold columnField.
    destruct (String.eqb _ _); [discriminate|]. intros [= <-]. auto. }
  assert (Hown : forall r f, ownedField r = Some f ->
                   Tags f = EmptyString /\ ReadOnly f = false).
  { intros r f. unfold ownedField. destruct (r_Type r); try discriminate;
      intros [= <-]; auto. }
  assert (Hinv : forall r f, inversedField r = Some f ->
                   Tags f = EmptyString /\ ReadOnly f = false).
  { intros r f. unfold inversedField. destruct (r_Type r); try discriminate;
      intros [= <-]; auto. }
  assert (Hm2m : forall r f, manyToManyField t r = Some f ->
                   Tags f = EmptyString /\ ReadOnly f = false).
  { intros r f. unfold manyToManyField. destruct (r_Type r); try discriminate.
    destruct (Pos.eqb _ _); [intros [= <-]; auto|].
    destruct (Pos.eqb _ _); [intros [= <-]; auto|discriminate]. }
  split; [|split; [|split]].
  - repeat (apply Forall_app; split); apply present_Forall; intros x f Hf;
      [apply (Hcol x f Hf) | apply (Hown x f Hf) | apply (Hinv x f Hf)
      | apply (Hm2m x f Hf)].
  - repeat (apply Forall_app; split); apply present_Forall; intros x f Hf;
      [apply (Hown x f Hf) | apply (Hinv x f Hf) | apply (Hm2m x f Hf)].
  - intros c f Hf. apply (Hcol c f Hf).
  - rewrite !length_app.
    pose proof (present_length columnField (t_Columns t)).
    pose proof (present_length ownedField (t_OwnedRelationships t)).
    pose proof (present_length inversedField (t_InversedRelationships t)).
    pose proof (present_length (manyToManyField t) (t_ManyToManyRelationships t)).
    lia.
Qed.

End EntityMore.

(** ** The components of the source generator *)

Module PqtgogenFacts.
Import Pqtgogen.

Section WithPlugins.
Variable Plugin : Type.

Local Abbreviation Generator := (Generator Plugin).

Lemma has_lor c a b : has c (Z.lor a b) = has c a || has c b.
Proof.
  unfold has. rewrite Z.land_lor_distr_r.
  destruct (Z.eqb_spec (Z.land c a) 0) as [Ea|Ea], (Z.eqb_spec (Z.land c b) 0) as [Eb|Eb];
    simpl.
  - rewrite Ea, Eb. reflexivity.
  - destruct (Z.eqb_spec (Z.lor (Z.land c a) (Z.land c b)) 0) as [E|E]; [|reflexivity].
    apply Z.lor_eq_0_iff in E. tauto.
  - destruct (Z.eqb_spec (Z.lor (Z.land c a) (Z.land c b)) 0) as [E|E]; [|reflexivity].
    apply Z.lor_eq_0_iff in E. tauto.
  - destruct (Z.eqb_spec (Z.lor (Z.land c a) (Z.land c b)) 0) as [E|E]; [|reflexivity].
    apply Z.lor_eq_0_iff in E. tauto.
Qed.

Lemma has_Repository c :
  has c ComponentRepository
  = has c ComponentInsert || has c ComponentFind || has c ComponentUpdate
    || has c ComponentUpsert || has c ComponentCount || has c ComponentDelete.
Proof. unfold ComponentRepository. now rewrite !has_lor. Qed.

Lemma has_more c c' m :
  Z.land c c' = c -> has c m = true -> has c' m = true.
Proof.
  unfold has. intros Hc Hm.
  destruct (Z.eqb_spec (Z.land c' m) 0) as [E|E]; [|reflexivity].
  rewrite <- Hc, <- Z.land_assoc, E, Z.land_0_r in Hm. discriminate.
Qed.

Lemma has_more_or c c' m1 m2 :
  Z.land c c' = c ->
  has c m1 || has c m2 = true -> has c' m1 || has c' m2 = true.
Proof.
  intros Hc [E|E]%orb_prop; apply orb_true_iff; eauto using has_more.
Qed.

Lemma when_sublist (b b' : bool) (l l' : list call) :
  (b = true -> b' = true) -> l `sublist_of` l' -> when b l `sublist_of` when b' l'.
Proof.
  intros Hb Hl. destruct b; [rewrite Hb by reflexivity; exact Hl|].
  apply sublist_nil_l.
Qed.

Lemma tableCalls_more c c' t :
  Z.land c c' = c -> tableCalls c t `sublist_of` tableCalls c' t.
Proof.
  intros Hc. unfold tableCalls.
  repeat first
    [ apply sublist_app
    | apply when_sublist
    | reflexivity
    | solve [eauto using has_more, has_more_or] ].
Qed.

Lemma flat_map_sublist {A} (f f' : A -> list call) (l : list A) :
  (forall x, f x `sublist_of` f' x) -> flat_map f l `sublist_of` flat_map f' l.
Proof.
  intros Hf. induction l as [|x l IH]; simpl; [constructor|].
  now apply sublist_app.
Qed.


(** X17: Selecting more components never takes a construct away nor changes the
    order of the constructs: the calls made with fewer components are a
    subsequence of the calls made with more. *)
Theorem more_components (g : Generator) (s : Schema) (c' : Z) :
  Z.land (Components _ g) c' = Components _ g ->
  (generate _ g s).2 `sublist_of` (generate _ (with_Components _ g c') s).2.
Proof.
  intros Hc. unfold generate. cbn [snd Components with_Components Pkg].
  repeat first
    [ apply sublist_app
    | apply when_sublist
    | apply flat_map_sublist; intros t; apply tableCalls_more; exact Hc
    | reflexivity
    | intros [E|E]%orb_prop; [apply orb_true_iff; left; revert E;
                               apply has_more_or; exact Hc
                             | apply orb_true_iff; right; eauto using has_more]
    | solve [eauto using has_more, has_more_or] ].
Qed.

Lemma tableCalls_selected c t :
  tableCalls c t
  = flat_map (fun m => [OnTable m t; CallNewLine]) (List.filter (selected c) allMethods).
Proof.
  unfold tableCalls, allMethods. rewrite has_Repository.
  unfold selected.
  generalize (has c ComponentHelpers), (has c ComponentFind), (has c ComponentCount),
    (has c ComponentUpdate), (has c ComponentUpsert), (has c ComponentInsert),
    (has c ComponentDelete).
  intros [] [] [] [] [] [] []; reflexivity.
Qed.



End WithPlugins.
End PqtgogenFacts.

(** ** The imports *)

Module GogenPrintFacts.
Import GogenPrint.

Section Imports.
Variable customType : PqtType -> option (Mode -> string).

Lemma columnImports_paths cols imports :
  columnImports customType cols imports
  = imports ++ flat_map (columnPaths customType) cols.
Proof.
  revert imports. induction cols as [|c cols IH]; intros imports; simpl.
  - now rewrite app_nil_r.
  - rewrite IH. unfold columnPaths, appendIfNotEmpty.
    destruct (customType (col_Type c)) as [ct|]; [|reflexivity].
    simpl. destruct (String.eqb (ct ModeMandatory) _), (String.eqb (ct ModeOptional) _),
      (String.eqb (ct ModeCriteria) _); simpl; now rewrite <- ?app_assoc.
Qed.

Lemma tableImports_paths ts imports :
  tableImports customType (map Some ts) imports
  = Returns (imports ++ customPaths customType ts).
Proof.
  revert imports. induction ts as [|t ts IH]; intros imports; simpl.
  - now rewrite app_nil_r.
  - rewrite IH, columnImports_paths. unfold customPaths. simpl.
    now rewrite <- app_assoc.
Qed.

Lemma tableImports_nil ts imports :
  In None ts -> tableImports customType ts imports = Panics.
Proof.
  revert imports. induction ts as [|t ts IH]; intros imports Hin; [contradiction|].
  destruct t as [t|]; [|reflexivity]. simpl.
  destruct Hin as [?|Hin]; [discriminate|auto].
Qed.

Lemma Imports_present s fixed ts :
  s_Tables s = map Some ts ->
  Imports customType s fixed
  = Returns ([Println "import("]
             ++ flat_map importLine (uuid :: fixed ++ customPaths customType ts)
             ++ [Println ")"]).
Proof.
  intros E. unfold Imports. rewrite E, tableImports_paths. reflexivity.
Qed.

(** X20: The import block lists, in this order and one path per line between
    [import(] and [)]: the path of the uuid package, the paths given by the
    caller as they are (an empty one included), and for every column of a
    custom type, table after table, the package paths of its mandatory,
    optional and criteria types that are not empty; repeated paths are
    printed as often as they occur.  A nil table entry makes [Imports] panic
    before it prints anything. *)
Theorem Imports_printed (s : Schema) (fixed : list string) :
  (forall ts, s_Tables s = map Some ts ->
     Imports customType s fixed
     = Returns ([Println "import("]
                ++ flat_map importLine (uuid :: fixed ++ customPaths customType ts)
                ++ [Println ")"]))
  /\ (In None (s_Tables s) -> Imports customType s fixed = Panics)
  /\ (forall ts, Forall (fun p => p <> EmptyString) (customPaths customType ts)).
Proof.
  split; [|split].
  - intros ts. apply Imports_present.
  - intros Hin. unfold Imports. now rewrite tableImports_nil.
  - intros ts. apply Forall_forall. intros p Hp. apply list_elem_of_In in Hp.
    apply in_flat_map in Hp as (t & _ & Hp).
    apply in_flat_map in Hp as (c & _ & Hp). unfold columnPaths in Hp.
    destruct (customType (col_Type c)) as [ct|]; [|contradiction].
    apply filter_In in Hp as [_ Hp]. intros ->. discriminate.
Qed.

(** X21: The generator of package pqtgogen passes the path of the uuid package
    to [Imports], which has it in its list already: whenever the imports of
    a generated file are printed, that path is printed twice, on the first
    two lines of the block. *)
Theorem uuid_imported_twice (Plugin : Type) (g : Pqtgogen.Generator Plugin)
  (s s' : Schema) (fixed : list string) (out : list printed) :
  In (Pqtgogen.CallImports s' fixed) (Pqtgogen.generate _ g s).2 ->
  Imports customType s' fixed = Returns out ->
  exists rest,
    out = [Println "import("] ++ importLine uuid ++ importLine uuid ++ rest.
Proof.
  intros Hin. unfold Imports.
  assert (Hf : fixed = [uuid]).
  { unfold Pqtgogen.generate in Hin. cbn [snd] in Hin.
    rewrite !in_app_iff, in_flat_map in Hin.
    destruct Hin as [Hin|[Hin|[Hin|[Hin|[(t' & Ht' & Hin)|Hin]]]]].
    - simpl in Hin. destruct Hin as [?|[[= <- <-]|[]]]; [discriminate|reflexivity].
    - destruct (Pqtgogen.has _ _); simpl in Hin; [destruct Hin as [?|[?|[]]]|];
        try discriminate; contradiction.
    - destruct (_ || _); simpl in Hin; [destruct Hin as [?|[?|[]]]|];
        try discriminate; contradiction.
    - destruct (_ || _); simpl in Hin; [destruct Hin as [?|[?|[]]]|];
        try discriminate; contradiction.
    - rewrite PqtgogenFacts.tableCalls_selected in Hin.
      apply in_flat_map in Hin as (m' & Hm' & Hin).
      simpl in Hin. destruct Hin as [?|[?|[]]]; discriminate.
    - simpl in Hin. destruct Hin as [?|[?|[]]]; discriminate. }
  subst fixed.
  assert (Hpre : forall ts imports r,
            tableImports customType ts imports = Returns r ->
            exists rest, r = imports ++ rest).
  { induction ts as [|t ts IH]; intros imports r; simpl.
    - intros [= <-]. exists []. now rewrite app_nil_r.
    - destruct t as [t|]; [|discriminate]. intros E.
      apply IH in E as [rest ->]. rewrite columnImports_paths, <- app_assoc. eauto. }
  destruct (tableImports customType (s_Tables s') ([uuid] ++ [uuid])) as [r|] eqn:E;
    [|discriminate].
  intros [= <-]. apply Hpre in E as [rest ->].
  exists (flat_map importLine rest ++ [Println ")"]).
  rewrite flat_map_app, <- app_assoc. reflexivity.
Qed.

End Imports.
End GogenPrintFacts.

(** ** The further properties at concrete inputs *)

Module MoreExamples.
Import Sample MoreSamples.

Lemma workingSlice_store_book :
  spare (w_array (workingSlice book)) !! 0%nat = Some (Some bookAuthorKey)
  /\ w_array (workingSlice bookFull) = t_Constraints bookFull.
Proof.
  split.
  - apply (proj1 (proj2 (proj2 (workingSlice_store book))) 0%nat). simpl. lia.
  - apply (proj2 (proj2 (proj2 (workingSlice_store bookFull)))). left. reflexivity.
Defined.

Lemma generateCreateTable_idempotent_book :
  (generateCreateTable pg95 "-- again"
     (Some (set_Constraints book (w_array (workingSlice book))))).1.2
  = Some (set_Constraints book (w_array (workingSlice book))).
Proof.
  apply (generateCreateTable_idempotent pg95 EmptyString "-- again" book).
  vm_compute. reflexivity.
Defined.


Lemma Generate_error_nameless :
  (Generate pg95 withNamelessFunction).2
  = Returns (None, Some "missing function name"%string).
Proof.
  apply (proj2 (Generate_error pg95 withNamelessFunction _)).
  left. split; reflexivity.
Defined.

Lemma generate_more_tables_book :
  (generate pg95 (set_Tables authors (s_Tables authors ++ [Some book]))).2
  = Returns (Some (ddlLayout pg95 authors
                   +:+ concat_strings (map (tableSection pg95) [Some book])), None).
Proof.
  apply (generate_more_tables pg95 authors [Some book]).
  - vm_compute. reflexivity.
  - reflexivity.
Defined.

Lemma dynamic_last_column_author :
  (generateCreateTable pg95 EmptyString (Some authorDynamicLast)).1.1
  = EmptyString +:+ tableHeader authorDynamicLast
    +:+ commaLines (physicalColumns authorDynamicLast)
    +:+ (if 0 <? inlineCount authorDynamicLast then LF else EmptyString)
    +:+ joinConstraintLines (inlineConstraints (w_elems (workingSlice authorDynamicLast)))
    +:+ ");" +:+ LF
  /\ commaLines (physicalColumns statistics) = EmptyString.
Proof.
  split.
  - apply (dynamic_last_column pg95 EmptyString authorDynamicLast).
    + reflexivity.
    + intros c [= <-]. reflexivity.
  - destruct (dynamic_last_column pg95 EmptyString statistics) as [_ Hall];
      [reflexivity | intros c [= <-]; reflexivity |].
    apply Hall. repeat constructor.
Defined.

Lemma physical_last_column_book :
  (generateCreateTable pg95 EmptyString (Some book)).1.1
  = EmptyString +:+ tableBlockAsSpecified book
  /\ (generateCreateTable pg95 EmptyString (Some book)).2 = None.
Proof.
  apply (physical_last_column pg95 EmptyString book).
  - reflexivity.
  - intros c [= <-]. reflexivity.
Defined.

Lemma GenerateTo_Generate_recorder :
  GenerateTo _ recorder pg95 withNamelessFunction []
  = ([], Returns (Some "missing function name"%string))
  /\ GenerateTo _ recorder pg95 withNilTable [] = ([], Panics)
  /\ GenerateTo _ recorder pg95 authors []
     = ([ddlLayout pg95 authors], Returns None).
Proof.
  split; [|split].
  - apply (proj1 (GenerateTo_Generate _ recorder pg95 withNamelessFunction [])).
    vm_compute. reflexivity.
  - apply (proj1 (proj2 (GenerateTo_Generate _ recorder pg95 withNilTable []))).
    vm_compute. reflexivity.
  - destruct (GenerateTo_Generate _ recorder pg95 authors []) as (_ & _ & Hbytes).
    destruct (Hbytes (ddlLayout pg95 authors)) as (_ & Hall & _);
      [vm_compute; reflexivity|].
    apply Hall. reflexivity.
Defined.

Lemma Operand_panics_nil_operand :
  Criteria.Operand unit tt "AND" [Some 1%positive; None] threeLeaves = Panics.
Proof.
  apply (proj2 (CriteriaMore.Operand_panics unit tt "AND" [Some 1%positive; None]
                  threeLeaves
                  ltac:(intros l Hl; apply list_elem_of_In in Hl; simpl in Hl;
                        destruct Hl as [[= <-]|[?|[]]]; [vm_compute; eauto|discriminate]))).
  apply list_elem_of_In. simpl. auto.
Defined.

Lemma Operand_memory_repeated :
  exists h' p,
    Criteria.Operand unit tt "OR" [Some 1%positive; Some 1%positive] threeLeaves
    = Returns (h', p)
    /\ threeLeaves !! p = None
    /\ dom h' = {[p]} ∪ dom threeLeaves
    /\ exists nd, h' !! 1%positive = Some nd /\ Criteria.parent _ nd = Some p.
Proof.
  destruct (Criteria.Operand unit tt "OR" [Some 1%positive; Some 1%positive] threeLeaves)
    as [[h' p]|] eqn:E.
  - exists h', p. split; [reflexivity|].
    destruct (CriteriaMore.Operand_memory unit tt "OR" [Some 1%positive; Some 1%positive]
                threeLeaves h' p) as (Hfree & Hdom & _ & Hparent & _).
    + intros l Hl. apply list_elem_of_In in Hl. simpl in Hl.
      destruct Hl as [[= <-]|[[= <-]|[]]]; vm_compute; eauto.
    + exact E.
    + split; [exact Hfree|]. split; [exact Hdom|]. apply Hparent. left.
  - vm_compute in E. discriminate.
Defined.

Lemma received_prefix_author :
  Channel.received authorDone = entityPropertiesGenerator author.
Proof.
  apply (proj2 (ChannelMore.received_prefix author authorDone
                  (ChannelFacts.run_to_end _ _))).
  reflexivity.
Defined.

Lemma no_deadlock_author :
  Channel.finished authorDone \/ exists st', Channel.step authorDone st'.
Proof.
  apply (ChannelMore.no_deadlock author). apply ChannelFacts.run_to_end.
Defined.

Lemma run_length_author :
  (10 <= 3 * length (entityPropertiesGenerator author) + 1)%nat
  /\ (Channel.finished authorDone ->
      10%nat = (3 * length (entityPropertiesGenerator author) + 1)%nat)
  /\ (10%nat = (3 * length (entityPropertiesGenerator author) + 1)%nat ->
      forall st', ~ Channel.step authorDone st').
Proof.
  apply (ChannelMore.run_length author 10 authorDone).
  vm_compute.
  repeat (eapply Channel.run_step;
          [first [apply Channel.step_offer | apply Channel.step_take
                 | apply Channel.step_body | apply Channel.step_close]|]).
  apply Channel.run_done.
Defined.

Lemma entity_fields_plain_books :
  ReadOnly {| Name := "nb_books"; Type_ := "int64"; Tags := EmptyString; ReadOnly := true |}
  = col_IsDynamic booksColumn.
Proof.
  apply (proj1 (proj2 (proj2 (entity_fields_plain author))) booksColumn).
  reflexivity.
Defined.

Lemma more_components_finder :
  (Pqtgogen.generate _ finder authors).2
    `sublist_of`
  (Pqtgogen.generate _ (Pqtgogen.with_Components _ finder Pqtgogen.ComponentAll)
     authors).2.
Proof.
  apply (PqtgogenFacts.more_components unit finder authors Pqtgogen.ComponentAll).
  reflexivity.
Defined.



Lemma Imports_printed_custom :
  GogenPrint.Imports customType customAuthors ["fmt"%string]
  = Returns ([GogenPrint.Println "import("]
             ++ flat_map GogenPrint.importLine
                  (GogenPrint.uuid :: ["fmt"%string]
                   ++ GogenPrint.customPaths customType [authorCustom; author])
             ++ [GogenPrint.Println ")"]).
Proof.
  apply (proj1 (GogenPrintFacts.Imports_printed customType customAuthors ["fmt"%string])
           [authorCustom; author]).
  reflexivity.
Defined.

Lemma uuid_imported_twice_finder :
  exists rest,
    [GogenPrint.Println "import("]
    ++ flat_map GogenPrint.importLine
         [GogenPrint.uuid; GogenPrint.uuid;
          "example.com/payload"%string; "example.com/payload"%string]
    ++ [GogenPrint.Println ")"]
    = [GogenPrint.Println "import("] ++ GogenPrint.importLine GogenPrint.uuid
      ++ GogenPrint.importLine GogenPrint.uuid ++ rest.
Proof.
  apply (GogenPrintFacts.uuid_imported_twice customType unit finder customAuthors
           customAuthors [GogenPrint.uuid]).
  - right. left. reflexivity.
  - reflexivity.
Defined.

End MoreExamples.
